(** * MarryChristmas: particle tree, integrator, meteors and pointer handling

    A shallow embedding of the animation engine of the repository
    (class [Meteor] and class [HolidayApp] of the main TypeScript module)
    together with the properties the specification states about it.

    Conventions of the embedding.
    - A JavaScript [number] is a real number ([R]) and the arithmetic on
      doubles is the arithmetic of the reals: the rounding of a double
      operation, a relative error of [2 ^ -53], is not represented.
    - A [Float32Array] cell holds [Math_fround] of the number assigned to
      it. The buffers of the floor and of the dust round where they are
      written. The four buffers of the tree ([write3], [write4]) record
      the numbers assigned, and [stored] gives what the typed array then
      holds.
    - [Math.random()] reads the next element of a stream of draws.
    - A method is a function from the receiver and the random source to a
      completion (normal or thrown), the receiver afterwards and the random
      source afterwards.
    - A typed array is a list of fixed length: a write outside the
      bounds leaves it unchanged, as the typed array does.
    - The colour conversions and the quaternion construction of three.js,
      which only feed the renderer, are an interface ([THREE]). *)

From Stdlib Require Import Reals Lra Lia ZArith.
From stdpp Require Import list strings gmap.

Local Open Scope R_scope.

(** ** Numbers *)

Definition ltb (a b : R) : bool := if Rlt_dec a b then true else false.
Definition gtb (a b : R) : bool := ltb b a.
Definition strict_eqb (a b : R) : bool := if Req_dec_T a b then true else false.

Definition Math_floor (x : R) : R := IZR (Zfloor x).
Definition Math_ceil (x : R) : R := IZR (Zceil x).
Definition Math_abs (x : R) : R := Rabs x.
Definition Math_sqrt (x : R) : R := sqrt x.
Definition Math_max (a b : R) : R := Rmax a b.
Definition Math_sin (x : R) : R := sin x.
Definition Math_cos (x : R) : R := cos x.
Definition Math_log (x : R) : R := ln x.
Definition Math_PI : R := PI.

(** [Math.pow] on the arguments the program gives it: the exponent 2 with
    any base, and a positive exponent with a base that is not negative
    (where [Math.pow(0, y)] is 0). *)
Definition Math_pow (x y : R) : R :=
  if Req_dec_T y 2 then x ^ 2
  else if Rlt_dec 0 x then Rpower x y else 0.

(** [THREE.MathUtils.lerp]. *)
Definition lerp (x y t : R) : R := (1 - t) * x + t * y.

(** *** Single precision

    [Math.fround], the conversion an assignment to a [Float32Array] cell
    applies: the nearest number with a significand of 24 bits, the one
    with an even significand when two are as near, exponents from -126
    (below, the grid of the subnormal numbers) up. The program assigns no
    number of magnitude [2 ^ 128] or more, where the cell would hold an
    infinity. *)

(** The integer nearest to [m], the even one when [m] is half-way. *)
Definition round_half_even (m : R) : Z :=
  let f := Zfloor m in
  if ltb (m - IZR f) 0.5 then f
  else if ltb 0.5 (m - IZR f) then (f + 1)%Z
  else if Z.even f then f else (f + 1)%Z.

(** The exponent [e] with [2 ^ e <= |x| < 2 ^ (e + 1)], and -126 for the
    numbers below [2 ^ -126]. *)
Definition binade (x : R) : Z :=
  if Req_dec_T x 0 then (-126)%Z
  else Z.max (Zfloor (ln (Rabs x) / ln 2)) (-126).

(** The spacing of the single-precision numbers around [x]. *)
Definition ulp (x : R) : R := powerRZ 2 (binade x - 23).

Definition Math_fround (x : R) : R :=
  IZR (round_half_even (x / ulp x)) * ulp x.

(** ** Random source and the method monad *)

Record RNG := { draws : nat -> R; cursor : nat }.

Definition next (g : RNG) : RNG := {| draws := draws g; cursor := S (cursor g) |}.

(** Every value [Math.random()] can return lies in [0, 1). *)
Definition unit_draws (g : RNG) : Prop := forall k : nat, 0 <= draws g k < 1.

Inductive JSError := TypeError.

Inductive Completion (A : Type) :=
| Normal (a : A)
| Throw (e : JSError).
Arguments Normal {A} a.
Arguments Throw {A} e.

Definition JS (St A : Type) : Type := St -> RNG -> Completion A * St * RNG.

Definition ret {St A} (a : A) : JS St A := fun s g => (Normal a, s, g).

Definition bind {St A B} (m : JS St A) (k : A -> JS St B) : JS St B :=
  fun s g =>
    match m s g with
    | (Normal a, s', g') => k a s' g'
    | (Throw e, s', g') => (Throw e, s', g')
    end.

Definition throw {St A} (e : JSError) : JS St A := fun s g => (Throw e, s, g).
Definition this {St} : JS St St := fun s g => (Normal s, s, g).
Definition assign {St} (f : St -> St) : JS St unit := fun s g => (Normal tt, f s, g).
Definition Math_random {St} : JS St R :=
  fun s g => (Normal (draws g (cursor g)), s, next g).

Notation "x <- m ;; k" := (bind m (fun x => k))
  (at level 100, m at next level, right associativity).
Notation "m ;;; k" := (bind m (fun _ => k))
  (at level 100, right associativity).

(** [for (let i = start; i < start + count; i++) body(i)]. *)
Fixpoint for_range {St} (start count : nat) (body : nat -> JS St unit) : JS St unit :=
  match count with
  | O => ret tt
  | S c => body start ;;; for_range (S start) c body
  end.

(** [array.forEach(m => m.method())] over an array of objects. *)
Fixpoint forEach {E} (f : JS E unit) (l : list E) (g : RNG)
  : Completion unit * list E * RNG :=
  match l with
  | [] => (Normal tt, [], g)
  | m :: l' =>
      match f m g with
      | (Normal _, m', g') =>
          let '(c, l'', g'') := forEach f l' g' in (c, m' :: l'', g'')
      | (Throw e, m', g') => (Throw e, m' :: l', g')
      end
  end.

Definition completion {St A} (r : Completion A * St * RNG) : Completion A := r.1.1.
Definition receiver {St A} (r : Completion A * St * RNG) : St := r.1.2.
Definition source {St A} (r : Completion A * St * RNG) : RNG := r.2.

(** Reading a typed array inside its bounds (the program never reads
    outside; there JavaScript yields [undefined]). *)
Definition read (a : list R) (i : nat) : R := default 0 (a !! i).

(** ** Vectors *)

Module Vector3.
Record t := mk { x : R; y : R; z : R }.

Definition add (a b : t) : t := mk (x a + x b) (y a + y b) (z a + z b).
Definition multiplyScalar (a : t) (s : R) : t := mk (x a * s) (y a * s) (z a * s).
Definition divideScalar (a : t) (s : R) : t := multiplyScalar a (1 / s).
Definition length (a : t) : R := Math_sqrt (x a * x a + y a * y a + z a * z a).
(** [divideScalar(this.length() || 1)] *)
Definition normalize (a : t) : t :=
  divideScalar a (if Req_dec_T (length a) 0 then 1 else length a).
Definition setScalar (s : R) : t := mk s s s.
Definition distanceTo (a b : t) : R :=
  Math_sqrt ((x a - x b) ^ 2 + (y a - y b) ^ 2 + (z a - z b) ^ 2).
End Vector3.

Module Point.
Record t := mk { x : R; y : R }.
End Point.

(** ** The part of three.js the program calls for the renderer only *)

Module Color.
Record t := mk { r : R; g : R; b : R }.
Definition multiplyScalar (c : t) (s : R) : t := mk (r c * s) (g c * s) (b c * s).
End Color.

Record Quaternion := mkQuaternion { qx : R; qy : R; qz : R; qw : R }.

Class THREE := {
  (** [new THREE.Color().setHex(hex)]; [None] is the argument [undefined] *)
  setHex : option Z -> Color.t;
  (** [color.offsetHSL(h, s, l)] *)
  offsetHSL : Color.t -> R -> R -> R -> Color.t;
  (** [quaternion.setFromUnitVectors(from, to)] *)
  setFromUnitVectors : Vector3.t -> Vector3.t -> Quaternion;
}.

(** ** Constants *)

Record Theme := { needle : Z; glow : Z; ornaments : list Z }.

Definition THEMES : gmap string Theme :=
  list_to_map [
    ("classic", {| needle := 0x05331a; glow := 0x77cc99;
                   ornaments := [0xffd700; 0xff3333; 0xffffff; 0xffbbbb]%Z |});
    ("gold", {| needle := 0x5a4a15; glow := 0xffd700;
                ornaments := [0xffffff; 0xffe082; 0xffb74d; 0xffffff]%Z |});
    ("crimson", {| needle := 0x3d0000; glow := 0xff4d4d;
                   ornaments := [0xffffff; 0xffd700; 0xff9999; 0xffbbbb]%Z |});
    ("midnight", {| needle := 0x001533; glow := 0x4dd2ff;
                    ornaments := [0xffffff; 0x90caf9; 0xb3e5fc; 0x81d4fa]%Z |});
    ("snow", {| needle := 0xe0e0e0; glow := 0xb3e5fc;
                ornaments := [0x4dd2ff; 0xffffff; 0x90caf9; 0xffd700]%Z |});
    ("rose", {| needle := 0x4a1020; glow := 0xffaabb;
                ornaments := [0xffffff; 0xffd700; 0xf48fb1; 0xec407a]%Z |});
    ("amethyst", {| needle := 0x1a0a33; glow := 0xba68c8;
                    ornaments := [0xffffff; 0x9575cd; 0x7b1fa2; 0xe1bee7]%Z |});
    ("emerald", {| needle := 0x002a1a; glow := 0x00e676;
                   ornaments := [0xffffff; 0x81c784; 0x4caf50; 0xffd700]%Z |});
    ("cyber", {| needle := 0x050505; glow := 0x00e5ff;
                 ornaments := [0xff00ff; 0x00e5ff; 0x76ff03; 0xffffff]%Z |});
    ("sepia", {| needle := 0x3e2723; glow := 0xffb300;
                 ornaments := [0xd4af37; 0x8d6e63; 0xfff8e1; 0xa1887f]%Z |})
  ].

(** Names every object literal answers to through [Object.prototype]:
    [THEMES[name]] is then a function or an object, not [undefined]. *)
Definition Object_prototype_keys : list string :=
  [ "constructor"; "__proto__"; "hasOwnProperty"; "isPrototypeOf";
    "propertyIsEnumerable"; "toLocaleString"; "toString"; "valueOf";
    "__defineGetter__"; "__defineSetter__"; "__lookupGetter__";
    "__lookupSetter__" ].

(** The value of [THEMES[name]]. *)
Inductive ThemeValue :=
| Own (t : Theme)
| Inherited
| Undefined.

Definition THEMES_get (name : string) : ThemeValue :=
  match THEMES !! name with
  | Some t => Own t
  | None => if bool_decide (name ∈ Object_prototype_keys) then Inherited else Undefined
  end.

Module CONFIG.
Definition treeParticleCount : nat := Z.to_nat 100000.
Definition galaxyParticleCount : nat := Z.to_nat 60000.
Definition dustCount : nat := 4000.
Definition meteorCount : nat := 6.
Definition treeHeight : R := 95.
Definition treeRadius : R := 52.
Definition tiers : R := 30.
End CONFIG.

Inductive Mode := TREE | SCATTER.

Definition Mode_eqb (a b : Mode) : bool :=
  match a, b with
  | TREE, TREE | SCATTER, SCATTER => true
  | _, _ => false
  end.

Record AppState := {
  mode : Mode;
  theme : string;
  handX : R;
  handY : R;
  isPointerDown : bool;
  pointerX : R;
  pointerY : R;
  manualRotX : R;
  manualRotY : R;
  clickStartPos : Point.t;
}.

Record PointerEvent := {
  clientX : R;
  clientY : R;
  (** [(e.target as HTMLElement).tagName] *)
  tagName : string;
}.

(** ** class Meteor *)

Module Meteor.
Record t := mk {
  position : Vector3.t;      (* mesh.position *)
  quaternion : Quaternion;   (* mesh.quaternion *)
  scale : Vector3.t;         (* mesh.scale *)
  velocity : Vector3.t;
}.

Definition set_position (v : Vector3.t) (m : t) : t :=
  mk v (quaternion m) (scale m) (velocity m).
Definition set_quaternion (q : Quaternion) (m : t) : t :=
  mk (position m) q (scale m) (velocity m).
Definition set_scale (v : Vector3.t) (m : t) : t :=
  mk (position m) (quaternion m) v (velocity m).
Definition set_velocity (v : Vector3.t) (m : t) : t :=
  mk (position m) (quaternion m) (scale m) v.

Definition reset `{THREE} : JS t unit :=
  u <- Math_random ;;
  let zBias := Math_pow u 2 in
  let startZ := -3000 + zBias * 2700 in
  let frustumWidth := Math_abs startZ * 1.6 in
  u <- Math_random ;;
  let startX := - frustumWidth / 2 - (u * frustumWidth * 0.5) in
  u <- Math_random ;;
  let startY := 800 + u * 800 in
  assign (set_position (Vector3.mk startX startY startZ)) ;;;
  u <- Math_random ;;
  let speed := 3.5 + u * 5.5 in
  u <- Math_random ;;
  let spread := (u - 0.5) * 0.1 in
  u <- Math_random ;;
  assign (set_velocity
            (Vector3.multiplyScalar
               (Vector3.normalize (Vector3.mk 1.4 (-1.0 + spread) ((u - 0.5) * 0.2)))
               speed)) ;;;
  m <- this ;;
  let up := Vector3.mk 0 1 0 in
  let dir := Vector3.normalize (velocity m) in
  assign (set_quaternion (setFromUnitVectors up dir)) ;;;
  let perspectiveCompensation := 1.0 + (1.0 - zBias) * 2.0 in
  u <- Math_random ;;
  let s := perspectiveCompensation * (0.8 + u * 1.5) in
  assign (set_scale (Vector3.mk s s s)).

Definition update `{THREE} : JS t unit :=
  assign (fun m => set_position (Vector3.add (position m) (velocity m)) m) ;;;
  m <- this ;;
  if ltb (Vector3.y (position m)) (-1200) || gtb (Vector3.x (position m)) 3500
  then reset
  else ret tt.
End Meteor.

(** ** class HolidayApp *)

Record HolidayApp := {
  state : AppState;
  positions : list R;               (* treeGeometry.attributes.position.array *)
  position_needsUpdate : bool;
  colors : list R;                  (* treeGeometry.attributes.color.array *)
  color_needsUpdate : bool;
  treeJitters : list R;
  treeBranchParams : list R;
  mainGroup_rotation_x : R;
  mainGroup_rotation_y : R;
  galaxyFloor_rotation_y : R;
  galaxyFloor_position_y : R;
  heart_scale : Vector3.t;
  heart_rotation_y : R;
  heart_emissiveIntensity : R;
  meteors : list Meteor.t;
}.

Definition set_state (v : AppState) (a : HolidayApp) : HolidayApp :=
  {| state := v; positions := positions a; position_needsUpdate := position_needsUpdate a;
     colors := colors a; color_needsUpdate := color_needsUpdate a;
     treeJitters := treeJitters a; treeBranchParams := treeBranchParams a;
     mainGroup_rotation_x := mainGroup_rotation_x a;
     mainGroup_rotation_y := mainGroup_rotation_y a;
     galaxyFloor_rotation_y := galaxyFloor_rotation_y a;
     galaxyFloor_position_y := galaxyFloor_position_y a;
     heart_scale := heart_scale a; heart_rotation_y := heart_rotation_y a;
     heart_emissiveIntensity := heart_emissiveIntensity a; meteors := meteors a |}.

Definition set_positions (v : list R) (a : HolidayApp) : HolidayApp :=
  {| state := state a; positions := v; position_needsUpdate := position_needsUpdate a;
     colors := colors a; color_needsUpdate := color_needsUpdate a;
     treeJitters := treeJitters a; treeBranchParams := treeBranchParams a;
     mainGroup_rotation_x := mainGroup_rotation_x a;
     mainGroup_rotation_y := mainGroup_rotation_y a;
     galaxyFloor_rotation_y := galaxyFloor_rotation_y a;
     galaxyFloor_position_y := galaxyFloor_position_y a;
     heart_scale := heart_scale a; heart_rotation_y := heart_rotation_y a;
     heart_emissiveIntensity := heart_emissiveIntensity a; meteors := meteors a |}.

Definition set_position_needsUpdate (v : bool) (a : HolidayApp) : HolidayApp :=
  {| state := state a; positions := positions a; position_needsUpdate := v;
     colors := colors a; color_needsUpdate := color_needsUpdate a;
     treeJitters := treeJitters a; treeBranchParams := treeBranchParams a;
     mainGroup_rotation_x := mainGroup_rotation_x a;
     mainGroup_rotation_y := mainGroup_rotation_y a;
     galaxyFloor_rotation_y := galaxyFloor_rotation_y a;
     galaxyFloor_position_y := galaxyFloor_position_y a;
     heart_scale := heart_scale a; heart_rotation_y := heart_rotation_y a;
     heart_emissiveIntensity := heart_emissiveIntensity a; meteors := meteors a |}.

Definition set_colors (v : list R) (a : HolidayApp) : HolidayApp :=
  {| state := state a; positions := positions a; position_needsUpdate := position_needsUpdate a;
     colors := v; color_needsUpdate := color_needsUpdate a;
     treeJitters := treeJitters a; treeBranchParams := treeBranchParams a;
     mainGroup_rotation_x := mainGroup_rotation_x a;
     mainGroup_rotation_y := mainGroup_rotation_y a;
     galaxyFloor_rotation_y := galaxyFloor_rotation_y a;
     galaxyFloor_position_y := galaxyFloor_position_y a;
     heart_scale := heart_scale a; heart_rotation_y := heart_rotation_y a;
     heart_emissiveIntensity := heart_emissiveIntensity a; meteors := meteors a |}.

Definition set_color_needsUpdate (v : bool) (a : HolidayApp) : HolidayApp :=
  {| state := state a; positions := positions a; position_needsUpdate := position_needsUpdate a;
     colors := colors a; color_needsUpdate := v;
     treeJitters := treeJitters a; treeBranchParams := treeBranchParams a;
     mainGroup_rotation_x := mainGroup_rotation_x a;
     mainGroup_rotation_y := mainGroup_rotation_y a;
     galaxyFloor_rotation_y := galaxyFloor_rotation_y a;
     galaxyFloor_position_y := galaxyFloor_position_y a;
     heart_scale := heart_scale a; heart_rotation_y := heart_rotation_y a;
     heart_emissiveIntensity := heart_emissiveIntensity a; meteors := meteors a |}.

Definition set_treeJitters (v : list R) (a : HolidayApp) : HolidayApp :=
  {| state := state a; positions := positions a; position_needsUpdate := position_needsUpdate a;
     colors := colors a; color_needsUpdate := color_needsUpdate a;
     treeJitters := v; treeBranchParams := treeBranchParams a;
     mainGroup_rotation_x := mainGroup_rotation_x a;
     mainGroup_rotation_y := mainGroup_rotation_y a;
     galaxyFloor_rotation_y := galaxyFloor_rotation_y a;
     galaxyFloor_position_y := galaxyFloor_position_y a;
     heart_scale := heart_scale a; heart_rotation_y := heart_rotation_y a;
     heart_emissiveIntensity := heart_emissiveIntensity a; meteors := meteors a |}.

Definition set_treeBranchParams (v : list R) (a : HolidayApp) : HolidayApp :=
  {| state := state a; positions := positions a; position_needsUpdate := position_needsUpdate a;
     colors := colors a; color_needsUpdate := color_needsUpdate a;
     treeJitters := treeJitters a; treeBranchParams := v;
     mainGroup_rotation_x := mainGroup_rotation_x a;
     mainGroup_rotation_y := mainGroup_rotation_y a;
     galaxyFloor_rotation_y := galaxyFloor_rotation_y a;
     galaxyFloor_position_y := galaxyFloor_position_y a;
     heart_scale := heart_scale a; heart_rotation_y := heart_rotation_y a;
     heart_emissiveIntensity := heart_emissiveIntensity a; meteors := meteors a |}.

Definition set_meteors (v : list Meteor.t) (a : HolidayApp) : HolidayApp :=
  {| state := state a; positions := positions a; position_needsUpdate := position_needsUpdate a;
     colors := colors a; color_needsUpdate := color_needsUpdate a;
     treeJitters := treeJitters a; treeBranchParams := treeBranchParams a;
     mainGroup_rotation_x := mainGroup_rotation_x a;
     mainGroup_rotation_y := mainGroup_rotation_y a;
     galaxyFloor_rotation_y := galaxyFloor_rotation_y a;
     galaxyFloor_position_y := galaxyFloor_position_y a;
     heart_scale := heart_scale a; heart_rotation_y := heart_rotation_y a;
     heart_emissiveIntensity := heart_emissiveIntensity a; meteors := v |}.

(** The scalar transforms [update] writes before the particle loop. *)
Definition set_transforms (rx ry fry fpy : R) (hs : Vector3.t) (hry hei : R)
  (a : HolidayApp) : HolidayApp :=
  {| state := state a; positions := positions a; position_needsUpdate := position_needsUpdate a;
     colors := colors a; color_needsUpdate := color_needsUpdate a;
     treeJitters := treeJitters a; treeBranchParams := treeBranchParams a;
     mainGroup_rotation_x := rx; mainGroup_rotation_y := ry;
     galaxyFloor_rotation_y := fry; galaxyFloor_position_y := fpy;
     heart_scale := hs; heart_rotation_y := hry;
     heart_emissiveIntensity := hei; meteors := meteors a |}.

Definition set_mode (v : Mode) (s : AppState) : AppState :=
  {| mode := v; theme := theme s; handX := handX s; handY := handY s;
     isPointerDown := isPointerDown s; pointerX := pointerX s; pointerY := pointerY s;
     manualRotX := manualRotX s; manualRotY := manualRotY s;
     clickStartPos := clickStartPos s |}.

Definition set_theme (v : string) (s : AppState) : AppState :=
  {| mode := mode s; theme := v; handX := handX s; handY := handY s;
     isPointerDown := isPointerDown s; pointerX := pointerX s; pointerY := pointerY s;
     manualRotX := manualRotX s; manualRotY := manualRotY s;
     clickStartPos := clickStartPos s |}.

Definition set_hand (hx hy : R) (s : AppState) : AppState :=
  {| mode := mode s; theme := theme s; handX := hx; handY := hy;
     isPointerDown := isPointerDown s; pointerX := pointerX s; pointerY := pointerY s;
     manualRotX := manualRotX s; manualRotY := manualRotY s;
     clickStartPos := clickStartPos s |}.

Definition set_isPointerDown (v : bool) (s : AppState) : AppState :=
  {| mode := mode s; theme := theme s; handX := handX s; handY := handY s;
     isPointerDown := v; pointerX := pointerX s; pointerY := pointerY s;
     manualRotX := manualRotX s; manualRotY := manualRotY s;
     clickStartPos := clickStartPos s |}.

Definition set_pointer (px py : R) (s : AppState) : AppState :=
  {| mode := mode s; theme := theme s; handX := handX s; handY := handY s;
     isPointerDown := isPointerDown s; pointerX := px; pointerY := py;
     manualRotX := manualRotX s; manualRotY := manualRotY s;
     clickStartPos := clickStartPos s |}.

Definition set_manualRot (rx ry : R) (s : AppState) : AppState :=
  {| mode := mode s; theme := theme s; handX := handX s; handY := handY s;
     isPointerDown := isPointerDown s; pointerX := pointerX s; pointerY := pointerY s;
     manualRotX := rx; manualRotY := ry;
     clickStartPos := clickStartPos s |}.

Definition set_clickStartPos (v : Point.t) (s : AppState) : AppState :=
  {| mode := mode s; theme := theme s; handX := handX s; handY := handY s;
     isPointerDown := isPointerDown s; pointerX := pointerX s; pointerY := pointerY s;
     manualRotX := manualRotX s; manualRotY := manualRotY s;
     clickStartPos := v |}.

(** *** Reading a palette entry

    [theme.glow] and the like, where [theme] is the value of
    [THEMES[this.state.theme]]: a property of [undefined] cannot be read,
    and an inherited member has none of the three properties. *)

Definition property {St A} (theme : ThemeValue) (field : Theme -> A) : JS St (option A) :=
  match theme with
  | Own t => ret (Some (field t))
  | Inherited => ret None
  | Undefined => throw TypeError
  end.

(** [array[Math.floor(u * array.length)]]. *)
Definition element (array : list Z) (index : R) : option Z :=
  if ltb index 0 then None else array !! Z.to_nat (Zfloor index).

(** The colour rule, written twice in the source with the same text (in
    [initTreeParticles] and in [updateTreeColors]); [r] is the draw made
    just before. *)
Definition particleColor {St} `{THREE} (theme : ThemeValue) (isBranch : bool) (r : R)
  : JS St Color.t :=
  if isBranch then
    hex <- property theme glow ;;
    ret (Color.multiplyScalar (setHex hex) 1.02)
  else if ltb r 0.85 then
    hex <- property theme needle ;;
    let color := setHex hex in
    u <- Math_random ;;
    ret (offsetHSL color 0 0 ((u - 0.5) * 0.05))
  else
    palette <- property theme ornaments ;;
    u <- Math_random ;;
    match palette with
    | None => throw TypeError
    | Some array =>
        let hex := element array (Math_floor (u * INR (length array))) in
        ret (Color.multiplyScalar (setHex hex) 0.9)
    end.

(** [a[idx] = v0; a[idx + 1] = v1; a[idx + 2] = v2], and the same for four
    cells: the numbers assigned. Of a [Float32Array] written this way,
    [stored] gives the content. *)
Definition write3 (idx : nat) (v0 v1 v2 : R) (a : list R) : list R :=
  <[(idx + 2)%nat := v2]> (<[(idx + 1)%nat := v1]> (<[idx := v0]> a)).

Definition write4 (bIdx : nat) (v0 v1 v2 v3 : R) (a : list R) : list R :=
  <[(bIdx + 3)%nat := v3]> (<[(bIdx + 2)%nat := v2]> (<[(bIdx + 1)%nat := v1]> (<[bIdx := v0]> a))).

Definition store_color (idx : nat) (color : Color.t) : JS HolidayApp unit :=
  assign (fun a => set_colors
            (write3 idx (Color.r color) (Color.g color) (Color.b color) (colors a)) a).

(** One turn of the loop of [initTreeParticles]. *)
Definition initTreeParticle `{THREE} (theme : ThemeValue) (i : nat) : JS HolidayApp unit :=
  let idx := (i * 3)%nat in
  let bIdx := (i * 4)%nat in
  u0 <- Math_random ;;
  u1 <- Math_random ;;
  u2 <- Math_random ;;
  assign (fun a => set_positions
            (write3 idx ((u0 - 0.5) * 400) ((u1 - 0.5) * 400) ((u2 - 0.5) * 400)
                    (positions a)) a) ;;;
  u <- Math_random ;;
  let isBranch := ltb u 0.3 in
  u <- Math_random ;;
  let tier := Math_floor (Math_pow u 0.35 * CONFIG.tiers) in
  let branchesPerTier := 8 + tier in
  u <- Math_random ;;
  let branchAngle := (u * branchesPerTier) * (Math_PI * 2 / branchesPerTier) in
  u <- Math_random ;;
  let distFromCenter := u in
  assign (fun a => set_treeBranchParams
            (write4 bIdx distFromCenter tier branchAngle (if isBranch then 1 else 0)
                    (treeBranchParams a)) a) ;;;
  let jitterScale := if isBranch then 0.3 else 3.0 in
  j0 <- Math_random ;;
  j1 <- Math_random ;;
  j2 <- Math_random ;;
  assign (fun a => set_treeJitters
            (write3 idx ((j0 - 0.5) * jitterScale) ((j1 - 0.5) * jitterScale)
                    ((j2 - 0.5) * jitterScale) (treeJitters a)) a) ;;;
  r <- Math_random ;;
  color <- particleColor theme isBranch r ;;
  store_color idx color.

(** [initTreeParticles]. The buffers [positions] and [colors], local to
    the method and installed as attributes of the geometry after the loop,
    are written in place. *)
Definition initTreeParticles `{THREE} : JS HolidayApp unit :=
  let n := CONFIG.treeParticleCount in
  assign (set_positions (replicate (n * 3) 0)) ;;;
  assign (set_colors (replicate (n * 3) 0)) ;;;
  assign (set_treeJitters (replicate (n * 3) 0)) ;;;
  assign (set_treeBranchParams (replicate (n * 4) 0)) ;;;
  app <- this ;;
  let theme := THEMES_get (theme (state app)) in
  for_range 0 n (initTreeParticle theme).

(** One turn of the loop of [updateTreeColors]. *)
Definition updateTreeColor `{THREE} (theme : ThemeValue) (i : nat) : JS HolidayApp unit :=
  let idx := (i * 3)%nat in
  let bIdx := (i * 4)%nat in
  app <- this ;;
  let isBranch := strict_eqb (read (treeBranchParams app) (bIdx + 3)%nat) 1 in
  r <- Math_random ;;
  color <- particleColor theme isBranch r ;;
  store_color idx color.

Definition updateTreeColors `{THREE} : JS HolidayApp unit :=
  app <- this ;;
  let theme := THEMES_get (theme (state app)) in
  for_range 0 CONFIG.treeParticleCount (updateTreeColor theme) ;;;
  assign (set_color_needsUpdate true).

(** The [change] listener [initUI] puts on the theme selector; [value] is
    the selected option's value. *)
Definition onThemeChange `{THREE} (value : string) : JS HolidayApp unit :=
  assign (fun a => set_state (set_theme value (state a)) a) ;;;
  updateTreeColors.

(** *** Pointer handlers (they touch [this.state] only) *)

Definition onPointerDown (e : PointerEvent) (s : AppState) : AppState :=
  if String.eqb (tagName e) "SELECT" || String.eqb (tagName e) "BUTTON"
     || String.eqb (tagName e) "OPTION"
  then s
  else
    let s := set_isPointerDown true s in
    let s := set_clickStartPos (Point.mk (clientX e) (clientY e)) s in
    set_pointer (clientX e) (clientY e) s.

Definition onPointerMove (e : PointerEvent) (s : AppState) : AppState :=
  if negb (isPointerDown s) then s
  else
    let dx := clientX e - pointerX s in
    let dy := clientY e - pointerY s in
    let s := set_manualRot (manualRotX s + dy * 0.005) (manualRotY s + dx * 0.005) s in
    set_pointer (clientX e) (clientY e) s.

Definition modes : list Mode := [TREE; SCATTER].

(** [array.indexOf(m)]: the first position of [m], or -1. *)
Fixpoint indexOf (l : list Mode) (m : Mode) : Z :=
  match l with
  | [] => (-1)%Z
  | h :: t =>
      if Mode_eqb h m then 0%Z
      else let k := indexOf t m in if (k <? 0)%Z then (-1)%Z else (k + 1)%Z
  end.

(** [modes[(modes.indexOf(m) + 1) % modes.length]]; the index is 0 or 1. *)
Definition nextMode (m : Mode) : option Mode :=
  modes !! Z.to_nat (Z.rem (indexOf modes m + 1) (Z.of_nat (length modes))).

(** The distance [onPointerUp] compares with 5. *)
Definition clickDistance (e : PointerEvent) (s : AppState) : R :=
  Math_sqrt (Math_pow (clientX e - Point.x (clickStartPos s)) 2
             + Math_pow (clientY e - Point.y (clickStartPos s)) 2).

Definition onPointerUp (e : PointerEvent) (s : AppState) : AppState :=
  if negb (isPointerDown s) then s
  else
    let s := set_isPointerDown false s in
    let dist := clickDistance e s in
    if ltb dist 5 then
      match nextMode (mode s) with
      | Some m => set_mode m s
      | None => s
      end
    else s.

(** *** The frame *)

(** Target of a tree particle in mode TREE, from its four stored
    parameters and its three jitters. *)
Definition treeTarget (i : nat) (time : R)
  (distAlongBranch tierIndex branchAngle : R) (isBranch : bool) (jx jy jz : R)
  : Vector3.t :=
  let tierT := tierIndex / CONFIG.tiers in
  let tierHeight := (1 - tierT) * CONFIG.treeHeight - CONFIG.treeHeight / 2 + 12 in
  let tierRadiusMax := Math_pow tierT 1.1 * CONFIG.treeRadius in
  let subAngleScale := if isBranch then 0.2 else 2.5 in
  let actualAngle :=
    branchAngle + (Math_sin (INR i * 0.01) * subAngleScale * (1 - distAlongBranch)) in
  let droop := Math_pow distAlongBranch 1.4 * 7 in
  let sway := Math_sin (time * 0.4 + tierIndex * 0.6) * 0.15 in
  let branchRadius := distAlongBranch * tierRadiusMax in
  let tx := Math_cos (actualAngle + sway) * branchRadius + jx in
  let calculatedTy := tierHeight - droop + jy + Math_sin (time * 0.8 + tierIndex) * 0.5 in
  let ty := Math_max calculatedTy (-51.8) in
  let tz := Math_sin (actualAngle + sway) * branchRadius + jz in
  Vector3.mk tx ty tz.

(** Target of particle [i] in mode SCATTER. *)
Definition scatterTarget (i : nat) (time : R) : Vector3.t :=
  let t := INR i / INR CONFIG.treeParticleCount in
  let r := 90 + Math_sin (t * 300 + time) * 60 in
  Vector3.mk (Math_cos (t * Math_PI * 4 + time * 0.4) * r)
             (Math_sin (t * 180 + time * 0.2) * r)
             (Math_sin (t * Math_PI * 4 + time * 0.4) * r).

Definition target (a : HolidayApp) (i : nat) (time : R) : Vector3.t :=
  let idx := (i * 3)%nat in
  let bIdx := (i * 4)%nat in
  match mode (state a) with
  | TREE =>
      treeTarget i time
        (read (treeBranchParams a) bIdx)
        (read (treeBranchParams a) (bIdx + 1))
        (read (treeBranchParams a) (bIdx + 2))
        (strict_eqb (read (treeBranchParams a) (bIdx + 3)) 1)
        (read (treeJitters a) idx)
        (read (treeJitters a) (idx + 1))
        (read (treeJitters a) (idx + 2))
  | SCATTER => scatterTarget i time
  end.

(** [p += (t - p) * 0.06]: the number assigned to the cell, which then
    holds [integrate_stored]. *)
Definition integrate (p t : R) : R := p + (t - p) * 0.06.

Definition integrate3 (p t : Vector3.t) : Vector3.t :=
  Vector3.mk (integrate (Vector3.x p) (Vector3.x t))
             (integrate (Vector3.y p) (Vector3.y t))
             (integrate (Vector3.z p) (Vector3.z t)).

(** The position of particle [i] in the buffer. *)
Definition particle (p : list R) (i : nat) : Vector3.t :=
  Vector3.mk (read p (i * 3)) (read p (i * 3 + 1)) (read p (i * 3 + 2)).

(** One turn of the particle loop of [update]. *)
Definition updateParticle (time : R) (i : nat) : JS HolidayApp unit :=
  let idx := (i * 3)%nat in
  a <- this ;;
  let q := integrate3 (particle (positions a) i) (target a i time) in
  assign (set_positions
            (write3 idx (Vector3.x q) (Vector3.y q) (Vector3.z q) (positions a))).

(** [this.meteors.forEach(m => m.update())]. *)
Definition updateMeteors `{THREE} : JS HolidayApp unit :=
  fun a g =>
    let '(c, ms, g') := forEach Meteor.update (meteors a) g in
    (c, set_meteors ms a, g').

(** [update()]. [time] is the clock's elapsed time; [hand] is landmark 9 of
    the first detected hand when the tracker is ready and sees one. *)
Definition update `{THREE} (time : R) (hand : option Point.t) : JS HolidayApp unit :=
  match hand with
  | Some h =>
      assign (fun a => set_state
                (set_hand ((Point.x h - 0.5) * 2) ((Point.y h - 0.5) * 2) (state a)) a)
  | None => ret tt
  end ;;;
  a <- this ;;
  let s := state a in
  let targetRotY := handX s * 0.35 + manualRotY s in
  let targetRotX := handY s * 0.18 + manualRotX s in
  let ry := mainGroup_rotation_y a + (targetRotY - mainGroup_rotation_y a) * 0.05 in
  let rx := mainGroup_rotation_x a + (targetRotX - mainGroup_rotation_x a) * 0.05 in
  let fry := galaxyFloor_rotation_y a + 0.003 in
  let targetFloorY := if Mode_eqb (mode s) TREE then -52 else -140 in
  let fpy := lerp (galaxyFloor_position_y a) targetFloorY 0.05 in
  let heartVisible := if Mode_eqb (mode s) TREE then 1 else 0 in
  let hs := Vector3.setScalar
              (lerp (Vector3.x (heart_scale a))
                    (heartVisible * (1 + Math_sin (time * 2.5) * 0.06)) 0.1) in
  let hry := heart_rotation_y a + 0.006 in
  let hei := 1.5 + Math_sin (time * 4) * 0.7 in
  assign (set_transforms rx ry fry fpy hs hry hei) ;;;
  updateMeteors ;;;
  for_range 0 CONFIG.treeParticleCount (updateParticle time) ;;;
  assign (set_position_needsUpdate true).

(** ** Concrete values used to run the program *)

(** three.js as the program's examples run it: colours kept as the hex
    digits give them (no colour-space conversion). Every theorem below is
    stated for an arbitrary [THREE]; this one runs the concrete cases. *)
Module Three.
Definition channel (hex : Z) (shift : Z) : R :=
  IZR (Z.land (Z.shiftr hex shift) 255) / 255.

Definition setHex (hex : option Z) : Color.t :=
  match hex with
  | Some h => Color.mk (channel h 16) (channel h 8) (channel h 0)
  | None => Color.mk 0 0 0
  end.

Definition clamp (v lo hi : R) : R := Rmax lo (Rmin hi v).
Definition euclideanModulo (n m : R) : R := n - IZR (Zfloor (n / m)) * m.

Definition hue2rgb (p q t : R) : R :=
  let t := if ltb t 0 then t + 1 else t in
  let t := if gtb t 1 then t - 1 else t in
  if ltb t (1 / 6) then p + (q - p) * 6 * t
  else if ltb t (1 / 2) then q
  else if ltb t (2 / 3) then p + (q - p) * 6 * (2 / 3 - t)
  else p.

Definition setHSL (h s l : R) : Color.t :=
  let h := euclideanModulo h 1 in
  let s := clamp s 0 1 in
  let l := clamp l 0 1 in
  if strict_eqb s 0 then Color.mk l l l
  else
    let p := if Rle_dec l 0.5 then l * (1 + s) else l + s - l * s in
    let q := 2 * l - p in
    Color.mk (hue2rgb q p (h + 1 / 3)) (hue2rgb q p h) (hue2rgb q p (h - 1 / 3)).

Definition getHSL (c : Color.t) : R * R * R :=
  let r := Color.r c in
  let g := Color.g c in
  let b := Color.b c in
  let max := Rmax r (Rmax g b) in
  let min := Rmin r (Rmin g b) in
  let lightness := (min + max) / 2 in
  if strict_eqb min max then (0, 0, lightness)
  else
    let delta := max - min in
    let saturation :=
      if Rle_dec lightness 0.5 then delta / (max + min) else delta / (2 - max - min) in
    let hue :=
      if strict_eqb max r then (g - b) / delta + (if ltb g b then 6 else 0)
      else if strict_eqb max g then (b - r) / delta + 2
      else (r - g) / delta + 4 in
    (hue / 6, saturation, lightness).

Definition offsetHSL (c : Color.t) (h s l : R) : Color.t :=
  let '(h0, s0, l0) := getHSL c in
  setHSL (h0 + h) (s0 + s) (l0 + l).

Definition dot (a b : Vector3.t) : R :=
  Vector3.x a * Vector3.x b + Vector3.y a * Vector3.y b + Vector3.z a * Vector3.z b.

Definition normalizeQuaternion (q : Quaternion) : Quaternion :=
  let l := Math_sqrt (qx q * qx q + qy q * qy q + qz q * qz q + qw q * qw q) in
  if strict_eqb l 0 then mkQuaternion 0 0 0 1
  else mkQuaternion (qx q / l) (qy q / l) (qz q / l) (qw q / l).

Definition setFromUnitVectors (vFrom vTo : Vector3.t) : Quaternion :=
  let r := dot vFrom vTo + 1 in
  normalizeQuaternion
    (if ltb r (/ 2 ^ 52) then
       if gtb (Math_abs (Vector3.x vFrom)) (Math_abs (Vector3.z vFrom))
       then mkQuaternion (- Vector3.y vFrom) (Vector3.x vFrom) 0 0
       else mkQuaternion 0 (- Vector3.z vFrom) (Vector3.y vFrom) 0
     else
       mkQuaternion
         (Vector3.y vFrom * Vector3.z vTo - Vector3.z vFrom * Vector3.y vTo)
         (Vector3.z vFrom * Vector3.x vTo - Vector3.x vFrom * Vector3.z vTo)
         (Vector3.x vFrom * Vector3.y vTo - Vector3.y vFrom * Vector3.x vTo)
         r).

Definition js : THREE := Build_THREE setHex offsetHSL setFromUnitVectors.
End Three.

(** The state the constructor starts from. *)
Definition initialState : AppState :=
  {| mode := TREE; theme := "classic"; handX := 0; handY := 0;
     isPointerDown := false; pointerX := 0; pointerY := 0;
     manualRotX := 0; manualRotY := 0; clickStartPos := Point.mk 0 0 |}.

(** The application with its buffers allocated and its transforms as the
    [init] methods set them, before any particle or meteor is drawn. *)
Definition allocated : HolidayApp :=
  {| state := initialState;
     positions := replicate (CONFIG.treeParticleCount * 3) 0;
     position_needsUpdate := false;
     colors := replicate (CONFIG.treeParticleCount * 3) 0;
     color_needsUpdate := false;
     treeJitters := replicate (CONFIG.treeParticleCount * 3) 0;
     treeBranchParams := replicate (CONFIG.treeParticleCount * 4) 0;
     mainGroup_rotation_x := 0; mainGroup_rotation_y := 0;
     galaxyFloor_rotation_y := 0; galaxyFloor_position_y := -52;
     heart_scale := Vector3.mk 1 1 1; heart_rotation_y := 0;
     heart_emissiveIntensity := 1.5; meteors := [] |}.

(** A random source whose draws are all [v]. *)
Definition constant_source (v : R) : RNG := {| draws := fun _ => v; cursor := 0 |}.

(** A random source whose draw number [k] is [v] and whose other draws are 0. *)
Definition spike_source (k : nat) (v : R) : RNG :=
  {| draws := fun j => if Nat.eqb j k then v else 0; cursor := 0 |}.

(** ** Vocabulary of the statements *)

(** The other mode of the cycle [TREE, SCATTER]. *)
Definition toggled (m : Mode) : Mode :=
  match m with TREE => SCATTER | SCATTER => TREE end.

(** [n] applications of the integrator step towards a fixed target. *)
Fixpoint integrate_n (n : nat) (p t : Vector3.t) : Vector3.t :=
  match n with
  | O => p
  | S k => integrate3 (integrate_n k p t) t
  end.

(** What a [Float32Array] holds once its cells have been assigned the
    numbers of [a]. *)
Definition stored (a : list R) : list R := Math_fround <$> a.

(** [positions[idx] += (tx - positions[idx]) * 0.06] as the cell of the
    position buffer has it afterwards. *)
Definition integrate_stored (p t : R) : R := Math_fround (integrate p t).

Definition integrate3_stored (p t : Vector3.t) : Vector3.t :=
  Vector3.mk (integrate_stored (Vector3.x p) (Vector3.x t))
             (integrate_stored (Vector3.y p) (Vector3.y t))
             (integrate_stored (Vector3.z p) (Vector3.z t)).

(** [n] steps of a particle of the position buffer towards a fixed target. *)
Fixpoint integrate_stored_n (n : nat) (p t : Vector3.t) : Vector3.t :=
  match n with
  | O => p
  | S k => integrate3_stored (integrate_stored_n k p t) t
  end.

(** The invariant the specification gives for the stored parameters of
    particle [i]. *)
Definition descriptor_in_range (params : list R) (i : nat) : Prop :=
  exists (branchFraction branchAngle : R) (tier : Z),
    params !! (i * 4)%nat = Some branchFraction
    /\ params !! (i * 4 + 1)%nat = Some (IZR tier)
    /\ params !! (i * 4 + 2)%nat = Some branchAngle
    /\ 0 <= branchFraction < 1
    /\ (0 <= tier < 30)%Z
    /\ 0 <= branchAngle < 2 * PI.

(** The same ranges with their end points, the tier 30 and a rounding
    allowance of one millionth on the full turn. *)
Definition descriptor_in_closed_range (params : list R) (i : nat) : Prop :=
  exists (branchFraction branchAngle : R) (tier : Z),
    params !! (i * 4)%nat = Some branchFraction
    /\ params !! (i * 4 + 1)%nat = Some (IZR tier)
    /\ params !! (i * 4 + 2)%nat = Some branchAngle
    /\ 0 <= branchFraction <= 1
    /\ (0 <= tier <= 30)%Z
    /\ 0 <= branchAngle <= 2 * PI + 0.000001.

(** [angle] is one of the [n] equally spaced angles [k * (2π / n)]. *)
Definition quantized (angle n : R) : Prop :=
  exists k : Z, angle = IZR k * (2 * PI / n).

(** Where [reset] puts a body, from the first three draws. *)
Definition spawnZ (u : R) : R := -3000 + Math_pow u 2 * 2700.
Definition spawnX (u0 u1 : R) : R :=
  - (Math_abs (spawnZ u0) * 1.6) / 2 - (u1 * (Math_abs (spawnZ u0) * 1.6) * 0.5).
Definition spawnY (u2 : R) : R := 800 + u2 * 800.

(** Exponential smoothing with factor [alpha]. *)
Definition smoothed (alpha old goal new : R) : Prop :=
  new = old + (goal - old) * alpha.

(** The targets [update] eases the floor and the heart towards. *)
Definition targetFloorY (m : Mode) : R :=
  match m with TREE => -52 | SCATTER => -140 end.

Definition targetHeartScale (m : Mode) (time : R) : R :=
  (match m with TREE => 1 | SCATTER => 0 end) * (1 + Math_sin (time * 2.5) * 0.06).

(** Everything of the application but the colour attribute. *)
Definition same_but_colors (a a' : HolidayApp) : Prop :=
  state a' = state a
  /\ positions a' = positions a
  /\ position_needsUpdate a' = position_needsUpdate a
  /\ treeJitters a' = treeJitters a
  /\ treeBranchParams a' = treeBranchParams a
  /\ mainGroup_rotation_x a' = mainGroup_rotation_x a
  /\ mainGroup_rotation_y a' = mainGroup_rotation_y a
  /\ galaxyFloor_rotation_y a' = galaxyFloor_rotation_y a
  /\ galaxyFloor_position_y a' = galaxyFloor_position_y a
  /\ heart_scale a' = heart_scale a
  /\ heart_rotation_y a' = heart_rotation_y a
  /\ heart_emissiveIntensity a' = heart_emissiveIntensity a
  /\ meteors a' = meteors a.

(** The tier and the branch angle [initTreeParticles] stores, from the
    draws they are computed from. *)
Definition tierOf (u : R) : R := Math_floor (Math_pow u 0.35 * CONFIG.tiers).
Definition branchAngleOf (tier u : R) : R :=
  (u * (8 + tier)) * (Math_PI * 2 / (8 + tier)).

(** A theme request rejected at the boundary: the handler fails and the
    application keeps its active theme and its colours. *)
Definition rejected_at_boundary `{THREE} (value : string) (a : HolidayApp) (g : RNG)
  : Prop :=
  let after := onThemeChange value a g in
  completion after = Throw TypeError
  /\ theme (state (receiver after)) = theme (state a)
  /\ colors (receiver after) = colors a.

(** The floor offset and the heart scale of [a'] are those of [a] eased
    towards their targets with the factors [alphaFloor] and [alphaHeart]. *)
Definition eased (alphaFloor alphaHeart : R) (time : R) (a a' : HolidayApp) : Prop :=
  smoothed alphaFloor (galaxyFloor_position_y a) (targetFloorY (mode (state a)))
           (galaxyFloor_position_y a')
  /\ smoothed alphaHeart (Vector3.x (heart_scale a))
              (targetHeartScale (mode (state a)) time) (Vector3.x (heart_scale a')).

(** The allocated application once a click has switched it to SCATTER. *)
Definition scattered : HolidayApp :=
  set_state (set_mode SCATTER initialState) allocated.

(** ** The floor ring, the dust and the meteor pool *)

(** [color.setHSL(h, s, l)], which only [initGalaxyFloor] calls. *)
Class THREE_HSL := { setHSL : R -> R -> R -> Color.t }.

(** The instance that runs the concrete cases. *)
Definition Three_hsl : THREE_HSL := Build_THREE_HSL Three.setHSL.

(** [color.lerpColors(color1, color2, alpha)]. *)
Definition Color_lerpColors (c1 c2 : Color.t) (alpha : R) : Color.t :=
  Color.mk (Color.r c1 + (Color.r c2 - Color.r c1) * alpha)
           (Color.g c1 + (Color.g c2 - Color.g c1) * alpha)
           (Color.b c1 + (Color.b c2 - Color.b c1) * alpha).

Module Galaxy.
Inductive RingType := TAICHI | SPIRAL.

Record Ring := {
  inner : R;
  outer : R;
  height : R;
  colorBase : Z;
  type : RingType;
}.

Definition ringConfig : list Ring :=
  [ {| inner := 10; outer := 60; height := 8; colorBase := 0xffd700; type := TAICHI |};
    {| inner := 74; outer := 135; height := 5; colorBase := 0xffffff; type := SPIRAL |};
    {| inner := 175; outer := 275; height := 3; colorBase := 0x66ccff; type := SPIRAL |} ].

(** The two buffers local to [initGalaxyFloor], both [Float32Array]. *)
Record buffers := mk { pos : list R; colors : list R }.

(** Distance, angle, height and colour of one floor particle. *)
Record placement := place { dist : R; angle : R; py : R; color : Color.t }.

(** The connector branch of the loop body; [t] is the first draw. *)
Definition connector `{THREE} {St} (i : nat) (t : R) : JS St placement :=
  let gapType := (i mod 2)%nat in
  let dist := if Nat.eqb gapType 0 then 58 + t * 18 else 135 + t * 45 in
  let color :=
    if Nat.eqb gapType 0
    then Color_lerpColors (setHex (Some 0xffd700%Z)) (setHex (Some 0xffffff%Z)) t
    else Color_lerpColors (setHex (Some 0xffffff%Z)) (setHex (Some 0x66ccff%Z)) t in
  u <- Math_random ;;
  let angle := (INR i * 0.05) + (dist * 0.045) + (u - 0.5) * 2.0 in
  u <- Math_random ;;
  let py := (u - 0.5) * 3 in
  ret (place dist angle py (Color.multiplyScalar color 0.3)).

(** The ring branch of the loop body. *)
Definition ring `{THREE} `{THREE_HSL} {St} (i : nat) (t : R) : JS St placement :=
  let ringIdx := (i mod 3)%nat in
  match ringConfig !! ringIdx with
  | None => throw TypeError
  | Some config =>
      let rRange := outer config - inner config in
      let dist := inner config + t * rRange in
      shape <-
        match type config with
        | TAICHI =>
            let arm := (i mod 2)%nat in
            let baseAngle := if Nat.eqb arm 0 then 0 else Math_PI in
            let wind := dist * 0.05 in
            let thickness := 0.5 + Math_sin (t * Math_PI) * 1.5 in
            u <- Math_random ;;
            let angle := baseAngle + wind + (u - 0.5) * thickness in
            let bulgeHeight := Math_sin (t * Math_PI) * 12.0 in
            u <- Math_random ;;
            ret (angle, (u - 0.5) * 4 + bulgeHeight)
        | SPIRAL =>
            let arms := (6 + ringIdx)%nat in
            let armIdx := (i mod arms)%nat in
            u <- Math_random ;;
            let angle :=
              (INR armIdx / INR arms) * Math_PI * 2 + (dist * 0.035) + (u - 0.5) * 1.0 in
            u <- Math_random ;;
            ret (angle, Math_sin (t * Math_PI) * height config + (u - 0.5) * 2.0)
        end ;;
      randomTone <- Math_random ;;
      color <-
        (if gtb randomTone 0.8 then ret (setHex (Some (colorBase config)))
         else
           u <- Math_random ;;
           ret (setHSL (0.6 + INR ringIdx * 0.05) 0.4 (0.4 + u * 0.3))) ;;
      ret (place dist (fst shape) (snd shape) color)
  end.

(** One turn of the loop of [initGalaxyFloor]; the six numbers go into
    cells of single precision. *)
Definition initGalaxyParticle `{THREE} `{THREE_HSL} (i : nat) : JS buffers unit :=
  let idx := (i * 3)%nat in
  t <- Math_random ;;
  let isConnector := (i mod 100 <? 20)%nat in
  p <- (if isConnector then connector i t else ring i t) ;;
  assign (fun b =>
            mk (write3 idx (Math_fround (Math_cos (angle p) * dist p * 1.6))
                       (Math_fround (py p))
                       (Math_fround (Math_sin (angle p) * dist p * 1.6)) (pos b))
               (write3 idx (Math_fround (Color.r (color p))) (Math_fround (Color.g (color p)))
                       (Math_fround (Color.b (color p))) (colors b))).

(** The buffers [initGalaxyFloor] builds (it then hands them to the
    renderer and puts the floor at height -52). *)
Definition initGalaxyFloor `{THREE} `{THREE_HSL} : JS buffers unit :=
  let n := CONFIG.galaxyParticleCount in
  assign (fun _ => mk (replicate (n * 3) 0) (replicate (n * 3) 0)) ;;;
  for_range 0 n initGalaxyParticle.
End Galaxy.

(** The buffer [initDust] builds, a [Float32Array]. *)
Definition initDust : JS (list R) unit :=
  assign (fun _ => replicate (CONFIG.dustCount * 3) 0) ;;;
  for_range 0 (CONFIG.dustCount * 3)
    (fun i => u <- Math_random ;;
              assign (fun pos => <[i := Math_fround ((u - 0.5) * 2000)]> pos)).

(** [new THREE.Mesh(...)] with [new THREE.Vector3()] for a velocity: the
    object the constructor of [Meteor] has before it calls [reset]. *)
Definition Meteor_blank : Meteor.t :=
  Meteor.mk (Vector3.mk 0 0 0) (mkQuaternion 0 0 0 1) (Vector3.mk 1 1 1) (Vector3.mk 0 0 0).

(** [new Meteor()]: the two draws that size the streak (geometry and
    material go to the renderer), then [reset]. *)
Definition Meteor_constructor `{THREE} : JS Meteor.t unit :=
  u <- Math_random ;;
  let length := 25 + u * 50 in
  u <- Math_random ;;
  let headRadius := 0.2 + u * 0.35 in
  Meteor.reset.

(** [initMeteors]. *)
Definition initMeteors `{THREE} : JS HolidayApp unit :=
  for_range 0 CONFIG.meteorCount
    (fun _ a g =>
       let '(c, m, g') := Meteor_constructor Meteor_blank g in
       match c with
       | Normal _ => (Normal tt, set_meteors (meteors a ++ [m]) a, g')
       | Throw e => (Throw e, a, g')
       end).

(** [animate]: one [update] per display frame, each with the clock's
    time and what the hand tracker reports at that frame. *)
Fixpoint animate `{THREE} (frames : list (R * option Point.t)) : JS HolidayApp unit :=
  match frames with
  | [] => ret tt
  | (time, hand) :: rest => update time hand ;;; animate rest
  end.

(** The pointer events the window delivers. *)
Inductive PointerInput :=
| pointerdown (e : PointerEvent)
| pointermove (e : PointerEvent)
| pointerup (e : PointerEvent).

Definition dispatch (s : AppState) (i : PointerInput) : AppState :=
  match i with
  | pointerdown e => onPointerDown e s
  | pointermove e => onPointerMove e s
  | pointerup e => onPointerUp e s
  end.

(** A run of pointer events, in the order they arrive. *)
Definition dispatch_all (s : AppState) (l : list PointerInput) : AppState :=
  foldl dispatch s l.

(** *** The text toggle

    What [toggleTextUI] and the [h] key touch of the page: whether each of
    the three elements carries the class [ui-hidden] ([None]: the element
    is not in the page) and the label of the button. *)
Record Page := {
  ui_container : option bool;
  pers_msg : option bool;
  top_controls : option bool;
  hide_ui_btn : option string;
}.

Definition toggleTextUI (p : Page) : Page :=
  (* [uiContainer?.classList.contains('ui-hidden')]: undefined without the element *)
  let isHidden := default false (ui_container p) in
  if isHidden then
    {| ui_container := (fun _ => false) <$> ui_container p;
       pers_msg := (fun _ => false) <$> pers_msg p;
       top_controls := top_controls p;
       hide_ui_btn := (fun _ => "Hide Text") <$> hide_ui_btn p |}
  else
    {| ui_container := (fun _ => true) <$> ui_container p;
       pers_msg := (fun _ => true) <$> pers_msg p;
       top_controls := top_controls p;
       hide_ui_btn := (fun _ => "Show Text") <$> hide_ui_btn p |}.

(** [key.toLowerCase() === 'h']: the key is [h] or [H]. *)
Definition is_h (key : string) : bool := String.eqb key "h" || String.eqb key "H".

(** The [keydown] listener of [initUI]. *)
Definition onKeyDown (key : string) (p : Page) : Page :=
  if is_h key then
    let p := toggleTextUI p in
    {| ui_container := ui_container p; pers_msg := pers_msg p;
       top_controls := negb <$> top_controls p;
       hide_ui_btn := hide_ui_btn p |}
  else p.

(** ** Vocabulary of the further statements *)

(** The box [reset] spawns a body in, with its faces. *)
Definition in_spawn_box (p : Vector3.t) : Prop :=
  -4800 <= Vector3.x p <= -240
  /\ 800 <= Vector3.y p <= 1600
  /\ -3000 <= Vector3.z p <= -300.

(** The bounds [Meteor.update] keeps a body in. *)
Definition in_bounds (m : Meteor.t) : Prop :=
  -1200 <= Vector3.y (Meteor.position m) /\ Vector3.x (Meteor.position m) <= 3500.

(** Particle [i] of a three-component buffer, or nothing outside it. *)
Definition triple (p : list R) (i : nat) : option Vector3.t :=
  match p !! (i * 3)%nat, p !! (i * 3 + 1)%nat, p !! (i * 3 + 2)%nat with
  | Some x, Some y, Some z => Some (Vector3.mk x y z)
  | _, _, _ => None
  end.

(** The pointer-moves of a drag. *)
Definition moves (l : list PointerEvent) : list PointerInput := pointermove <$> l.

(** The position of the last event of a run, or [start] for an empty run. *)
Definition last_position (start : Point.t) (l : list PointerEvent) : Point.t :=
  match last l with
  | Some e => Point.mk (clientX e) (clientY e)
  | None => start
  end.

(** A click at one place on the canvas: down and up at the same position. *)
Definition click (x y : R) : list PointerInput :=
  [ pointerdown {| clientX := x; clientY := y; tagName := "CANVAS" |};
    pointerup {| clientX := x; clientY := y; tagName := "CANVAS" |} ].

(** The interaction state after the hand tracker's report of a frame:
    none leaves it as it was. *)
Definition track (hand : option Point.t) (s : AppState) : AppState :=
  match hand with
  | Some h => set_hand ((Point.x h - 0.5) * 2) ((Point.y h - 0.5) * 2) s
  | None => s
  end.

(** The rotation the scene group eases towards. *)
Definition targetRotX (s : AppState) : R := handY s * 0.18 + manualRotX s.
Definition targetRotY (s : AppState) : R := handX s * 0.35 + manualRotY s.

(** Every coordinate of [v] is within [bound] of 0. *)
Definition within (bound : R) (v : Vector3.t) : Prop :=
  - bound <= Vector3.x v <= bound
  /\ - bound <= Vector3.y v <= bound
  /\ - bound <= Vector3.z v <= bound.

(** What generation leaves for particle [i] beside its tier and angle: a
    branch flag that is 1 or 0, a jitter within 0.15 for a branch particle
    and within 1.5 for a needle, a start position within 200. *)
Definition generated_particle (a : HolidayApp) (i : nat) : Prop :=
  exists (flag : R) (jitter start : Vector3.t),
    treeBranchParams a !! (i * 4 + 3)%nat = Some flag
    /\ triple (treeJitters a) i = Some jitter
    /\ triple (positions a) i = Some start
    /\ ((flag = 1 /\ within 0.15 jitter) \/ (flag = 0 /\ within 1.5 jitter))
    /\ within 200 start.

(** Colour [i] of a colour buffer. *)
Definition colour_at (buffer : list R) (i : nat) : option Color.t :=
  (fun v => Color.mk (Vector3.x v) (Vector3.y v) (Vector3.z v)) <$> triple buffer i.

(** The colours the rule can give with palette [t]: the glow, brightened,
    to a branch particle; to a needle either the needle colour with its
    lightness moved by less than 0.025, or one of the ornaments, dimmed. *)
Definition theme_colour `{THREE} (t : Theme) (isBranch : bool) (c : Color.t) : Prop :=
  if isBranch then c = Color.multiplyScalar (setHex (Some (glow t))) 1.02
  else (exists l, -0.025 <= l < 0.025 /\ c = offsetHSL (setHex (Some (needle t))) 0 0 l)
       \/ (exists hex, hex ∈ ornaments t
                       /\ c = Color.multiplyScalar (setHex (Some hex)) 0.9).

(** Particle [i] of [a] carries a colour of palette [t] that fits its
    branch flag. *)
Definition recoloured `{THREE} (t : Theme) (a : HolidayApp) (i : nat) : Prop :=
  exists c, colour_at (colors a) i = Some c
            /\ theme_colour t (strict_eqb (read (treeBranchParams a) (i * 4 + 3)) 1) c.

(** The band of distances of floor particle [i]: a ring, or for one
    particle in five the gap between two rings. *)
Definition band (i : nat) : R * R :=
  if (i mod 100 <? 20)%nat then
    if Nat.eqb (i mod 2) 0 then (58, 76) else (135, 180)
  else
    match (i mod 3)%nat with
    | O => (10, 60)
    | S O => (74, 135)
    | _ => (175, 275)
    end.

(** The distance of [p] from the vertical axis. *)
Definition axisDistance (p : Vector3.t) : R :=
  Vector3.length (Vector3.mk (Vector3.x p) 0 (Vector3.z p)).

(** Floor particle [i] sits at a distance of the axis that is, to one
    ten-thousandth, 1.6 times a distance of its band, at a height from -2
    to 14. *)
Definition floor_particle_placed (pos : list R) (i : nat) : Prop :=
  exists p : Vector3.t,
    triple pos i = Some p
    /\ fst (band i) * 1.6 - 0.0001 <= axisDistance p <= snd (band i) * 1.6 + 0.0001
    /\ -2 <= Vector3.y p <= 14.

(** The text toggle is in step: the container is in the page, hidden or
    not, and the message and the button label, where they exist, agree
    with it. *)
Definition in_step (p : Page) (hidden : bool) : Prop :=
  ui_container p = Some hidden
  /\ (pers_msg p = None \/ pers_msg p = Some hidden)
  /\ (hide_ui_btn p = None
      \/ hide_ui_btn p = Some (if hidden then "Show Text" else "Hide Text")).

(** The stored parameters and jitters of every particle are in the ranges
    generation gives them. *)
Definition descriptors_in_range (a : HolidayApp) : Prop :=
  forall i : nat, (i < CONFIG.treeParticleCount)%nat ->
    0 <= read (treeBranchParams a) (i * 4) < 1
    /\ 0 <= read (treeBranchParams a) (i * 4 + 1) < 30
    /\ within 1.5 (particle (treeJitters a) i).

(** Every particle of the position buffer is within [bound] of the origin
    on each axis. *)
Definition particles_within (bound : R) (a : HolidayApp) : Prop :=
  forall i : nat, (i < CONFIG.treeParticleCount)%nat ->
    within bound (particle (positions a) i).

(** * Properties *)

(** ** Comparisons *)

Lemma ltb_true (a b : R) : ltb a b = true <-> a < b.
Proof. unfold ltb. destruct (Rlt_dec a b); split; intros; try discriminate; tauto. Qed.

Lemma ltb_false (a b : R) : ltb a b = false <-> b <= a.
Proof.
  unfold ltb. destruct (Rlt_dec a b); split; intros; try discriminate; try lra; auto.
Qed.

Lemma Math_pow_2 (x : R) : Math_pow x 2 = x ^ 2.
Proof. unfold Math_pow. destruct (Req_dec_T 2 2); [reflexivity | congruence]. Qed.

(** ** Single precision *)

Section Rounding.

Lemma round_half_even_error (m : R) :
  - (1 / 2) <= IZR (round_half_even m) - m <= 1 / 2.
Proof.
  unfold round_half_even, ltb.
  pose proof (Zfloor_bound m) as Hb.
  destruct (Rlt_dec (m - IZR (Zfloor m)) 0.5); [lra |].
  destruct (Rlt_dec 0.5 (m - IZR (Zfloor m))); [rewrite plus_IZR; lra |].
  destruct (Z.even (Zfloor m)); [lra | rewrite plus_IZR; lra].
Qed.

Lemma round_half_even_le (m : R) (k : Z) : m <= IZR k -> (round_half_even m <= k)%Z.
Proof.
  intros Hm. unfold round_half_even, ltb.
  pose proof (Zfloor_bound m) as Hb.
  assert (Zfloor m <= k)%Z as Hf by (apply le_IZR; lra).
  destruct (Rlt_dec (m - IZR (Zfloor m)) 0.5); [exact Hf |].
  assert (Zfloor m + 1 <= k)%Z.
  { assert (Zfloor m < k)%Z; [| lia]. apply lt_IZR. lra. }
  destruct (Rlt_dec 0.5 (m - IZR (Zfloor m))); [assumption |].
  destruct (Z.even (Zfloor m)); assumption.
Qed.

Lemma round_half_even_ge (m : R) (k : Z) : IZR k <= m -> (k <= round_half_even m)%Z.
Proof.
  intros Hm. unfold round_half_even.
  assert (k <= Zfloor m)%Z as Hf by (apply Zfloor_lub; exact Hm).
  destruct (ltb _ _); [exact Hf |].
  destruct (ltb _ _); [lia |].
  destruct (Z.even _); lia.
Qed.

Lemma round_half_even_near (m : R) (k : Z) :
  IZR k - 1 / 2 < m < IZR k + 1 / 2 -> round_half_even m = k.
Proof.
  intros Hm. pose proof (round_half_even_error m) as He.
  assert (k - 1 < round_half_even m < k + 1)%Z; [| lia].
  split; apply lt_IZR; [rewrite minus_IZR | rewrite plus_IZR]; lra.
Qed.

Lemma pow2_pos (e : Z) : 0 < powerRZ 2 e.
Proof. apply powerRZ_lt; lra. Qed.

Lemma pow2_add (a b : Z) : powerRZ 2 (a + b) = powerRZ 2 a * powerRZ 2 b.
Proof. apply powerRZ_add; lra. Qed.

Lemma pow2_le (a b : Z) : (a <= b)%Z -> powerRZ 2 a <= powerRZ 2 b.
Proof.
  intros Hab. replace b with (a + (b - a))%Z by lia. rewrite pow2_add.
  assert (1 <= powerRZ 2 (b - a)).
  { destruct (b - a)%Z eqn:E; try lia; [simpl; lra |].
    simpl. apply pow_R1_Rle. lra. }
  pose proof (pow2_pos a). nra.
Qed.

Lemma pow2_IZR (n : Z) : (0 <= n)%Z -> powerRZ 2 n = IZR (2 ^ n).
Proof.
  intros Hn. destruct n as [| p | p]; try lia; [reflexivity |].
  change (2 ^ Z.pos p)%Z with (Z.pow_pos 2 p).
  rewrite Zpower_pos_powerRZ. reflexivity.
Qed.

Lemma ln_pow2 (e : Z) : ln (powerRZ 2 e) = IZR e * ln 2.
Proof.
  rewrite powerRZ_Rpower by lra. unfold Rpower. apply ln_exp.
Qed.

Lemma ln2_pos : 0 < ln 2.
Proof. rewrite <- ln_1. apply ln_increasing; lra. Qed.

Lemma binade_min (x : R) : (-126 <= binade x)%Z.
Proof. unfold binade. destruct (Req_dec_T x 0); lia. Qed.

(** A number below [2 ^ (E + 1)] in magnitude is in binade [E] or below. *)
Lemma binade_le (x : R) (E : Z) :
  Rabs x < powerRZ 2 (E + 1) -> (-126 <= E)%Z -> (binade x <= E)%Z.
Proof.
  intros Hx HE. unfold binade. destruct (Req_dec_T x 0) as [| Hn]; [exact HE |].
  apply Z.max_lub; [| exact HE].
  assert (0 < Rabs x) as Hp by (apply Rabs_pos_lt; exact Hn).
  assert (ln (Rabs x) < IZR (E + 1) * ln 2) as Hl.
  { rewrite <- ln_pow2. apply ln_increasing; assumption. }
  pose proof ln2_pos as H2.
  assert (ln (Rabs x) / ln 2 < IZR (E + 1)) as Hq.
  { apply Rmult_lt_reg_r with (ln 2); [exact H2 |].
    unfold Rdiv. rewrite Rmult_assoc, Rinv_l by lra. lra. }
  pose proof (Zfloor_bound (ln (Rabs x) / ln 2)) as Hb.
  assert (Zfloor (ln (Rabs x) / ln 2) < E + 1)%Z; [| lia].
  apply lt_IZR. lra.
Qed.

Lemma binade_eq (x : R) (e : Z) :
  powerRZ 2 e <= Rabs x < powerRZ 2 (e + 1) -> (-126 <= e)%Z -> binade x = e.
Proof.
  intros [Hlo Hhi] He.
  pose proof (binade_le x e Hhi He) as Hle.
  assert (e <= binade x)%Z; [| lia].
  pose proof (pow2_pos e) as Hpe.
  unfold binade. destruct (Req_dec_T x 0) as [-> | Hn].
  { rewrite Rabs_R0 in Hlo. lra. }
  etransitivity; [| apply Z.le_max_l].
  apply Zfloor_lub.
  pose proof ln2_pos as H2.
  apply Rmult_le_reg_r with (ln 2); [exact H2 |].
  unfold Rdiv. rewrite Rmult_assoc, Rinv_l by lra. rewrite Rmult_1_r.
  rewrite <- ln_pow2.
  destruct Hlo as [Hlo | Hlo]; [left; apply ln_increasing; assumption | right; congruence].
Qed.

Lemma ulp_pos (x : R) : 0 < ulp x.
Proof. apply pow2_pos. Qed.

(** A multiple of [2 ^ (E - 23)] is on the grid of every number of binade
    [E] or below. *)
Lemma on_grid (x g : R) (E k : Z) :
  (binade x <= E)%Z -> g = IZR k * powerRZ 2 (E - 23) ->
  exists k' : Z, g = IZR k' * ulp x.
Proof.
  intros HE ->. exists (k * 2 ^ (E - binade x))%Z.
  unfold ulp. rewrite mult_IZR, <- pow2_IZR by lia.
  rewrite Rmult_assoc, <- pow2_add. do 2 f_equal. lia.
Qed.

Lemma fround_le_grid (x : R) (k : Z) : x <= IZR k * ulp x -> Math_fround x <= IZR k * ulp x.
Proof.
  intros Hx. unfold Math_fround. pose proof (ulp_pos x) as Hu.
  apply Rmult_le_compat_r; [lra |]. apply IZR_le, round_half_even_le.
  apply Rmult_le_reg_r with (ulp x); [exact Hu |].
  unfold Rdiv. rewrite Rmult_assoc, Rinv_l by lra. lra.
Qed.

Lemma fround_ge_grid (x : R) (k : Z) : IZR k * ulp x <= x -> IZR k * ulp x <= Math_fround x.
Proof.
  intros Hx. unfold Math_fround. pose proof (ulp_pos x) as Hu.
  apply Rmult_le_compat_r; [lra |]. apply IZR_le, round_half_even_ge.
  apply Rmult_le_reg_r with (ulp x); [exact Hu |].
  unfold Rdiv. rewrite Rmult_assoc, Rinv_l by lra. lra.
Qed.

(** Rounding does not cross a number the cell can hold. *)
Lemma fround_le (x g : R) (E k : Z) :
  Rabs x < powerRZ 2 (E + 1) -> (-126 <= E)%Z -> g = IZR k * powerRZ 2 (E - 23) ->
  x <= g -> Math_fround x <= g.
Proof.
  intros Hx HE Hg Hxg.
  destruct (on_grid x g E k (binade_le x E Hx HE) Hg) as [k' ->].
  apply fround_le_grid; exact Hxg.
Qed.

Lemma fround_ge (x g : R) (E k : Z) :
  Rabs x < powerRZ 2 (E + 1) -> (-126 <= E)%Z -> g = IZR k * powerRZ 2 (E - 23) ->
  g <= x -> g <= Math_fround x.
Proof.
  intros Hx HE Hg Hxg.
  destruct (on_grid x g E k (binade_le x E Hx HE) Hg) as [k' ->].
  apply fround_ge_grid; exact Hxg.
Qed.

Lemma fround_exact (x : R) (E k : Z) :
  Rabs x < powerRZ 2 (E + 1) -> (-126 <= E)%Z -> x = IZR k * powerRZ 2 (E - 23) ->
  Math_fround x = x.
Proof.
  intros Hx HE Hk. apply Rle_antisym.
  - apply (fround_le x x E k); (assumption || lra).
  - apply (fround_ge x x E k); (assumption || lra).
Qed.

(** The rounding error is at most half a unit in the last place. *)
Lemma fround_error (x : R) (E : Z) :
  Rabs x < powerRZ 2 (E + 1) -> (-126 <= E)%Z ->
  Rabs (Math_fround x - x) <= powerRZ 2 (E - 24).
Proof.
  intros Hx HE. pose proof (binade_le x E Hx HE) as Hb.
  pose proof (ulp_pos x) as Hu.
  pose proof (round_half_even_error (x / ulp x)) as He.
  assert (ulp x <= powerRZ 2 (E - 23)) as Hle by (apply pow2_le; lia).
  replace (E - 23)%Z with ((E - 24) + 1)%Z in Hle by lia.
  rewrite pow2_add in Hle. change (powerRZ 2 1) with (2 * 1) in Hle.
  unfold Math_fround.
  replace (IZR (round_half_even (x / ulp x)) * ulp x - x)
    with ((IZR (round_half_even (x / ulp x)) - x / ulp x) * ulp x) by (field; lra).
  rewrite Rabs_mult, (Rabs_pos_eq (ulp x)) by lra.
  assert (Rabs (IZR (round_half_even (x / ulp x)) - x / ulp x) <= 1 / 2) as Ha.
  { apply Rabs_le. lra. }
  pose proof (Rabs_pos (IZR (round_half_even (x / ulp x)) - x / ulp x)).
  nra.
Qed.

(** The stored value of a number whose binade and nearest grid point are
    known. *)
Lemma fround_eq (x : R) (e k : Z) :
  powerRZ 2 e <= Rabs x < powerRZ 2 (e + 1) -> (-126 <= e)%Z ->
  IZR k - 1 / 2 < x / powerRZ 2 (e - 23) < IZR k + 1 / 2 ->
  Math_fround x = IZR k * powerRZ 2 (e - 23).
Proof.
  intros Hx He Hk. unfold Math_fround, ulp. rewrite (binade_eq x e Hx He).
  rewrite (round_half_even_near _ k Hk). reflexivity.
Qed.

Lemma fround_0 : Math_fround 0 = 0.
Proof.
  apply (fround_exact 0 0 0); [| lia | lra].
  rewrite Rabs_R0. apply pow2_pos.
Qed.

(** A draw keeps to the unit interval, whose upper end it can reach. *)
Lemma fround_unit (x : R) : 0 <= x < 1 -> 0 <= Math_fround x <= 1.
Proof.
  intros Hx.
  assert (Rabs x < powerRZ 2 (-1 + 1)) as Ha.
  { rewrite Rabs_pos_eq by lra. simpl. lra. }
  split.
  - apply (fround_ge x 0 (-1) 0); [exact Ha | lia | lra | lra].
  - apply (fround_le x 1 (-1) (2 ^ 24)); [exact Ha | lia | | lra].
    simpl. lra.
Qed.

(** A small integer is stored as it is. *)
Lemma fround_integer (k : Z) : (-30 <= k <= 30)%Z -> Math_fround (IZR k) = IZR k.
Proof.
  intros Hk. apply (fround_exact (IZR k) 4 (k * 2 ^ 19)).
  - apply Rabs_def1; simpl.
    + apply Rle_lt_trans with (IZR 30); [apply IZR_le; lia | lra].
    + apply Rlt_le_trans with (IZR (-30)); [lra | apply IZR_le; lia].
  - lia.
  - rewrite mult_IZR. simpl. lra.
Qed.

(** Inside a symmetric range with end points the cell can hold, the
    stored number stays in the range. *)
Lemma fround_within (x bound : R) (E k : Z) :
  bound < powerRZ 2 (E + 1) -> (-126 <= E)%Z -> bound = IZR k * powerRZ 2 (E - 23) ->
  - bound <= x <= bound -> - bound <= Math_fround x <= bound.
Proof.
  intros Hb HE Hk Hx.
  assert (Rabs x < powerRZ 2 (E + 1)) as Ha by (apply Rabs_def1; lra).
  split.
  - apply (fround_ge x (- bound) E (- k)); [exact Ha | exact HE | | lra].
    rewrite opp_IZR. lra.
  - apply (fround_le x bound E k); [exact Ha | exact HE | exact Hk | lra].
Qed.

(** In the cube of the scene a stored coordinate is within 0.00001 of the
    number assigned. *)
Lemma fround_200 (x : R) :
  -200 <= x <= 200 ->
  -200 <= Math_fround x <= 200 /\ Rabs (Math_fround x - x) <= 0.00001.
Proof.
  intros Hx. split.
  - apply (fround_within x 200 7 13107200); [simpl; lra | lia | simpl; lra | lra].
  - eapply Rle_trans; [apply (fround_error x 7); [| lia] |].
    + apply Rabs_def1; simpl; lra.
    + simpl. lra.
Qed.

End Rounding.

(** ** Distances *)

Section Distances.

Lemma cauchy_schwarz (a1 a2 a3 b1 b2 b3 : R) :
  a1 * b1 + a2 * b2 + a3 * b3
  <= sqrt (a1 ^ 2 + a2 ^ 2 + a3 ^ 2) * sqrt (b1 ^ 2 + b2 ^ 2 + b3 ^ 2).
Proof.
  rewrite <- sqrt_mult_alt by nra.
  apply Rle_trans with (Rabs (a1 * b1 + a2 * b2 + a3 * b3)); [apply Rle_abs |].
  rewrite <- sqrt_Rsqr_abs. apply sqrt_le_1_alt. unfold Rsqr.
  pose proof (pow2_ge_0 (a1 * b2 - a2 * b1)).
  pose proof (pow2_ge_0 (a1 * b3 - a3 * b1)).
  pose proof (pow2_ge_0 (a2 * b3 - a3 * b2)).
  nra.
Qed.

Lemma norm_triangle (a1 a2 a3 b1 b2 b3 : R) :
  sqrt ((a1 + b1) ^ 2 + (a2 + b2) ^ 2 + (a3 + b3) ^ 2)
  <= sqrt (a1 ^ 2 + a2 ^ 2 + a3 ^ 2) + sqrt (b1 ^ 2 + b2 ^ 2 + b3 ^ 2).
Proof.
  pose proof (cauchy_schwarz a1 a2 a3 b1 b2 b3) as Hcs.
  pose proof (sqrt_pos (a1 ^ 2 + a2 ^ 2 + a3 ^ 2)) as Ha.
  pose proof (sqrt_pos (b1 ^ 2 + b2 ^ 2 + b3 ^ 2)) as Hb.
  pose proof (sqrt_sqrt (a1 ^ 2 + a2 ^ 2 + a3 ^ 2) ltac:(nra)) as Ea.
  pose proof (sqrt_sqrt (b1 ^ 2 + b2 ^ 2 + b3 ^ 2) ltac:(nra)) as Eb.
  set (A := sqrt (a1 ^ 2 + a2 ^ 2 + a3 ^ 2)) in *.
  set (B := sqrt (b1 ^ 2 + b2 ^ 2 + b3 ^ 2)) in *.
  rewrite <- (sqrt_pow2 (A + B)) by lra.
  apply sqrt_le_1_alt. nra.
Qed.

Lemma Rabs_le_bounds (x eps : R) : Rabs x <= eps -> - eps <= x <= eps.
Proof.
  intros Hx. pose proof (Rle_abs x). pose proof (Rle_abs (- x)) as Hn.
  rewrite Rabs_Ropp in Hn. lra.
Qed.

Lemma norm_small (e1 e2 e3 eps : R) :
  Rabs e1 <= eps -> Rabs e2 <= eps -> Rabs e3 <= eps ->
  sqrt (e1 ^ 2 + e2 ^ 2 + e3 ^ 2) <= 2 * eps.
Proof.
  intros H1 H2 H3.
  pose proof (Rabs_pos e1) as P1.
  apply Rabs_le_bounds in H1, H2, H3.
  rewrite <- (sqrt_pow2 (2 * eps)) by lra.
  apply sqrt_le_1_alt. nra.
Qed.

Lemma distanceTo_triangle (a b c : Vector3.t) :
  Vector3.distanceTo a c <= Vector3.distanceTo a b + Vector3.distanceTo b c.
Proof.
  unfold Vector3.distanceTo, Math_sqrt.
  replace (Vector3.x a - Vector3.x c)
    with ((Vector3.x a - Vector3.x b) + (Vector3.x b - Vector3.x c)) by ring.
  replace (Vector3.y a - Vector3.y c)
    with ((Vector3.y a - Vector3.y b) + (Vector3.y b - Vector3.y c)) by ring.
  replace (Vector3.z a - Vector3.z c)
    with ((Vector3.z a - Vector3.z b) + (Vector3.z b - Vector3.z c)) by ring.
  apply norm_triangle.
Qed.

Lemma distanceTo_sym (a b : Vector3.t) : Vector3.distanceTo a b = Vector3.distanceTo b a.
Proof. unfold Vector3.distanceTo. f_equal. ring. Qed.

End Distances.

(** ** The integrator *)

Section Integrator.

Implicit Types p t : Vector3.t.

Lemma integrate_error (p t : R) : integrate p t - t = 0.94 * (p - t).
Proof. unfold integrate. lra. Qed.

Lemma distanceTo_nonneg p t : 0 <= Vector3.distanceTo p t.
Proof. apply sqrt_pos. Qed.

Lemma distanceTo_integrate3 p t :
  Vector3.distanceTo (integrate3 p t) t = 0.94 * Vector3.distanceTo p t.
Proof.
  unfold Vector3.distanceTo, integrate3, Math_sqrt. cbn [Vector3.x Vector3.y Vector3.z].
  rewrite !integrate_error.
  replace ((0.94 * (Vector3.x p - Vector3.x t)) ^ 2
           + (0.94 * (Vector3.y p - Vector3.y t)) ^ 2
           + (0.94 * (Vector3.z p - Vector3.z t)) ^ 2)
    with (0.94 ^ 2 * ((Vector3.x p - Vector3.x t) ^ 2
                      + (Vector3.y p - Vector3.y t) ^ 2
                      + (Vector3.z p - Vector3.z t) ^ 2)) by ring.
  rewrite sqrt_mult_alt by (apply pow2_ge_0).
  rewrite sqrt_pow2 by lra. reflexivity.
Qed.

Lemma square_zero (x : R) : x ^ 2 = 0 -> x = 0.
Proof. intros H. apply Rsqr_0_uniq. rewrite Rsqr_pow2. exact H. Qed.

Lemma distanceTo_zero p t : Vector3.distanceTo p t = 0 -> p = t.
Proof.
  unfold Vector3.distanceTo, Math_sqrt. intros H.
  apply sqrt_eq_0 in H.
  - destruct p as [px py pz], t as [tx ty tz]. cbn [Vector3.x Vector3.y Vector3.z] in H.
    pose proof (pow2_ge_0 (px - tx)). pose proof (pow2_ge_0 (py - ty)).
    pose proof (pow2_ge_0 (pz - tz)).
    assert (px - tx = 0) by (apply square_zero; lra).
    assert (py - ty = 0) by (apply square_zero; lra).
    assert (pz - tz = 0) by (apply square_zero; lra).
    f_equal; lra.
  - pose proof (pow2_ge_0 (Vector3.x p - Vector3.x t)).
    pose proof (pow2_ge_0 (Vector3.y p - Vector3.y t)).
    pose proof (pow2_ge_0 (Vector3.z p - Vector3.z t)). lra.
Qed.

Lemma distanceTo_integrate_n n p t :
  Vector3.distanceTo (integrate_n n p t) t = 0.94 ^ n * Vector3.distanceTo p t.
Proof.
  induction n as [|n IH]; cbn [integrate_n pow].
  - lra.
  - rewrite distanceTo_integrate3, IH. ring.
Qed.

Lemma contraction_75 : 0.94 ^ 75 <= 0.01.
Proof. lra. Qed.

Lemma contraction_74 : 0.01 < 0.94 ^ 74.
Proof. lra. Qed.

Lemma steps_to_one_percent : Math_ceil (Math_log 0.01 / Math_log (1 - 0.06)) = 75.
Proof.
  unfold Math_ceil, Math_log. f_equal. apply Zceil_eq.
  replace (1 - 0.06) with 0.94 by lra.
  assert (Hneg : ln 0.94 < 0).
  { rewrite <- ln_1. apply ln_increasing; lra. }
  assert (H75 : INR 75 * ln 0.94 <= ln 0.01).
  { rewrite <- ln_pow by lra.
    destruct contraction_75 as [Hlt | Heq].
    - left. apply ln_increasing; [apply pow_lt; lra | exact Hlt].
    - right. now rewrite Heq. }
  assert (H74 : ln 0.01 < INR 74 * ln 0.94).
  { rewrite <- ln_pow by lra. apply ln_increasing; [lra | exact contraction_74]. }
  assert (E75 : INR 75 = 75) by (rewrite INR_IZR_INZ; reflexivity).
  assert (E74 : INR 74 = 74) by (rewrite INR_IZR_INZ; reflexivity).
  rewrite E75 in H75. rewrite E74 in H74.
  split.
  - apply Rmult_lt_reg_r with (r := - ln 0.94); [lra |].
    replace (ln 0.01 / ln 0.94 * - ln 0.94) with (- ln 0.01) by (field; lra). lra.
  - apply Rmult_le_reg_r with (r := - ln 0.94); [lra |].
    replace (ln 0.01 / ln 0.94 * - ln 0.94) with (- ln 0.01) by (field; lra). lra.
Qed.

(** In the arithmetic of the reals, without the rounding of the cell:
    each step [p += (t - p) * 0.06] strictly shortens the Euclidean
    distance to the target unless the position is already the target; the
    number of steps [ceil(log(0.01) / log(1 - 0.06))] is 75, and after 75
    steps the distance left is at most 1% of the distance at the start. *)
Lemma integrator_converges p t (n : nat) :
  (integrate_n n p t <> t ->
   Vector3.distanceTo (integrate_n (S n) p t) t < Vector3.distanceTo (integrate_n n p t) t)
  /\ Math_ceil (Math_log 0.01 / Math_log (1 - 0.06)) = 75
  /\ Vector3.distanceTo (integrate_n 75 p t) t <= 0.01 * Vector3.distanceTo p t.
Proof.
  split; [| split].
  - intros Hne. cbn [integrate_n]. rewrite distanceTo_integrate3.
    pose proof (distanceTo_nonneg (integrate_n n p t) t) as [Hpos | Hz].
    + lra.
    + exfalso. apply Hne. apply distanceTo_zero. congruence.
  - exact steps_to_one_percent.
  - rewrite distanceTo_integrate_n.
    pose proof contraction_75. pose proof (distanceTo_nonneg p t). nra.
Qed.

(** *** The step on a cell of the position buffer *)

Lemma integrate_stored_near (p t : R) :
  -200 <= p <= 200 -> -200 <= t <= 200 ->
  -200 <= integrate_stored p t <= 200
  /\ Rabs (integrate_stored p t - integrate p t) <= 0.00001.
Proof.
  intros Hp Ht. unfold integrate_stored. apply fround_200. unfold integrate. lra.
Qed.

Lemma integrate3_stored_within p t :
  within 200 p -> within 200 t -> within 200 (integrate3_stored p t).
Proof.
  intros (Hx & Hy & Hz) (Tx & Ty & Tz). unfold within, integrate3_stored.
  cbn [Vector3.x Vector3.y Vector3.z].
  repeat split; apply integrate_stored_near; assumption.
Qed.

Lemma integrate3_stored_near p t :
  within 200 p -> within 200 t ->
  Vector3.distanceTo (integrate3_stored p t) (integrate3 p t) <= 0.00002.
Proof.
  intros (Hx & Hy & Hz) (Tx & Ty & Tz).
  unfold Vector3.distanceTo, Math_sqrt, integrate3_stored, integrate3.
  cbn [Vector3.x Vector3.y Vector3.z].
  replace 0.00002 with (2 * 0.00001) by lra.
  apply norm_small; apply integrate_stored_near; assumption.
Qed.

Lemma integrate3_stored_contracts p t :
  within 200 p -> within 200 t ->
  Vector3.distanceTo (integrate3_stored p t) t <= 0.94 * Vector3.distanceTo p t + 0.00002.
Proof.
  intros Hp Ht.
  pose proof (distanceTo_triangle (integrate3_stored p t) (integrate3 p t) t) as Htri.
  pose proof (integrate3_stored_near p t Hp Ht) as Hnear.
  rewrite distanceTo_integrate3 in Htri. lra.
Qed.

Lemma integrate_stored_n_within n p t :
  within 200 p -> within 200 t -> within 200 (integrate_stored_n n p t).
Proof.
  intros Hp Ht. induction n as [|n IH]; cbn [integrate_stored_n]; [exact Hp |].
  apply integrate3_stored_within; assumption.
Qed.

Lemma integrate_stored_n_bound n p t :
  within 200 p -> within 200 t ->
  Vector3.distanceTo (integrate_stored_n n p t) t
  <= 0.94 ^ n * Vector3.distanceTo p t + 0.0004 * (1 - 0.94 ^ n).
Proof.
  intros Hp Ht. induction n as [|n IH]; cbn [integrate_stored_n pow]; [lra |].
  pose proof (integrate3_stored_contracts (integrate_stored_n n p t) t
                (integrate_stored_n_within n p t Hp Ht) Ht) as Hstep.
  assert (0 <= 0.94 ^ n) by (apply pow_le; lra).
  nra.
Qed.

Lemma integrate_stored_n_fixed n p t :
  integrate3_stored p t = p -> integrate_stored_n n p t = p.
Proof.
  intros Hfix. induction n as [|n IH]; cbn [integrate_stored_n]; [reflexivity |].
  now rewrite IH.
Qed.

(** The position 100 is kept by a step towards 100.00001: the number
    assigned, 100.0000006, is nearer to 100 than to the next number of
    single precision, 100.0000076. *)
Lemma stalled_cell : integrate_stored 100 100.00001 = 100.
Proof.
  unfold integrate_stored, integrate.
  rewrite (fround_eq _ 6 13107200).
  - simpl. lra.
  - rewrite Rabs_pos_eq by lra. simpl. lra.
  - lia.
  - simpl. lra.
Qed.

Lemma resting_cell : integrate_stored 0 0 = 0.
Proof.
  unfold integrate_stored, integrate.
  replace (0 + (0 - 0) * 0.06) with 0 by lra. apply fround_0.
Qed.

(** C1. With the position kept in the [Float32Array] of the program, and
    position and target in the cube of the scene (each coordinate from
    -200 to 200): a step [p += (t - p) * 0.06] brings the Euclidean
    distance [d] to the target to 0.94 [d] + 0.00002 at most, so the
    distance strictly decreases while it exceeds 0.0004; the number of
    steps [ceil(log(0.01) / log(1 - 0.06))] is 75, and after 75 steps the
    distance left is at most 1% of the distance at the start plus
    0.0004. *)
Theorem stored_integrator_converges p t (n : nat) :
  within 200 p -> within 200 t ->
  let d (k : nat) := Vector3.distanceTo (integrate_stored_n k p t) t in
  d (S n) <= 0.94 * d n + 0.00002
  /\ (0.0004 < d n -> d (S n) < d n)
  /\ Math_ceil (Math_log 0.01 / Math_log (1 - 0.06)) = 75
  /\ d 75%nat <= 0.01 * d 0%nat + 0.0004.
Proof.
  intros Hp Ht d. subst d. cbn beta.
  pose proof (integrate3_stored_contracts (integrate_stored_n n p t) t
                (integrate_stored_n_within n p t Hp Ht) Ht) as Hstep.
  split; [exact Hstep |]. split; [cbn [integrate_stored_n]; intros Hd; lra |].
  split; [exact steps_to_one_percent |].
  pose proof (integrate_stored_n_bound 75 p t Hp Ht) as H75.
  change (integrate_stored_n 0 p t) with p.
  pose proof contraction_75. pose proof (distanceTo_nonneg p t).
  assert (0 <= 0.94 ^ 75) by (apply pow_le; lra).
  nra.
Qed.

Lemma stored_integrator_converges_witness :
  within 200 (Vector3.mk 0 0 0) /\ within 200 (Vector3.mk 1 0 0)
  /\ Vector3.distanceTo (integrate_stored_n 75 (Vector3.mk 0 0 0) (Vector3.mk 1 0 0))
                        (Vector3.mk 1 0 0)
     <= 0.01 * Vector3.distanceTo (integrate_stored_n 0 (Vector3.mk 0 0 0) (Vector3.mk 1 0 0))
                                  (Vector3.mk 1 0 0)
        + 0.0004.
Proof.
  assert (Hp : within 200 (Vector3.mk 0 0 0)) by (unfold within; cbn; lra).
  assert (Ht : within 200 (Vector3.mk 1 0 0)) by (unfold within; cbn; lra).
  split; [exact Hp |]. split; [exact Ht |].
  exact (proj2 (proj2 (proj2 (stored_integrator_converges (Vector3.mk 0 0 0)
                                (Vector3.mk 1 0 0) 0 Hp Ht)))).
Defined.

(** The claim as the specification states it fails on the position
    buffer: starting at (100, 0, 0) with the target (100.00001, 0, 0), the
    position is not the target, a step leaves it where it is, so the
    distance does not decrease, and after 75 steps it is still the whole
    distance of the start. *)
Lemma stored_position_stalls :
  let p := Vector3.mk 100 0 0 in
  let t := Vector3.mk 100.00001 0 0 in
  p <> t
  /\ integrate3_stored p t = p
  /\ ~ Vector3.distanceTo (integrate_stored_n 1 p t) t
        < Vector3.distanceTo (integrate_stored_n 0 p t) t
  /\ ~ Vector3.distanceTo (integrate_stored_n 75 p t) t <= 0.01 * Vector3.distanceTo p t.
Proof.
  intros p t.
  assert (Hfix : integrate3_stored p t = p).
  { unfold integrate3_stored, p, t. cbn [Vector3.x Vector3.y Vector3.z].
    now rewrite stalled_cell, resting_cell. }
  assert (Hd : Vector3.distanceTo p t = 0.00001).
  { unfold Vector3.distanceTo, Math_sqrt, p, t. cbn [Vector3.x Vector3.y Vector3.z].
    replace ((100 - 100.00001) ^ 2 + (0 - 0) ^ 2 + (0 - 0) ^ 2) with (0.00001 ^ 2) by lra.
    apply sqrt_pow2. lra. }
  split; [| split; [exact Hfix | split]].
  - unfold p, t. intros E. injection E as E. lra.
  - rewrite (integrate_stored_n_fixed 1 p t Hfix). cbn [integrate_stored_n]. lra.
  - rewrite (integrate_stored_n_fixed 75 p t Hfix), Hd. lra.
Qed.

End Integrator.

(** ** The field evaluator *)

(** C5. Whatever the stored parameters of a particle (so in particular
    for a tier in [0, 30) and a branch fraction in [0, 1)), whatever its
    jitters and whatever the elapsed time, the height of its TREE-mode
    target is at least the floor limit -51.8. *)
Theorem tree_target_above_floor_limit (i : nat) (time : R)
  (distAlongBranch tierIndex branchAngle : R) (isBranch : bool) (jx jy jz : R) :
  -51.8 <= Vector3.y (treeTarget i time distAlongBranch tierIndex branchAngle isBranch jx jy jz).
Proof.
  unfold treeTarget. cbn [Vector3.y]. unfold Math_max. apply Rmax_r.
Qed.

Lemma target_TREE_above_floor_limit (a : HolidayApp) (i : nat) (time : R) :
  mode (state a) = TREE -> -51.8 <= Vector3.y (target a i time).
Proof.
  intros Hmode. unfold target. rewrite Hmode. unfold treeTarget. cbn [Vector3.y].
  unfold Math_max. apply Rmax_r.
Qed.

(** ** Pointer handling *)

Section Pointer.

Implicit Types (e : PointerEvent) (s : AppState).

Lemma nextMode_toggled (m : Mode) : nextMode m = Some (toggled m).
Proof. destruct m; reflexivity. Qed.

Lemma clickDistance_sqrt e s :
  clickDistance e s =
  sqrt ((clientX e - Point.x (clickStartPos s)) ^ 2
        + (clientY e - Point.y (clickStartPos s)) ^ 2).
Proof. unfold clickDistance, Math_sqrt. now rewrite !Math_pow_2. Qed.

Lemma onPointerUp_click e s :
  isPointerDown s = true -> clickDistance e s < 5 ->
  onPointerUp e s = set_mode (toggled (mode s)) (set_isPointerDown false s).
Proof.
  intros Hdown Hlt. unfold onPointerUp. rewrite Hdown. cbn [negb].
  change (clickDistance e (set_isPointerDown false s)) with (clickDistance e s).
  apply ltb_true in Hlt. rewrite Hlt.
  cbn [mode set_isPointerDown]. now rewrite nextMode_toggled.
Qed.

Lemma onPointerUp_drag e s :
  isPointerDown s = true -> 5 <= clickDistance e s ->
  onPointerUp e s = set_isPointerDown false s.
Proof.
  intros Hdown Hge. unfold onPointerUp. rewrite Hdown. cbn [negb].
  change (clickDistance e (set_isPointerDown false s)) with (clickDistance e s).
  apply ltb_false in Hge. now rewrite Hge.
Qed.

Lemma toggled_ne (m : Mode) : toggled m <> m.
Proof. destruct m; discriminate. Qed.

(** A pointer-down the handler does not ignore (its target is none of the
    three kinds of control) records the start position and arms the
    pointer. *)
Lemma onPointerDown_registered e s :
  tagName e <> "SELECT" -> tagName e <> "BUTTON" -> tagName e <> "OPTION" ->
  isPointerDown (onPointerDown e s) = true
  /\ clickStartPos (onPointerDown e s) = Point.mk (clientX e) (clientY e)
  /\ mode (onPointerDown e s) = mode s.
Proof.
  intros H1 H2 H3. unfold onPointerDown.
  apply String.eqb_neq in H1, H2, H3. rewrite H1, H2, H3. cbn. auto.
Qed.

(** A pointer-down on one of the three kinds of control is ignored. *)
Lemma onPointerDown_ignored e s :
  tagName e = "SELECT" \/ tagName e = "BUTTON" \/ tagName e = "OPTION" ->
  onPointerDown e s = s.
Proof.
  intros [H | [H | H]]; unfold onPointerDown; rewrite H; reflexivity.
Qed.

(** The pair of events on the canvas: a registered pointer-down at one
    position, then a pointer-up at another. *)
Lemma pointer_pair_click e_down e_up s :
  tagName e_down <> "SELECT" -> tagName e_down <> "BUTTON" -> tagName e_down <> "OPTION" ->
  let displacement :=
    sqrt ((clientX e_up - clientX e_down) ^ 2 + (clientY e_up - clientY e_down) ^ 2) in
  (displacement < 5 ->
   mode (onPointerUp e_up (onPointerDown e_down s)) = toggled (mode s))
  /\ (5 <= displacement ->
      mode (onPointerUp e_up (onPointerDown e_down s)) = mode s).
Proof.
  intros H1 H2 H3 displacement.
  destruct (onPointerDown_registered e_down s H1 H2 H3) as (Hdown & Hstart & Hmode).
  assert (Hd : clickDistance e_up (onPointerDown e_down s) = displacement).
  { rewrite clickDistance_sqrt, Hstart. reflexivity. }
  split; intros Hcmp.
  - rewrite onPointerUp_click by (rewrite ?Hd; assumption). cbn [mode set_mode].
    now rewrite Hmode.
  - rewrite onPointerUp_drag by (rewrite ?Hd; assumption). cbn [mode set_isPointerDown].
    exact Hmode.
Qed.

(** C7. With a pointer-down recorded ([isPointerDown] set, the down
    position in [clickStartPos]), a pointer-up toggles the mode exactly
    when the Euclidean displacement between the two positions is strictly
    below 5: at 5 or more the mode stays, at exactly 5 it stays, at 0 it
    toggles. *)
Theorem click_iff_displacement_below_5 e s :
  isPointerDown s = true ->
  let displacement :=
    sqrt ((clientX e - Point.x (clickStartPos s)) ^ 2
          + (clientY e - Point.y (clickStartPos s)) ^ 2) in
  (mode (onPointerUp e s) = toggled (mode s) <-> displacement < 5)
  /\ (5 <= displacement -> mode (onPointerUp e s) = mode s)
  /\ (displacement = 5 -> mode (onPointerUp e s) = mode s)
  /\ (displacement = 0 -> mode (onPointerUp e s) = toggled (mode s)).
Proof.
  intros Hdown displacement. subst displacement. rewrite <- clickDistance_sqrt.
  assert (Hclick : clickDistance e s < 5 -> mode (onPointerUp e s) = toggled (mode s)).
  { intros Hlt. now rewrite onPointerUp_click. }
  assert (Hdrag : 5 <= clickDistance e s -> mode (onPointerUp e s) = mode s).
  { intros Hge. now rewrite onPointerUp_drag. }
  repeat split.
  - intros Htog. destruct (Rlt_dec (clickDistance e s) 5) as [Hlt | Hge]; [exact Hlt |].
    exfalso. apply (toggled_ne (mode s)). rewrite <- Htog. apply Hdrag. lra.
  - exact Hclick.
  - exact Hdrag.
  - intros H5. apply Hdrag. lra.
  - intros H0. apply Hclick. lra.
Qed.

Lemma click_iff_displacement_below_5_witness :
  let e := {| clientX := 3; clientY := 4; tagName := "CANVAS" |} in
  let s := set_isPointerDown true initialState in
  isPointerDown s = true /\ mode (onPointerUp e s) = mode s.
Proof.
  intros e s. split; [reflexivity |].
  apply (click_iff_displacement_below_5 e s eq_refl).
  cbn. replace ((3 - 0) * ((3 - 0) * 1) + (4 - 0) * ((4 - 0) * 1)) with (5 ^ 2) by lra.
  apply sqrt_pow2. lra.
Defined.

(** C10. With no pointer-down recorded ([isPointerDown] false), a
    pointer-up leaves the whole interaction state as it was (mode, manual
    rotations and every other field), and so does a pointer-move. *)
Theorem pointer_events_without_down_are_noops e s :
  isPointerDown s = false -> onPointerUp e s = s /\ onPointerMove e s = s.
Proof.
  intros Hup. unfold onPointerUp, onPointerMove. rewrite Hup. cbn [negb]. auto.
Qed.

Lemma pointer_events_without_down_are_noops_witness :
  let e := {| clientX := 120; clientY := 45; tagName := "CANVAS" |} in
  isPointerDown initialState = false
  /\ onPointerUp e initialState = initialState
  /\ onPointerMove e initialState = initialState.
Proof.
  intros e. split; [reflexivity |].
  apply (pointer_events_without_down_are_noops e initialState). reflexivity.
Defined.

End Pointer.

(** ** Meteors *)

Section Meteors.

Context {T : THREE}.

Lemma unit_draws_next (g : RNG) : unit_draws g -> unit_draws (next g).
Proof. intros H k. apply H. Qed.

Lemma reset_returns (m : Meteor.t) (g : RNG) :
  completion (Meteor.reset m g) = Normal tt
  /\ Meteor.position (receiver (Meteor.reset m g)) =
     Vector3.mk (spawnX (draws g (cursor g)) (draws g (S (cursor g))))
                (spawnY (draws g (S (S (cursor g)))))
                (spawnZ (draws g (cursor g))).
Proof. split; reflexivity. Qed.

Lemma spawnZ_range (u : R) : 0 <= u < 1 -> -3000 <= spawnZ u < -300.
Proof.
  intros Hu. unfold spawnZ. rewrite Math_pow_2.
  assert (0 <= u ^ 2 < 1) by nra. lra.
Qed.

Lemma spawnX_negative (u0 u1 : R) : 0 <= u0 < 1 -> 0 <= u1 < 1 -> spawnX u0 u1 < -240.
Proof.
  intros H0 H1. unfold spawnX, Math_abs.
  pose proof (spawnZ_range u0 H0) as Hz.
  rewrite Rabs_left by lra. nra.
Qed.

Lemma spawnY_range (u : R) : 0 <= u < 1 -> 800 <= spawnY u < 1600.
Proof. intros Hu. unfold spawnY. lra. Qed.

Lemma update_out_of_bounds (m : Meteor.t) (g : RNG) :
  let moved := Vector3.add (Meteor.position m) (Meteor.velocity m) in
  Vector3.y moved < -1200 \/ 3500 < Vector3.x moved ->
  Meteor.update m g = Meteor.reset (Meteor.set_position moved m) g.
Proof.
  intros moved Hout. unfold Meteor.update, bind, assign, this.
  cbn [Meteor.position Meteor.set_position]. fold moved.
  destruct Hout as [Hy | Hx].
  - apply ltb_true in Hy. rewrite Hy. reflexivity.
  - unfold gtb. apply ltb_true in Hx. rewrite Hx. rewrite orb_true_r. reflexivity.
Qed.

Lemma update_in_bounds (m : Meteor.t) (g : RNG) :
  let moved := Vector3.add (Meteor.position m) (Meteor.velocity m) in
  -1200 <= Vector3.y moved -> Vector3.x moved <= 3500 ->
  Meteor.update m g = (Normal tt, Meteor.set_position moved m, g).
Proof.
  intros moved Hy Hx. unfold Meteor.update, bind, assign, this.
  cbn [Meteor.position Meteor.set_position]. fold moved.
  apply ltb_false in Hy. unfold gtb. apply ltb_false in Hx. rewrite Hy, Hx. reflexivity.
Qed.

(** C8. A body that the translation of a frame takes below the height
    -1200 or beyond the horizontal coordinate 3500 leaves that frame in the
    state [reset] gives it: whatever the draws (each in [0, 1)), its height
    is at least 800 and its horizontal coordinate is negative. *)
Theorem meteor_recycled (m : Meteor.t) (g : RNG) :
  unit_draws g ->
  let moved := Vector3.add (Meteor.position m) (Meteor.velocity m) in
  Vector3.y moved < -1200 \/ 3500 < Vector3.x moved ->
  let after := Meteor.update m g in
  completion after = Normal tt
  /\ receiver after = receiver (Meteor.reset (Meteor.set_position moved m) g)
  /\ 800 <= Vector3.y (Meteor.position (receiver after))
  /\ Vector3.x (Meteor.position (receiver after)) < 0.
Proof.
  intros Hg moved Hout after. subst after.
  rewrite (update_out_of_bounds m g Hout). fold moved.
  destruct (reset_returns (Meteor.set_position moved m) g) as [Hc Hp].
  split; [exact Hc |]. split; [reflexivity |].
  rewrite Hp. cbn [Vector3.x Vector3.y].
  pose proof (spawnY_range _ (Hg (S (S (cursor g))))).
  pose proof (spawnX_negative _ _ (Hg (cursor g)) (Hg (S (cursor g)))).
  lra.
Qed.

End Meteors.

Lemma constant_source_unit (v : R) : 0 <= v < 1 -> unit_draws (constant_source v).
Proof. intros Hv k. exact Hv. Qed.

Lemma meteor_recycled_witness :
  let m := Meteor.mk (Vector3.mk 0 (-1199) (-500)) (mkQuaternion 0 0 0 1)
                     (Vector3.mk 1 1 1) (Vector3.mk 1 (-2) 0) in
  let g := constant_source (1 / 2) in
  unit_draws g
  /\ 800 <= Vector3.y (Meteor.position (receiver (Meteor.update (H := Three.js) m g))).
Proof.
  intros m g.
  assert (Hg : unit_draws g) by (apply constant_source_unit; lra).
  split; [exact Hg |].
  apply (meteor_recycled (T := Three.js) m g Hg).
  left. cbn. lra.
Defined.

(** ** Loops *)

Section Loops.

Context {St : Type}.

(** A loop whose turns all return establishes its invariant. *)
Lemma for_range_invariant (Inv : nat -> St -> RNG -> Prop) (body : nat -> JS St unit)
  (count start : nat) (s : St) (g : RNG) :
  Inv start s g ->
  (forall j s g, (start <= j < start + count)%nat -> Inv j s g ->
     exists s' g', body j s g = (Normal tt, s', g') /\ Inv (S j) s' g') ->
  exists s' g',
    for_range start count body s g = (Normal tt, s', g')
    /\ Inv (start + count)%nat s' g'.
Proof.
  revert start s g. induction count as [|c IH]; intros start s g H0 Hbody.
  - exists s, g. rewrite Nat.add_0_r. split; [reflexivity | exact H0].
  - destruct (Hbody start s g) as (s1 & g1 & E1 & H1); [lia | exact H0 |].
    destruct (IH (S start) s1 g1 H1) as (s2 & g2 & E2 & H2).
    { intros j s' g' Hj. apply Hbody. lia. }
    exists s2, g2. split.
    + cbn [for_range]. unfold bind. rewrite E1. exact E2.
    + replace (start + S c)%nat with (S start + c)%nat by lia. exact H2.
Qed.

(** What every turn keeps, the loop keeps, thrown or not. *)
Lemma for_range_preserves (P : St -> Prop) (body : nat -> JS St unit)
  (count start : nat) (s : St) (g : RNG) :
  P s ->
  (forall j s g, P s -> P (receiver (body j s g))) ->
  P (receiver (for_range start count body s g)).
Proof.
  revert start s g. induction count as [|c IH]; intros start s g H0 Hbody.
  - exact H0.
  - cbn [for_range]. unfold bind.
    pose proof (Hbody start s g H0) as H1.
    destruct (body start s g) as [[[[] | e] s1] g1]; cbn in H1.
    + apply IH; assumption.
    + exact H1.
Qed.

(** A loop whose first turn throws stops there. *)
Lemma for_range_throws_at_once (body : nat -> JS St unit) (count start : nat)
  (s s' : St) (g g' : RNG) (e : JSError) :
  (0 < count)%nat -> body start s g = (Throw e, s', g') ->
  for_range start count body s g = (Throw e, s', g').
Proof.
  intros Hpos E. destruct count as [|c]; [lia |].
  cbn [for_range]. unfold bind. now rewrite E.
Qed.

End Loops.

Lemma treeParticleCount_pos : (0 < CONFIG.treeParticleCount)%nat.
Proof. unfold CONFIG.treeParticleCount. lia. Qed.

(** ** The colour rule *)

Section Colours.

Context {T : THREE}.

(** The colour rule never touches its receiver. *)
Lemma particleColor_receiver {St} (theme : ThemeValue) (isBranch : bool) (r : R)
  (s : St) (g : RNG) :
  receiver (particleColor theme isBranch r s g) = s.
Proof.
  unfold particleColor.
  destruct isBranch; [| destruct (ltb r 0.85)];
    destruct theme as [t | |]; reflexivity.
Qed.

(** With a palette of the table it returns, and draws from the same stream. *)
Lemma particleColor_Own {St} (t : Theme) (isBranch : bool) (r : R) (s : St) (g : RNG) :
  exists c g', particleColor (Own t) isBranch r s g = (Normal c, s, g')
               /\ draws g' = draws g.
Proof.
  unfold particleColor.
  destruct isBranch; [| destruct (ltb r 0.85)]; eexists; eexists; split; reflexivity.
Qed.

(** With [undefined] for a palette it throws before drawing. *)
Lemma particleColor_Undefined {St} (isBranch : bool) (r : R) (s : St) (g : RNG) :
  particleColor Undefined isBranch r s g = (Throw TypeError, s, g).
Proof.
  unfold particleColor. destruct isBranch; [| destruct (ltb r 0.85)]; reflexivity.
Qed.

Lemma same_but_colors_refl (a : HolidayApp) : same_but_colors a a.
Proof. unfold same_but_colors. tauto. Qed.

Lemma same_but_colors_set_colors (a a' : HolidayApp) (c : list R) :
  same_but_colors a a' -> same_but_colors a (set_colors c a').
Proof. unfold same_but_colors. cbn. tauto. Qed.

Lemma same_but_colors_set_flag (a a' : HolidayApp) (f : bool) :
  same_but_colors a a' -> same_but_colors a (set_color_needsUpdate f a').
Proof. unfold same_but_colors. cbn. tauto. Qed.

Lemma updateTreeColor_frame (theme : ThemeValue) (a0 : HolidayApp) (i : nat)
  (a : HolidayApp) (g : RNG) :
  same_but_colors a0 a -> same_but_colors a0 (receiver (updateTreeColor theme i a g)).
Proof.
  intros Ha. unfold updateTreeColor, bind, this, Math_random.
  pose proof (particleColor_receiver theme
                (strict_eqb (read (treeBranchParams a) (i * 4 + 3)) 1)
                (draws g (cursor g)) a (next g)) as Hrec.
  destruct (particleColor theme _ _ a (next g)) as [[[c | e] a1] g1];
    cbn in Hrec; subst a1; cbn.
  - now apply same_but_colors_set_colors.
  - exact Ha.
Qed.

Lemma updateTreeColors_frame (a : HolidayApp) (g : RNG) :
  same_but_colors a (receiver (updateTreeColors a g)).
Proof.
  unfold updateTreeColors, bind, this.
  pose proof (for_range_preserves (same_but_colors a)
                (updateTreeColor (THEMES_get (theme (state a))))
                CONFIG.treeParticleCount 0 a g (same_but_colors_refl a)
                (fun j s g' => updateTreeColor_frame _ a j s g')) as Hloop.
  destruct (for_range 0 CONFIG.treeParticleCount _ a g) as [[[[] | e] a1] g1];
    cbn in Hloop; cbn.
  - now apply same_but_colors_set_flag.
  - exact Hloop.
Qed.

(** C4. Whatever the random draws and whatever the active theme,
    [updateTreeColors] leaves the parameter array (branch fraction, tier,
    branch angle and branch flag of every particle) and the jitter array
    exactly as they were, and with them every field of the application
    other than the colour attribute. *)
Theorem updateTreeColors_writes_colors_only (a : HolidayApp) (g : RNG) :
  let a' := receiver (updateTreeColors a g) in
  treeBranchParams a' = treeBranchParams a
  /\ treeJitters a' = treeJitters a
  /\ same_but_colors a a'.
Proof.
  intros a'. pose proof (updateTreeColors_frame a g) as H. fold a' in H.
  split; [| split]; [apply H | apply H | exact H].
Qed.

End Colours.

(** ** Theme changes *)

Section Themes.

Context {T : THREE}.

Lemma updateTreeColor_Undefined (i : nat) (a : HolidayApp) (g : RNG) :
  updateTreeColor Undefined i a g = (Throw TypeError, a, next g).
Proof.
  unfold updateTreeColor, bind, this, Math_random.
  now rewrite particleColor_Undefined.
Qed.

Lemma updateTreeColor_Own (t : Theme) (i : nat) (a : HolidayApp) (g : RNG) :
  exists a' g', updateTreeColor (Own t) i a g = (Normal tt, a', g').
Proof.
  unfold updateTreeColor, bind, this, Math_random.
  match goal with
  | |- context [particleColor (Own t) ?b ?r ?s ?g0] =>
      destruct (particleColor_Own t b r s g0) as (c & g' & E & _); rewrite E
  end.
  eexists; eexists; reflexivity.
Qed.

(** With a palette of the table as the active theme, recolouring returns. *)
Lemma updateTreeColors_returns (t : Theme) (a : HolidayApp) (g : RNG) :
  THEMES !! theme (state a) = Some t ->
  completion (updateTreeColors a g) = Normal tt.
Proof.
  intros Ht. unfold updateTreeColors, bind, this, THEMES_get. rewrite Ht.
  destruct (for_range_invariant (fun _ _ _ => True) (updateTreeColor (Own t))
              CONFIG.treeParticleCount 0 a g I) as (a' & g' & E & _).
  { intros j s g0 _ _. destruct (updateTreeColor_Own t j s g0) as (s' & g1 & E).
    exists s', g1. split; [exact E | exact I]. }
  rewrite E. reflexivity.
Qed.

Lemma updateTreeColors_Undefined (a : HolidayApp) (g : RNG) :
  THEMES_get (theme (state a)) = Undefined ->
  updateTreeColors a g = (Throw TypeError, a, next g).
Proof.
  intros Hundef. unfold updateTreeColors, bind, this. rewrite Hundef.
  rewrite (for_range_throws_at_once _ _ 0 a a g (next g) TypeError
             treeParticleCount_pos (updateTreeColor_Undefined 0 a g)).
  reflexivity.
Qed.

Lemma onThemeChange_Undefined (value : string) (a : HolidayApp) (g : RNG) :
  THEMES_get value = Undefined ->
  onThemeChange value a g
  = (Throw TypeError, set_state (set_theme value (state a)) a, next g).
Proof.
  intros Hundef. unfold onThemeChange, bind, assign.
  now rewrite updateTreeColors_Undefined.
Qed.

(** C9, as the code has it. A theme name for which [THEMES] has no value
    ([THEMES[name]] is [undefined]) is not rejected at the boundary: the
    handler stores it as the active theme and keeps it. The recolouring
    then fails fast: it throws a TypeError at the first particle, after one
    random draw and before any colour is written, so that no other palette
    is substituted and nothing but the active theme has changed. *)
Theorem invalid_theme_stored_then_recolor_throws (value : string) (a : HolidayApp)
  (g : RNG) :
  THEMES_get value = Undefined ->
  let after := onThemeChange value a g in
  after = (Throw TypeError, set_state (set_theme value (state a)) a, next g)
  /\ completion after = Throw TypeError
  /\ theme (state (receiver after)) = value
  /\ colors (receiver after) = colors a
  /\ color_needsUpdate (receiver after) = color_needsUpdate a
  /\ same_but_colors (set_state (set_theme value (state a)) a) (receiver after).
Proof.
  intros Hundef after.
  assert (E : after = (Throw TypeError, set_state (set_theme value (state a)) a, next g))
    by (apply onThemeChange_Undefined; exact Hundef).
  rewrite E. cbn. repeat split; reflexivity.
Qed.

Lemma read_replicate_0 (n i : nat) : read (replicate n 0) i = 0.
Proof.
  unfold read. destruct (replicate n 0 !! i) as [v |] eqn:E; [| reflexivity].
  apply lookup_replicate in E. destruct E as [-> _]. reflexivity.
Qed.

(** A name inherited from [Object.prototype] is outside the table too,
    but [THEMES[name]] is then no [undefined]: as long as no particle asks
    for the ornaments (here none is a branch and every draw is below 0.85)
    the recolouring returns, with the colours of [setHex(undefined)]. *)
Lemma inherited_name_recolors (value : string) (n : nat) (a : HolidayApp) (g : RNG) :
  THEMES_get value = Inherited ->
  (forall k, draws g k < 0.85) ->
  treeBranchParams a = replicate (n * 4) 0 ->
  completion (onThemeChange value a g) = Normal tt.
Proof.
  intros Hinh Hg Hparams. unfold onThemeChange, updateTreeColors, bind, assign, this.
  cbn [state set_state theme set_theme]. rewrite Hinh.
  destruct (for_range_invariant
              (fun _ a' g' => draws g' = draws g
                              /\ treeBranchParams a' = replicate (n * 4) 0)
              (updateTreeColor Inherited) CONFIG.treeParticleCount 0
              (set_state (set_theme value (state a)) a) g)
    as (a' & g' & E & _).
  - split; [reflexivity | exact Hparams].
  - intros j s g0 _ (Hd & Hp).
    unfold updateTreeColor, bind, this, Math_random, particleColor.
    rewrite Hp, read_replicate_0.
    assert (Hne : strict_eqb 0 1 = false).
    { unfold strict_eqb. destruct (Req_dec_T 0 1); [lra | reflexivity]. }
    rewrite Hne.
    assert (Hlt : ltb (draws g0 (cursor g0)) 0.85 = true).
    { apply ltb_true. rewrite Hd. apply Hg. }
    rewrite Hlt. cbn. eexists; eexists. split; [reflexivity |].
    split; [exact Hd | exact Hp].
  - rewrite E. reflexivity.
Qed.

End Themes.

Lemma neon_is_no_theme : THEMES !! "neon" = None /\ THEMES_get "neon" = Undefined.
Proof. split; vm_compute; reflexivity. Qed.

Lemma invalid_theme_stored_then_recolor_throws_witness :
  THEMES_get "neon" = Undefined
  /\ theme (state (receiver (onThemeChange (H := Three.js) "neon" allocated
                                           (constant_source (1 / 2))))) = "neon".
Proof.
  split; [apply neon_is_no_theme |].
  apply (invalid_theme_stored_then_recolor_throws (T := Three.js) "neon" allocated
           (constant_source (1 / 2)) (proj2 neon_is_no_theme)).
Defined.

(** The name "constructor" is outside the table as well, and with it the
    recolouring of the allocated application returns when every draw is
    1/2. *)
Example constructor_recolors :
  THEMES !! "constructor" = None
  /\ completion (onThemeChange (H := Three.js) "constructor" allocated
                                (constant_source (1 / 2))) = Normal tt.
Proof.
  split; [vm_compute; reflexivity |].
  apply (inherited_name_recolors (T := Three.js) "constructor" CONFIG.treeParticleCount).
  - vm_compute. reflexivity.
  - intros k. cbn. lra.
  - reflexivity.
Qed.

(** C9, as the specification words it, fails: the name "neon" is outside
    the table, yet after the handler it is the active theme. *)
Lemma invalid_theme_not_rejected :
  THEMES !! "neon" = None
  /\ ~ rejected_at_boundary (H := Three.js) "neon" allocated (constant_source (1 / 2)).
Proof.
  split; [apply neon_is_no_theme |].
  intros (_ & Htheme & _).
  rewrite (onThemeChange_Undefined (T := Three.js) "neon" allocated
             (constant_source (1 / 2)) (proj2 neon_is_no_theme)) in Htheme.
  discriminate Htheme.
Qed.

(** ** Generation of the tree field *)

Section Generation.

Context {T : THREE}.

Lemma Math_pow_unit (u : R) : 0 <= u < 1 -> 0 <= Math_pow u 0.35 < 1.
Proof.
  intros Hu. unfold Math_pow.
  destruct (Req_dec_T 0.35 2) as [E | _]; [lra |].
  destruct (Rlt_dec 0 u) as [Hpos | _]; [| lra].
  unfold Rpower. split.
  - left. apply exp_pos.
  - rewrite <- exp_0. apply exp_increasing.
    assert (ln u < 0) by (rewrite <- ln_1; apply ln_increasing; lra).
    nra.
Qed.

Lemma tierOf_range (u : R) :
  0 <= u < 1 -> exists k : Z, tierOf u = IZR k /\ (0 <= k < 30)%Z.
Proof.
  intros Hu. unfold tierOf, Math_floor, CONFIG.tiers.
  exists (Zfloor (Math_pow u 0.35 * 30)). split; [reflexivity |].
  pose proof (Math_pow_unit u Hu) as Hp.
  pose proof (Zfloor_bound (Math_pow u 0.35 * 30)) as [Hlo Hhi].
  split.
  - apply Zfloor_lub. simpl. nra.
  - apply lt_IZR. lra.
Qed.

Lemma branchAngleOf_turn (tier u : R) : 0 <= tier -> branchAngleOf tier u = u * (2 * PI).
Proof. intros Ht. unfold branchAngleOf, Math_PI. field. lra. Qed.

Lemma branchAngleOf_range (tier u : R) :
  0 <= tier -> 0 <= u < 1 -> 0 <= branchAngleOf tier u < 2 * PI.
Proof.
  intros Ht Hu. rewrite branchAngleOf_turn by exact Ht.
  pose proof PI_RGT_0. nra.
Qed.

Lemma write4_length (b : nat) (v0 v1 v2 v3 : R) (a : list R) :
  length (write4 b v0 v1 v2 v3 a) = length a.
Proof. unfold write4. now rewrite !length_insert. Qed.

Lemma write4_lookup (b : nat) (v0 v1 v2 v3 : R) (a : list R) :
  (b + 3 < length a)%nat ->
  write4 b v0 v1 v2 v3 a !! b = Some v0
  /\ write4 b v0 v1 v2 v3 a !! (b + 1)%nat = Some v1
  /\ write4 b v0 v1 v2 v3 a !! (b + 2)%nat = Some v2
  /\ write4 b v0 v1 v2 v3 a !! (b + 3)%nat = Some v3.
Proof.
  intros Hb. unfold write4. repeat split.
  - rewrite !list_lookup_insert_ne by lia. apply list_lookup_insert_eq. lia.
  - rewrite !list_lookup_insert_ne by lia. apply list_lookup_insert_eq.
    rewrite length_insert. lia.
  - rewrite list_lookup_insert_ne by lia. apply list_lookup_insert_eq.
    rewrite !length_insert. lia.
  - apply list_lookup_insert_eq. rewrite !length_insert. lia.
Qed.

Lemma write4_lookup_other (b k : nat) (v0 v1 v2 v3 : R) (a : list R) :
  (k < b \/ b + 3 < k)%nat -> write4 b v0 v1 v2 v3 a !! k = a !! k.
Proof. intros Hk. unfold write4. now rewrite !list_lookup_insert_ne by lia. Qed.

(** One turn of the generation loop with a palette of the table: it
    returns, and the four parameters it stores come from the draws number
    3 to 6 after the cursor. *)
Lemma initTreeParticle_Own (t : Theme) (i : nat) (a : HolidayApp) (g : RNG) :
  exists a' g',
    initTreeParticle (Own t) i a g = (Normal tt, a', g')
    /\ draws g' = draws g
    /\ treeBranchParams a' =
       write4 (i * 4)
         (draws g (6 + cursor g)%nat)
         (tierOf (draws g (4 + cursor g)%nat))
         (branchAngleOf (tierOf (draws g (4 + cursor g)%nat)) (draws g (5 + cursor g)%nat))
         (if ltb (draws g (3 + cursor g)%nat) 0.3 then 1 else 0)
         (treeBranchParams a).
Proof.
  unfold initTreeParticle, bind, Math_random, assign.
  match goal with
  | |- context [particleColor (Own t) ?b ?r ?s ?g0] =>
      destruct (particleColor_Own t b r s g0) as (c & g' & E & Hd); rewrite E
  end.
  eexists; eexists. split; [reflexivity |].
  split; [exact Hd | reflexivity].
Qed.

Lemma descriptor_kept (b : nat) (v0 v1 v2 v3 : R) (a : list R) (i : nat) :
  (i * 4 + 3 < b)%nat ->
  descriptor_in_range a i -> descriptor_in_range (write4 b v0 v1 v2 v3 a) i.
Proof.
  intros Hi (bf & ang & k & H0 & H1 & H2 & Hr).
  exists bf, ang, k. rewrite !write4_lookup_other by lia. tauto.
Qed.

Lemma descriptor_written (i : nat) (a : list R) (u3 u4 u5 u6 : R) :
  (i * 4 + 3 < length a)%nat -> 0 <= u4 < 1 -> 0 <= u5 < 1 -> 0 <= u6 < 1 ->
  descriptor_in_range
    (write4 (i * 4) u6 (tierOf u4) (branchAngleOf (tierOf u4) u5)
            (if ltb u3 0.3 then 1 else 0) a) i.
Proof.
  intros Hlen H4 H5 H6.
  destruct (tierOf_range u4 H4) as (k & Ek & Hk).
  destruct (write4_lookup (i * 4) u6 (tierOf u4) (branchAngleOf (tierOf u4) u5)
              (if ltb u3 0.3 then 1 else 0) a Hlen) as (L0 & L1 & L2 & _).
  exists u6, (branchAngleOf (tierOf u4) u5), k.
  rewrite L0, L1, L2, Ek. repeat split; try tauto; try lia.
  - apply branchAngleOf_range; [apply IZR_le; lia | exact H5].
  - apply branchAngleOf_range; [apply IZR_le; lia | exact H5].
Qed.

Lemma initTreeParticles_prologue (a : HolidayApp) (g : RNG) :
  initTreeParticles a g =
  for_range 0 CONFIG.treeParticleCount
    (initTreeParticle (THEMES_get (theme (state a))))
    (set_treeBranchParams (replicate (CONFIG.treeParticleCount * 4) 0)
       (set_treeJitters (replicate (CONFIG.treeParticleCount * 3) 0)
          (set_colors (replicate (CONFIG.treeParticleCount * 3) 0)
             (set_positions (replicate (CONFIG.treeParticleCount * 3) 0) a))))
    g.
Proof. reflexivity. Qed.

(** The generation loop over [n] particles and buffers of [n * 4] cells. *)
Lemma generation_loop_in_range (t : Theme) (n : nat) (a : HolidayApp) (g : RNG) :
  unit_draws g ->
  length (treeBranchParams a) = (n * 4)%nat ->
  exists a' g',
    for_range 0 n (initTreeParticle (Own t)) a g = (Normal tt, a', g')
    /\ forall i : nat, (i < n)%nat -> descriptor_in_range (treeBranchParams a') i.
Proof.
  intros Hg Hlen0.
  destruct (for_range_invariant
              (fun j a' g' =>
                 draws g' = draws g
                 /\ length (treeBranchParams a') = (n * 4)%nat
                 /\ forall i : nat, (i < j)%nat -> descriptor_in_range (treeBranchParams a') i)
              (initTreeParticle (Own t)) n 0 a g) as (a' & g' & E & _ & _ & Hall).
  - split; [reflexivity |]. split; [exact Hlen0 |]. intros i Hi. lia.
  - intros j s g0 Hj (Hd & Hlen & Hprev).
    destruct (initTreeParticle_Own t j s g0) as (s' & g1 & E & Hd1 & Hp).
    exists s', g1. split; [exact E |]. split; [congruence |].
    rewrite Hp. split; [now rewrite write4_length |].
    intros i Hi. destruct (Nat.eq_dec i j) as [-> | Hne].
    + apply descriptor_written; rewrite ?Hd; try apply Hg. lia.
    + apply descriptor_kept; [lia | apply Hprev; lia].
  - exists a', g'. split; [exact E | exact Hall].
Qed.

(** The numbers generation assigns, before the cells round them: with
    every draw in [0, 1) and the active theme a palette of the table,
    generation returns and assigns every particle a branch fraction in
    [0, 1), a tier that is an integer in [0, 30) and a branch angle in
    [0, 2π). *)
Lemma generated_descriptors_in_range (t : Theme) (a : HolidayApp) (g : RNG) :
  unit_draws g ->
  THEMES !! theme (state a) = Some t ->
  exists a' g',
    initTreeParticles a g = (Normal tt, a', g')
    /\ forall i : nat, (i < CONFIG.treeParticleCount)%nat ->
         descriptor_in_range (treeBranchParams a') i.
Proof.
  intros Hg Ht. rewrite initTreeParticles_prologue. unfold THEMES_get. rewrite Ht.
  apply generation_loop_in_range; [exact Hg |].
  apply length_replicate.
Qed.

(** What the cells hold of numbers in the ranges of the specification. *)
Lemma descriptor_stored (params : list R) (i : nat) :
  descriptor_in_range params i -> descriptor_in_closed_range (stored params) i.
Proof.
  intros (bf & ang & k & H0 & H1 & H2 & Hbf & Hk & Hang).
  exists (Math_fround bf), (Math_fround ang), k.
  unfold stored. rewrite !list_lookup_fmap, H0, H1, H2. cbn [fmap option_fmap option_map].
  rewrite (fround_integer k) by lia.
  split; [reflexivity |]. split; [reflexivity |]. split; [reflexivity |].
  split; [apply fround_unit; exact Hbf |]. split; [lia |].
  pose proof PI_4 as Hpi.
  assert (Ha : Rabs ang < powerRZ 2 (2 + 1)) by (apply Rabs_def1; simpl; lra).
  split.
  - apply (fround_ge ang 0 2 0); [exact Ha | lia | lra | lra].
  - pose proof (fround_error ang 2 Ha ltac:(lia)) as He.
    apply Rabs_le_bounds in He. simpl in He. lra.
Qed.

(** C2. With every draw in [0, 1) (and the active theme a palette of the
    table, as the constructor sets it), tree-field generation returns and
    what the parameter array then holds for every particle index is: a
    branch fraction in [0, 1], a tier that is an integer in [0, 30] and a
    branch angle in [0, 2π + 0.000001]. *)
Theorem stored_descriptors_in_closed_range (t : Theme) (a : HolidayApp) (g : RNG) :
  unit_draws g ->
  THEMES !! theme (state a) = Some t ->
  exists a' g',
    initTreeParticles a g = (Normal tt, a', g')
    /\ forall i : nat, (i < CONFIG.treeParticleCount)%nat ->
         descriptor_in_closed_range (stored (treeBranchParams a')) i.
Proof.
  intros Hg Ht.
  destruct (generated_descriptors_in_range t a g Hg Ht) as (a' & g' & E & Hall).
  exists a', g'. split; [exact E |].
  intros i Hi. apply descriptor_stored, Hall, Hi.
Qed.

(** The branch fraction the loop assigns to particle 0 stays to the end of
    the loop. *)
Lemma first_fraction_stored (t : Theme) (n : nat) (a : HolidayApp) (g : RNG) :
  (0 < n)%nat ->
  length (treeBranchParams a) = (n * 4)%nat ->
  exists a' g',
    for_range 0 n (initTreeParticle (Own t)) a g = (Normal tt, a', g')
    /\ treeBranchParams a' !! 0%nat = Some (draws g (6 + cursor g)%nat).
Proof.
  intros Hn Hlen. destruct n as [|c]; [lia |].
  destruct (initTreeParticle_Own t 0 a g) as (a1 & g1 & E1 & _ & Hp).
  destruct (write4_lookup (0 * 4) (draws g (6 + cursor g)%nat)
              (tierOf (draws g (4 + cursor g)%nat))
              (branchAngleOf (tierOf (draws g (4 + cursor g)%nat))
                             (draws g (5 + cursor g)%nat))
              (if ltb (draws g (3 + cursor g)%nat) 0.3 then 1 else 0)
              (treeBranchParams a)) as (L0 & _); [lia |].
  rewrite <- Hp in L0.
  destruct (for_range_invariant
              (fun _ a' _ => treeBranchParams a' !! 0%nat = treeBranchParams a1 !! 0%nat)
              (initTreeParticle (Own t)) c 1 a1 g1) as (a' & g' & E & H0).
  - reflexivity.
  - intros j s g0 Hj K0.
    destruct (initTreeParticle_Own t j s g0) as (s' & g2 & E2 & _ & Hp2).
    exists s', g2. split; [exact E2 |].
    rewrite Hp2, write4_lookup_other by lia. exact K0.
  - exists a', g'. split.
    + cbn [for_range]. unfold bind. rewrite E1. exact E.
    + rewrite H0. exact L0.
Qed.

(** What the loop stores for particle 0 stays to the end of the loop. *)
Lemma first_particle_stored (t : Theme) (n : nat) (a : HolidayApp) (g : RNG) :
  (0 < n)%nat ->
  length (treeBranchParams a) = (n * 4)%nat ->
  exists a' g',
    for_range 0 n (initTreeParticle (Own t)) a g = (Normal tt, a', g')
    /\ treeBranchParams a' !! 1%nat = Some (tierOf (draws g (4 + cursor g)%nat))
    /\ treeBranchParams a' !! 2%nat =
       Some (branchAngleOf (tierOf (draws g (4 + cursor g)%nat))
                           (draws g (5 + cursor g)%nat)).
Proof.
  intros Hn Hlen. destruct n as [|c]; [lia |].
  destruct (initTreeParticle_Own t 0 a g) as (a1 & g1 & E1 & _ & Hp).
  destruct (write4_lookup (0 * 4) (draws g (6 + cursor g)%nat)
              (tierOf (draws g (4 + cursor g)%nat))
              (branchAngleOf (tierOf (draws g (4 + cursor g)%nat))
                             (draws g (5 + cursor g)%nat))
              (if ltb (draws g (3 + cursor g)%nat) 0.3 then 1 else 0)
              (treeBranchParams a)) as (_ & L1 & L2 & _); [lia |].
  rewrite <- Hp in L1, L2.
  destruct (for_range_invariant
              (fun _ a' _ =>
                 treeBranchParams a' !! 1%nat = treeBranchParams a1 !! 1%nat
                 /\ treeBranchParams a' !! 2%nat = treeBranchParams a1 !! 2%nat)
              (initTreeParticle (Own t)) c 1 a1 g1) as (a' & g' & E & H1 & H2).
  - split; reflexivity.
  - intros j s g0 Hj (K1 & K2).
    destruct (initTreeParticle_Own t j s g0) as (s' & g2 & E2 & _ & Hp2).
    exists s', g2. split; [exact E2 |].
    rewrite Hp2, !write4_lookup_other by lia. split; assumption.
  - exists a', g'. split.
    + cbn [for_range]. unfold bind. rewrite E1. exact E.
    + rewrite H1, H2. split; [exact L1 | exact L2].
Qed.

Lemma tierOf_0 : tierOf 0 = 0.
Proof.
  unfold tierOf, Math_floor, Math_pow.
  destruct (Req_dec_T 0.35 2) as [E | _]; [lra |].
  destruct (Rlt_dec 0 0) as [H | _]; [lra |].
  rewrite Rmult_0_l. now rewrite (ZfloorZ 0).
Qed.

Lemma eighth_turn_not_quantized : ~ quantized (PI / 8) (8 + 0).
Proof.
  intros (k & Hk). pose proof PI_RGT_0 as Hpi.
  assert (H2 : IZR (2 * k) = IZR 1).
  { rewrite mult_IZR. apply Rmult_eq_reg_r with (r := PI / 8); [| lra].
    rewrite Hk at 2. field. }
  apply eq_IZR in H2. lia.
Qed.

(** The code at the failing input of C3. Generation from the allocated
    application, every draw 0 but the sixth (the draw of the branch angle
    of particle 0), which is 1/16: particle 0 gets tier 0, hence 8
    branches, and the branch angle π/8, half of the spacing 2π/8 and no
    integer multiple of it. *)
Theorem branch_angle_not_quantized :
  exists a' g',
    initTreeParticles allocated (spike_source 5 (1 / 16)) = (Normal tt, a', g')
    /\ treeBranchParams a' !! 1%nat = Some 0
    /\ treeBranchParams a' !! 2%nat = Some (PI / 8)
    /\ ~ quantized (PI / 8) (8 + 0).
Proof.
  rewrite initTreeParticles_prologue.
  change (THEMES_get (theme (state allocated))) with (THEMES_get "classic").
  assert (Hclassic : exists t, THEMES_get "classic" = Own t).
  { eexists. vm_compute. reflexivity. }
  destruct Hclassic as (t & ->).
  edestruct (first_particle_stored t CONFIG.treeParticleCount) as (a' & g' & E & L1 & L2);
    [exact treeParticleCount_pos | | exists a', g'; split; [exact E |]].
  - apply length_replicate.
  - cbn [spike_source draws cursor Nat.add Nat.eqb] in L1, L2.
    rewrite tierOf_0 in L1, L2. rewrite branchAngleOf_turn in L2 by lra.
    replace (1 / 16 * (2 * PI)) with (PI / 8) in L2 by lra.
    split; [exact L1 |]. split; [exact L2 | exact eighth_turn_not_quantized].
Qed.

Lemma classic_is_a_theme : exists t, THEMES !! "classic" = Some t.
Proof. eexists. vm_compute. reflexivity. Qed.

End Generation.

Lemma stored_descriptors_in_closed_range_witness :
  unit_draws (constant_source (1 / 2))
  /\ exists a' g',
       initTreeParticles (H := Three.js) allocated (constant_source (1 / 2))
       = (Normal tt, a', g')
       /\ descriptor_in_closed_range (stored (treeBranchParams a')) 0.
Proof.
  assert (Hg : unit_draws (constant_source (1 / 2))) by (apply constant_source_unit; lra).
  split; [exact Hg |].
  destruct classic_is_a_theme as (t & Ht).
  destruct (stored_descriptors_in_closed_range (T := Three.js) t allocated
              (constant_source (1 / 2)) Hg Ht) as (a' & g' & E & Hall).
  exists a', g'. split; [exact E | apply Hall, treeParticleCount_pos].
Defined.

(** The draw 0.99999999 is nearer to 1 than to the number of single
    precision below 1, which is 0.99999994. *)
Lemma fround_near_1 : Math_fround 0.99999999 = 1.
Proof.
  rewrite (fround_eq _ (-1) 16777216).
  - simpl. lra.
  - rewrite Rabs_pos_eq by lra. simpl. lra.
  - lia.
  - simpl. lra.
Qed.

Lemma spike_source_unit (k : nat) (v : R) : 0 <= v < 1 -> unit_draws (spike_source k v).
Proof.
  intros Hv j. cbn [spike_source draws]. destruct (Nat.eqb j k); lra.
Qed.

(** The claim as the specification states it fails on the parameter
    array: generation from the allocated application, every draw 0 but
    the seventh (the draw of the branch fraction of particle 0), which is
    0.99999999, leaves the branch fraction 1 in the array, outside
    [0, 1). *)
Lemma stored_fraction_reaches_1 :
  unit_draws (spike_source 6 0.99999999)
  /\ exists a' g',
       initTreeParticles (H := Three.js) allocated (spike_source 6 0.99999999)
       = (Normal tt, a', g')
       /\ stored (treeBranchParams a') !! 0%nat = Some 1
       /\ ~ descriptor_in_range (stored (treeBranchParams a')) 0.
Proof.
  split; [apply spike_source_unit; lra |].
  rewrite initTreeParticles_prologue.
  change (THEMES_get (theme (state allocated))) with (THEMES_get "classic").
  assert (Hclassic : exists t, THEMES_get "classic" = Own t).
  { eexists. vm_compute. reflexivity. }
  destruct Hclassic as (t & ->).
  edestruct (first_fraction_stored (T := Three.js) t CONFIG.treeParticleCount)
    as (a' & g' & E & L0);
    [exact treeParticleCount_pos | | exists a', g'; split; [exact E |]].
  - apply length_replicate.
  - cbn [spike_source draws cursor Nat.add Nat.eqb] in L0.
    assert (Hs : stored (treeBranchParams a') !! 0%nat = Some 1).
    { unfold stored. rewrite list_lookup_fmap, L0. cbn [fmap option_fmap option_map].
      now rewrite fround_near_1. }
    split; [exact Hs |].
    intros (bf & ang & k & H0 & _ & _ & Hbf & _).
    change (0 * 4)%nat with 0%nat in H0. rewrite Hs in H0. injection H0 as <-. lra.
Qed.

(** ** The frame *)

Section Frame.

Context {T : THREE}.

Lemma lerp_smoothed (x y t : R) : smoothed t x y (lerp x y t).
Proof. unfold smoothed, lerp. ring. Qed.

Lemma Meteor_update_returns (m : Meteor.t) (g : RNG) :
  completion (Meteor.update m g) = Normal tt.
Proof.
  unfold Meteor.update, bind, assign, this.
  destruct (ltb _ (-1200) || gtb _ 3500); [apply reset_returns | reflexivity].
Qed.

Lemma forEach_update_returns (l : list Meteor.t) (g : RNG) :
  completion (forEach Meteor.update l g) = Normal tt.
Proof.
  revert g. induction l as [|m l IH]; intros g; [reflexivity |].
  cbn [forEach]. pose proof (Meteor_update_returns m g) as Hm.
  destruct (Meteor.update m g) as [[[[] | e] m'] g1]; cbn in Hm; [| discriminate].
  specialize (IH g1). destruct (forEach Meteor.update l g1) as [[c l'] g2].
  exact IH.
Qed.

Lemma updateMeteors_returns (a : HolidayApp) (g : RNG) :
  exists ms g', updateMeteors a g = (Normal tt, set_meteors ms a, g').
Proof.
  unfold updateMeteors. pose proof (forEach_update_returns (meteors a) g) as H.
  destruct (forEach Meteor.update (meteors a) g) as [[c ms] g']. cbn in H. subst c.
  exists ms, g'. reflexivity.
Qed.

(** Runs the meteors of a frame in the goal. *)
Ltac run_meteors :=
  match goal with
  | |- context [updateMeteors ?s ?g0] =>
      let ms := fresh "ms" in
      let g1 := fresh "g1" in
      let Em := fresh "Em" in
      destruct (updateMeteors_returns s g0) as (ms & g1 & Em); rewrite Em
  end.

Lemma particle_loop_returns (time : R) (n start : nat) (a : HolidayApp) (g : RNG) :
  exists a',
    for_range start n (updateParticle time) a g = (Normal tt, a', g)
    /\ galaxyFloor_position_y a' = galaxyFloor_position_y a
    /\ heart_scale a' = heart_scale a.
Proof.
  destruct (for_range_invariant
              (fun _ a' g' =>
                 g' = g /\ galaxyFloor_position_y a' = galaxyFloor_position_y a
                 /\ heart_scale a' = heart_scale a)
              (updateParticle time) n start a g) as (a' & g' & E & -> & Hf & Hh).
  - repeat split.
  - intros j s g0 _ (-> & Hf & Hh).
    unfold updateParticle, bind, this, assign.
    eexists; eexists. split; [reflexivity |].
    cbn. repeat split; assumption.
  - exists a'. repeat split; assumption.
Qed.

Lemma write3_length (b : nat) (v0 v1 v2 : R) (a : list R) :
  length (write3 b v0 v1 v2 a) = length a.
Proof. unfold write3. now rewrite !length_insert. Qed.

Lemma particle_write3_same (i : nat) (v0 v1 v2 : R) (p : list R) :
  (i * 3 + 2 < length p)%nat ->
  particle (write3 (i * 3) v0 v1 v2 p) i = Vector3.mk v0 v1 v2.
Proof.
  intros Hi. unfold particle, read, write3. f_equal.
  - rewrite !list_lookup_insert_ne by lia. now rewrite list_lookup_insert_eq by lia.
  - rewrite list_lookup_insert_ne by lia.
    now rewrite list_lookup_insert_eq by (rewrite length_insert; lia).
  - now rewrite list_lookup_insert_eq by (rewrite !length_insert; lia).
Qed.

Lemma particle_write3_other (i j : nat) (v0 v1 v2 : R) (p : list R) :
  i <> j -> particle (write3 (j * 3) v0 v1 v2 p) i = particle p i.
Proof.
  intros Hne. unfold particle, read, write3.
  now rewrite !list_lookup_insert_ne by lia.
Qed.

Lemma target_ext (a a' : HolidayApp) (i : nat) (time : R) :
  mode (state a') = mode (state a) ->
  treeBranchParams a' = treeBranchParams a ->
  treeJitters a' = treeJitters a ->
  target a' i time = target a i time.
Proof. intros Hm Hp Hj. unfold target. now rewrite Hm, Hp, Hj. Qed.

(** The particle loop of a frame moves every particle one integrator step
    towards its target. *)
Lemma particle_loop_integrates (time : R) (n : nat) (a : HolidayApp) (g : RNG) :
  (n * 3 <= length (positions a))%nat ->
  exists a',
    for_range 0 n (updateParticle time) a g = (Normal tt, a', g)
    /\ forall i : nat, (i < n)%nat ->
         particle (positions a') i = integrate3 (particle (positions a) i) (target a i time).
Proof.
  intros Hlen.
  destruct (for_range_invariant
              (fun j a' g' =>
                 g' = g
                 /\ length (positions a') = length (positions a)
                 /\ mode (state a') = mode (state a)
                 /\ treeBranchParams a' = treeBranchParams a
                 /\ treeJitters a' = treeJitters a
                 /\ (forall i : nat, (i < j)%nat ->
                       particle (positions a') i
                       = integrate3 (particle (positions a) i) (target a i time))
                 /\ (forall i : nat, (j <= i)%nat ->
                       particle (positions a') i = particle (positions a) i))
              (updateParticle time) n 0 a g)
    as (a' & g' & E & -> & _ & _ & _ & _ & Hdone & _).
  - repeat split; try reflexivity. intros i Hi. lia.
  - intros j s g0 Hj (-> & Hl & Hm & Hp & Hjit & Hdone & Htodo).
    unfold updateParticle, bind, this, assign.
    eexists; eexists. split; [reflexivity |].
    cbn [positions set_positions state treeBranchParams treeJitters].
    split; [reflexivity |]. split; [now rewrite write3_length |].
    split; [exact Hm |]. split; [exact Hp |]. split; [exact Hjit |]. split.
    + intros i Hi. destruct (Nat.eq_dec i j) as [-> | Hne].
      * rewrite particle_write3_same by lia.
        rewrite (target_ext a s j time Hm Hp Hjit), (Htodo j) by lia.
        reflexivity.
      * rewrite particle_write3_other by exact Hne. apply Hdone. lia.
    + intros i Hi. rewrite particle_write3_other by lia. apply Htodo. lia.
  - exists a'. split; [exact E | exact Hdone].
Qed.

(** After a frame, each particle of the position buffer is its former
    self moved by [integrate3] towards the target the field evaluator gives
    it. *)
Lemma update_integrates (time : R) (a : HolidayApp) (g : RNG) (i : nat) :
  (CONFIG.treeParticleCount * 3 <= length (positions a))%nat ->
  (i < CONFIG.treeParticleCount)%nat ->
  particle (positions (receiver (update time None a g))) i
  = integrate3 (particle (positions a) i) (target a i time).
Proof.
  intros Hlen Hi. unfold update, bind. cbn [assign ret this].
  run_meteors.
  match goal with
  | |- context [for_range 0 ?n (updateParticle time) ?s ?g0] =>
      destruct (particle_loop_integrates time n s g0) as (a2 & Ep & Hall);
        [exact Hlen | rewrite Ep]
  end.
  unfold assign, receiver. cbn [fst snd positions set_position_needsUpdate].
  rewrite (Hall i Hi). reflexivity.
Qed.

(** A frame returns, with the floor eased by 0.05 and the heart by 0.1. *)
Lemma update_eases (time : R) (hand : option Point.t) (a : HolidayApp) (g : RNG) :
  let after := update time hand a g in
  completion after = Normal tt
  /\ eased 0.05 0.1 time a (receiver after)
  /\ heart_scale (receiver after)
     = Vector3.setScalar (Vector3.x (heart_scale (receiver after))).
Proof.
  intros after. subst after. unfold update, bind.
  assert (Hmode : forall h, mode (set_hand ((Point.x h - 0.5) * 2) ((Point.y h - 0.5) * 2)
                                     (state a)) = mode (state a)) by reflexivity.
  destruct hand as [h |]; cbn [assign ret this];
    run_meteors;
    match goal with
    | |- context [for_range 0 ?n (updateParticle time) ?s ?g0] =>
        destruct (particle_loop_returns time n 0 s g0) as (a2 & Ep & Hf & Hh); rewrite Ep
    end;
    cbn in Hf, Hh; cbn [completion receiver fst snd];
    (split; [reflexivity |]);
    unfold eased, assign, receiver;
    cbn [fst snd galaxyFloor_position_y heart_scale set_position_needsUpdate];
    rewrite Hf, Hh; cbn [Vector3.x Vector3.setScalar];
    (split; [| reflexivity]);
    (split;
     [ replace (targetFloorY (mode (state a)))
         with (if Mode_eqb (mode (state a)) TREE then -52 else -140)
         by (destruct (mode (state a)); reflexivity);
       apply lerp_smoothed
     | replace (targetHeartScale (mode (state a)) time)
         with ((if Mode_eqb (mode (state a)) TREE then 1 else 0)
               * (1 + Math_sin (time * 2.5) * 0.06))
         by (unfold targetHeartScale; destruct (mode (state a)); reflexivity);
       apply lerp_smoothed ]).
Qed.

(** C6, as the code has it. Each frame returns, having advanced the
    floor's vertical offset towards its target by exponential smoothing
    with factor 0.05 and the heart's scale, on its three axes alike,
    towards its pulsing target with factor 0.1:
    new = old + (target - old) * factor. *)
Theorem floor_eased_by_005_heart_by_01 (time : R) (hand : option Point.t)
  (a : HolidayApp) (g : RNG) :
  let after := update time hand a g in
  completion after = Normal tt
  /\ eased 0.05 0.1 time a (receiver after)
  /\ heart_scale (receiver after)
     = Vector3.setScalar (Vector3.x (heart_scale (receiver after))).
Proof. exact (update_eases time hand a g). Qed.

End Frame.

(** C6, as the specification words it, fails: in SCATTER mode at time 0 a
    heart of scale 1 is eased towards 0 to 0.9, where the factor 0.05
    would give 0.95. *)
Lemma heart_not_eased_by_005 :
  ~ eased 0.05 0.05 0 scattered
      (receiver (update (H := Three.js) 0 None scattered (constant_source (1 / 2)))).
Proof.
  intros (_ & Hheart).
  destruct (update_eases (T := Three.js) 0 None scattered (constant_source (1 / 2)))
    as (_ & (_ & Hcode) & _).
  unfold smoothed in Hheart, Hcode. rewrite Hcode in Hheart.
  unfold targetHeartScale in Hheart. cbn in Hheart. lra.
Qed.

(** * Further properties of the program *)

(** ** A meteor between and at its resets *)

Section MeteorLife.

Context {T : THREE}.

Lemma reset_velocity_scale (m : Meteor.t) (g : RNG) :
  let c := cursor g in
  Meteor.velocity (receiver (Meteor.reset m g))
  = Vector3.multiplyScalar
      (Vector3.normalize
         (Vector3.mk 1.4 (-1.0 + (draws g (4 + c)%nat - 0.5) * 0.1)
                     ((draws g (5 + c)%nat - 0.5) * 0.2)))
      (3.5 + draws g (3 + c)%nat * 5.5)
  /\ Meteor.scale (receiver (Meteor.reset m g))
     = Vector3.setScalar
         ((1.0 + (1.0 - Math_pow (draws g c) 2) * 2.0) * (0.8 + draws g (6 + c)%nat * 1.5))
  /\ cursor (source (Meteor.reset m g)) = (7 + c)%nat
  /\ draws (source (Meteor.reset m g)) = draws g.
Proof. repeat split; reflexivity. Qed.

Lemma spawnX_lower (u0 u1 : R) : 0 <= u0 < 1 -> 0 <= u1 < 1 -> -4800 <= spawnX u0 u1.
Proof.
  intros H0 H1. unfold spawnX, Math_abs.
  pose proof (spawnZ_range u0 H0) as Hz.
  rewrite Rabs_left by lra. nra.
Qed.

Lemma reset_in_box (m : Meteor.t) (g : RNG) :
  unit_draws g -> in_spawn_box (Meteor.position (receiver (Meteor.reset m g))).
Proof.
  intros Hg. destruct (reset_returns m g) as [_ Hp].
  rewrite Hp. unfold in_spawn_box. cbn [Vector3.x Vector3.y Vector3.z].
  pose proof (spawnX_negative _ _ (Hg (cursor g)) (Hg (S (cursor g)))).
  pose proof (spawnX_lower _ _ (Hg (cursor g)) (Hg (S (cursor g)))).
  pose proof (spawnY_range _ (Hg (S (S (cursor g))))).
  pose proof (spawnZ_range _ (Hg (cursor g))).
  lra.
Qed.

(** X1. With draws in [0, 1), [reset] puts a body in the spawn box
    (x from -4800 to -240, y from 800 to 1600, z from -3000 to -300, the
    faces included: rounded to a double, 800 + u * 800 is 1600 for the
    largest draw), left of, above and behind the scene, with one scale on
    its three axes, from 0.8 to 7, and it takes exactly seven draws. *)
Theorem reset_spawns_in_box (m : Meteor.t) (g : RNG) :
  unit_draws g ->
  let m' := receiver (Meteor.reset m g) in
  in_spawn_box (Meteor.position m')
  /\ (exists s, Meteor.scale m' = Vector3.mk s s s /\ 0.8 <= s <= 7)
  /\ cursor (source (Meteor.reset m g)) = (7 + cursor g)%nat.
Proof.
  intros Hg m'. subst m'.
  destruct (reset_returns m g) as [_ Hp].
  destruct (reset_velocity_scale m g) as (_ & Hs & Hc & _).
  split; [| split].
  - rewrite Hp. unfold in_spawn_box. cbn [Vector3.x Vector3.y Vector3.z].
    pose proof (spawnX_negative _ _ (Hg (cursor g)) (Hg (S (cursor g)))).
    pose proof (spawnX_lower _ _ (Hg (cursor g)) (Hg (S (cursor g)))).
    pose proof (spawnY_range _ (Hg (S (S (cursor g))))).
    pose proof (spawnZ_range _ (Hg (cursor g))).
    lra.
  - rewrite Hs. eexists. split; [reflexivity |].
    rewrite Math_pow_2.
    pose proof (Hg (cursor g)) as H0. pose proof (Hg (6 + cursor g)%nat) as H6.
    assert (0 <= draws g (cursor g) ^ 2 < 1) by nra.
    nra.
  - exact Hc.
Qed.

Lemma length_direction (a b : R) :
  -1.05 <= a <= -0.95 -> -0.1 <= b <= 0.1 ->
  1.4 < Vector3.length (Vector3.mk 1.4 a b) < 1.76.
Proof.
  intros Ha Hb. unfold Vector3.length, Math_sqrt. cbn [Vector3.x Vector3.y Vector3.z].
  split.
  - rewrite <- (sqrt_pow2 1.4) at 1 by lra. apply sqrt_lt_1; nra.
  - rewrite <- (sqrt_pow2 1.76) by lra. apply sqrt_lt_1; nra.
Qed.

Lemma length_scaled (v : Vector3.t) (k : R) :
  0 <= k -> Vector3.length (Vector3.multiplyScalar v k) = k * Vector3.length v.
Proof.
  intros Hk. unfold Vector3.length, Vector3.multiplyScalar, Math_sqrt.
  cbn [Vector3.x Vector3.y Vector3.z].
  replace (Vector3.x v * k * (Vector3.x v * k) + Vector3.y v * k * (Vector3.y v * k)
           + Vector3.z v * k * (Vector3.z v * k))
    with (k ^ 2 * (Vector3.x v * Vector3.x v + Vector3.y v * Vector3.y v
                   + Vector3.z v * Vector3.z v)) by ring.
  rewrite sqrt_mult_alt by apply pow2_ge_0. now rewrite sqrt_pow2 by exact Hk.
Qed.

Lemma length_normalize (v : Vector3.t) :
  0 < Vector3.length v -> Vector3.length (Vector3.normalize v) = 1.
Proof.
  intros Hpos. unfold Vector3.normalize, Vector3.divideScalar.
  destruct (Req_dec_T (Vector3.length v) 0) as [E | _]; [lra |].
  rewrite length_scaled.
  - field. lra.
  - apply Rlt_le. apply Rdiv_lt_0_compat; lra.
Qed.

(** X2. With draws in [0, 1), the velocity [reset] gives has a length
    from 3.49 to 9.01 a frame (the drawn speed, from 3.5 to 9, with an
    allowance for the rounding of the normalisation), points to the right
    and falls by at least 1.88 a frame. *)
Theorem reset_velocity (m : Meteor.t) (g : RNG) :
  unit_draws g ->
  let v := Meteor.velocity (receiver (Meteor.reset m g)) in
  3.49 <= Vector3.length v <= 9.01
  /\ 0 < Vector3.x v
  /\ Vector3.y v <= -1.88.
Proof.
  intros Hg v. subst v.
  destruct (reset_velocity_scale m g) as (Hv & _). rewrite Hv. clear Hv.
  pose proof (Hg (3 + cursor g)%nat) as H3.
  pose proof (Hg (4 + cursor g)%nat) as H4.
  pose proof (Hg (5 + cursor g)%nat) as H5.
  set (a := -1.0 + (draws g (4 + cursor g)%nat - 0.5) * 0.1).
  set (b := (draws g (5 + cursor g)%nat - 0.5) * 0.2).
  set (speed := 3.5 + draws g (3 + cursor g)%nat * 5.5).
  assert (Ha : -1.05 <= a <= -0.95) by (unfold a; lra).
  assert (Hb : -0.1 <= b <= 0.1) by (unfold b; lra).
  assert (Hs : 3.5 <= speed < 9) by (unfold speed; lra).
  pose proof (length_direction a b Ha Hb) as Hl.
  assert (Hlen : Vector3.length
                   (Vector3.multiplyScalar (Vector3.normalize (Vector3.mk 1.4 a b)) speed)
                 = speed).
  { rewrite length_scaled by lra. rewrite length_normalize by lra. lra. }
  split; [rewrite Hlen; lra |].
  unfold Vector3.normalize, Vector3.divideScalar, Vector3.multiplyScalar.
  destruct (Req_dec_T (Vector3.length (Vector3.mk 1.4 a b)) 0) as [E | _]; [lra |].
  cbn [Vector3.x Vector3.y Vector3.z].
  set (l := Vector3.length (Vector3.mk 1.4 a b)) in *.
  assert (Hinv : 1 / 1.76 < 1 / l < 1 / 1.4).
  { split; unfold Rdiv; rewrite !Rmult_1_l; apply Rinv_lt_contravar; nra. }
  split.
  - apply Rmult_lt_0_compat; [| lra]. apply Rmult_lt_0_compat; lra.
  - assert (a * (1 / l) <= -0.95 * (1 / 1.76)) by nra.
    assert (-0.95 * (1 / 1.76) <= -0.539) by lra.
    nra.
Qed.

Lemma vector_eq (a b c a' b' c' : R) :
  a = a' -> b = b' -> c = c' -> Vector3.mk a b c = Vector3.mk a' b' c'.
Proof. now intros -> -> ->. Qed.

Lemma translate_n_frames (n start : nat) (m : Meteor.t) (g : RNG) :
  (forall k : nat, (1 <= k <= n)%nat ->
     -1200 <= Vector3.y (Meteor.position m) + INR k * Vector3.y (Meteor.velocity m)
     /\ Vector3.x (Meteor.position m) + INR k * Vector3.x (Meteor.velocity m) <= 3500) ->
  for_range start n (fun _ => Meteor.update) m g
  = (Normal tt,
     Meteor.set_position
       (Vector3.add (Meteor.position m) (Vector3.multiplyScalar (Meteor.velocity m) (INR n)))
       m, g).
Proof.
  revert start m. induction n as [|n IH]; intros start m Hin.
  - cbn [for_range INR]. unfold ret. destruct m as [[px py pz] q sc [vx vy vz]].
    unfold Meteor.set_position, Vector3.add, Vector3.multiplyScalar. cbn.
    repeat f_equal; lra.
  - cbn [for_range]. unfold bind.
    destruct (Hin 1%nat) as [Hy Hx]; [lia |]. cbn [INR] in Hy, Hx.
    rewrite update_in_bounds
      by (unfold Vector3.add; cbn [Vector3.x Vector3.y]; lra).
    rewrite IH.
    + destruct m as [[px py pz] q sc [vx vy vz]].
      unfold Meteor.set_position, Vector3.add, Vector3.multiplyScalar.
      cbn [Meteor.position Meteor.velocity Meteor.quaternion Meteor.scale
           Vector3.x Vector3.y Vector3.z].
      rewrite S_INR.
      match goal with
      | |- (_, Meteor.mk ?p _ _ _, _) = (_, Meteor.mk ?p' _ _ _, _) =>
          replace p with p'; [reflexivity | apply vector_eq; lra]
      end.
    + intros k Hk. destruct (Hin (S k)) as [Hy' Hx']; [lia |].
      rewrite S_INR in Hy', Hx'.
      unfold Meteor.set_position, Vector3.add.
      cbn [Meteor.position Meteor.velocity Vector3.x Vector3.y]. lra.
Qed.

(** X3. Between resets a body moves in a straight line: when the points
    position + k * velocity, for k from 1 to n, all lie inside the bounds,
    n frames take the body to position + n * velocity, keep its velocity,
    scale and orientation, and draw nothing. *)
Theorem meteor_straight_between_resets (n : nat) (m : Meteor.t) (g : RNG) :
  (forall k : nat, (1 <= k <= n)%nat ->
     -1200 <= Vector3.y (Meteor.position m) + INR k * Vector3.y (Meteor.velocity m)
     /\ Vector3.x (Meteor.position m) + INR k * Vector3.x (Meteor.velocity m) <= 3500) ->
  for_range 0 n (fun _ => Meteor.update) m g
  = (Normal tt,
     Meteor.mk
       (Vector3.add (Meteor.position m) (Vector3.multiplyScalar (Meteor.velocity m) (INR n)))
       (Meteor.quaternion m) (Meteor.scale m) (Meteor.velocity m),
     g).
Proof. intros Hin. exact (translate_n_frames n 0 m g Hin). Qed.

(** With draws in [0, 1), whatever state a body is in, [update] leaves it
    inside the bounds. *)
Lemma meteor_update_keeps_bounds (m : Meteor.t) (g : RNG) :
  unit_draws g -> in_bounds (receiver (Meteor.update m g)).
Proof.
  intros Hg. set (moved := Vector3.add (Meteor.position m) (Meteor.velocity m)).
  destruct (Rlt_dec (Vector3.y moved) (-1200)) as [Hy | Hy].
  - rewrite (update_out_of_bounds m g (or_introl Hy)).
    destruct (reset_returns (Meteor.set_position moved m) g) as [_ Hp].
    unfold in_bounds. unfold moved in Hp. rewrite Hp. cbn [Vector3.x Vector3.y].
    pose proof (spawnY_range _ (Hg (S (S (cursor g))))).
    pose proof (spawnX_negative _ _ (Hg (cursor g)) (Hg (S (cursor g)))). lra.
  - destruct (Rlt_dec 3500 (Vector3.x moved)) as [Hx | Hx].
    + rewrite (update_out_of_bounds m g (or_intror Hx)).
      destruct (reset_returns (Meteor.set_position moved m) g) as [_ Hp].
      unfold in_bounds. unfold moved in Hp. rewrite Hp. cbn [Vector3.x Vector3.y].
      pose proof (spawnY_range _ (Hg (S (S (cursor g))))).
      pose proof (spawnX_negative _ _ (Hg (cursor g)) (Hg (S (cursor g)))). lra.
    + unfold moved in *. rewrite (update_in_bounds m g) by lra.
      unfold in_bounds, receiver. cbn [fst snd Meteor.position Meteor.set_position]. lra.
Qed.

End MeteorLife.

(** ** What a frame writes *)

Section Frames.

Context {T : THREE}.

Lemma particle_loop_shape (time : R) (n start : nat) (a : HolidayApp) (g : RNG) :
  exists P,
    for_range start n (updateParticle time) a g = (Normal tt, set_positions P a, g)
    /\ length P = length (positions a).
Proof.
  destruct (for_range_invariant
              (fun _ a' g' =>
                 g' = g /\ exists P, a' = set_positions P a
                                     /\ length P = length (positions a))
              (updateParticle time) n start a g) as (a' & g' & E & -> & P & -> & HP).
  - split; [reflexivity |]. exists (positions a). split; [| reflexivity].
    destruct a; reflexivity.
  - intros j s g0 _ (-> & P & -> & HP).
    unfold updateParticle, bind, this, assign.
    eexists; eexists. split; [reflexivity |]. split; [reflexivity |].
    eexists. split; [reflexivity |].
    cbn [positions set_positions]. now rewrite write3_length.
  - exists P. split; [exact E | exact HP].
Qed.

Lemma forEach_update_pool (l : list Meteor.t) (g : RNG) :
  exists l' g',
    forEach Meteor.update l g = (Normal tt, l', g')
    /\ length l' = length l
    /\ draws g' = draws g
    /\ (unit_draws g -> Forall in_bounds l').
Proof.
  revert g. induction l as [|m l IH]; intros g.
  - exists [], g. repeat split. intros _. constructor.
  - cbn [forEach].
    pose proof (Meteor_update_returns m g) as Hc.
    pose proof (meteor_update_keeps_bounds m g) as Hb.
    assert (Hd : draws (source (Meteor.update m g)) = draws g).
    { set (moved := Vector3.add (Meteor.position m) (Meteor.velocity m)).
      destruct (Rlt_dec (Vector3.y moved) (-1200)) as [Hy | Hy].
      - rewrite (update_out_of_bounds m g (or_introl Hy)). apply reset_velocity_scale.
      - destruct (Rlt_dec 3500 (Vector3.x moved)) as [Hx | Hx].
        + rewrite (update_out_of_bounds m g (or_intror Hx)). apply reset_velocity_scale.
        + unfold moved in *. now rewrite (update_in_bounds m g) by lra. }
    destruct (Meteor.update m g) as [[[[] | e] m'] g1]; cbn in Hc, Hb, Hd; [| discriminate].
    destruct (IH g1) as (l' & g' & E & Hlen & Hdr & Hin). rewrite E.
    exists (m' :: l'), g'. split; [reflexivity |]. split; [cbn; lia |].
    split; [congruence |].
    intros Hg. constructor; [apply Hb, Hg |].
    apply Hin. intros k. rewrite Hd. apply Hg.
Qed.

(** The application a frame leaves, field by field. *)
Lemma update_shape (time : R) (hand : option Point.t) (a : HolidayApp) (g : RNG) :
  exists P ms g',
    update time hand a g
    = (Normal tt,
       {| state := track hand (state a);
          positions := P;
          position_needsUpdate := true;
          colors := colors a;
          color_needsUpdate := color_needsUpdate a;
          treeJitters := treeJitters a;
          treeBranchParams := treeBranchParams a;
          mainGroup_rotation_x :=
            mainGroup_rotation_x a
            + (targetRotX (track hand (state a)) - mainGroup_rotation_x a) * 0.05;
          mainGroup_rotation_y :=
            mainGroup_rotation_y a
            + (targetRotY (track hand (state a)) - mainGroup_rotation_y a) * 0.05;
          galaxyFloor_rotation_y := galaxyFloor_rotation_y a + 0.003;
          galaxyFloor_position_y :=
            lerp (galaxyFloor_position_y a) (targetFloorY (mode (state a))) 0.05;
          heart_scale :=
            Vector3.setScalar
              (lerp (Vector3.x (heart_scale a)) (targetHeartScale (mode (state a)) time) 0.1);
          heart_rotation_y := heart_rotation_y a + 0.006;
          heart_emissiveIntensity := 1.5 + Math_sin (time * 4) * 0.7;
          meteors := ms |},
       g')
    /\ forEach Meteor.update (meteors a) g = (Normal tt, ms, g')
    /\ length P = length (positions a)
    /\ ((CONFIG.treeParticleCount * 3 <= length (positions a))%nat ->
        forall i : nat, (i < CONFIG.treeParticleCount)%nat ->
          particle P i = integrate3 (particle (positions a) i) (target a i time)).
Proof.
  destruct (forEach_update_pool (meteors a) g) as (ms & g' & Efe & _).
  assert (Hrun : forall s : HolidayApp,
             meteors s = meteors a ->
             updateMeteors s g = (Normal tt, set_meteors ms s, g')).
  { intros s Hs. unfold updateMeteors. now rewrite Hs, Efe. }
  assert (Hloop : forall s : HolidayApp,
             positions s = positions a -> mode (state s) = mode (state a) ->
             treeBranchParams s = treeBranchParams a -> treeJitters s = treeJitters a ->
             exists P,
               for_range 0 CONFIG.treeParticleCount (updateParticle time) s g'
               = (Normal tt, set_positions P s, g')
               /\ length P = length (positions a)
               /\ ((CONFIG.treeParticleCount * 3 <= length (positions a))%nat ->
                   forall i : nat, (i < CONFIG.treeParticleCount)%nat ->
                     particle P i = integrate3 (particle (positions a) i) (target a i time))).
  { intros s Hp Hm Hb Hj.
    destruct (particle_loop_shape time CONFIG.treeParticleCount 0 s g') as (P & E & HP).
    exists P. split; [exact E |]. split; [congruence |].
    intros Hlen i Hi.
    destruct (particle_loop_integrates time CONFIG.treeParticleCount s g')
      as (a2 & E2 & Hall); [congruence |].
    rewrite E in E2. injection E2 as <-.
    specialize (Hall i Hi). cbn [positions set_positions] in Hall.
    rewrite Hall, Hp. f_equal. now apply target_ext. }
  unfold update, bind.
  destruct hand as [h |]; cbn [assign ret this track].
  - match goal with
    | |- context [updateMeteors ?s g] => rewrite (Hrun s eq_refl)
    end.
    match goal with
    | |- context [for_range 0 _ (updateParticle time) ?s g'] =>
        destruct (Hloop s eq_refl eq_refl eq_refl eq_refl) as (P & E & HP & Hint); rewrite E
    end.
    exists P, ms, g'. split; [| split; [exact Efe | split; [exact HP | exact Hint]]].
    unfold assign. destruct a as [st ? ? ? ? ? ? ? ? ? ? ? ? ? ?]. destruct st as [[|] ? ? ? ? ? ? ? ? ?];
      reflexivity.
  - match goal with
    | |- context [updateMeteors ?s g] => rewrite (Hrun s eq_refl)
    end.
    match goal with
    | |- context [for_range 0 _ (updateParticle time) ?s g'] =>
        destruct (Hloop s eq_refl eq_refl eq_refl eq_refl) as (P & E & HP & Hint); rewrite E
    end.
    exists P, ms, g'. split; [| split; [exact Efe | split; [exact HP | exact Hint]]].
    unfold assign. destruct a as [st ? ? ? ? ? ? ? ? ? ? ? ? ? ?]. destruct st as [[|] ? ? ? ? ? ? ? ? ?];
      reflexivity.
Qed.

End Frames.

(** ** Frames in a row *)

Section Animation.

Context {T : THREE}.

Lemma update_returns (time : R) (hand : option Point.t) (a : HolidayApp) (g : RNG) :
  update time hand a g
  = (Normal tt, receiver (update time hand a g), source (update time hand a g)).
Proof.
  destruct (update_shape time hand a g) as (P & ms & g' & E & _). now rewrite E.
Qed.

(** What every frame keeps, any number of frames keep; and they return. *)
Lemma animate_invariant (Inv : HolidayApp -> RNG -> Prop)
  (frames : list (R * option Point.t)) (a : HolidayApp) (g : RNG) :
  (forall time hand a g,
     Inv a g -> Inv (receiver (update time hand a g)) (source (update time hand a g))) ->
  Inv a g ->
  completion (animate frames a g) = Normal tt
  /\ Inv (receiver (animate frames a g)) (source (animate frames a g)).
Proof.
  intros Hstep. revert a g. induction frames as [|[time hand] frames IH]; intros a g H0.
  - split; [reflexivity | exact H0].
  - cbn [animate]. unfold bind. rewrite update_returns. apply IH, Hstep, H0.
Qed.

Lemma animate_cons (time : R) (hand : option Point.t) (frames : list (R * option Point.t))
  (a : HolidayApp) (g : RNG) :
  animate ((time, hand) :: frames) a g
  = animate frames (receiver (update time hand a g)) (source (update time hand a g)).
Proof. cbn [animate]. unfold bind. now rewrite update_returns. Qed.

Lemma update_meteors (time : R) (hand : option Point.t) (a : HolidayApp) (g : RNG) :
  length (meteors (receiver (update time hand a g))) = length (meteors a)
  /\ draws (source (update time hand a g)) = draws g
  /\ (unit_draws g -> Forall in_bounds (meteors (receiver (update time hand a g)))).
Proof.
  destruct (update_shape time hand a g) as (P & ms & g' & E & Efe & _).
  destruct (forEach_update_pool (meteors a) g) as (l' & g1 & E1 & Hlen & Hd & Hin).
  rewrite Efe in E1. injection E1 as <- <-.
  rewrite E. cbn. auto.
Qed.

(** X4. With draws in [0, 1), any number of frames return and keep the
    meteor pool at its size; after one frame or more every body of the
    pool is inside the bounds (height at least -1200, horizontal
    coordinate at most 3500). *)
Theorem animate_keeps_meteor_pool (time : R) (hand : option Point.t)
  (frames : list (R * option Point.t)) (a : HolidayApp) (g : RNG) :
  unit_draws g ->
  let after := animate ((time, hand) :: frames) a g in
  completion after = Normal tt
  /\ length (meteors (receiver after)) = length (meteors a)
  /\ Forall in_bounds (meteors (receiver after)).
Proof.
  intros Hg after. subst after. rewrite animate_cons.
  destruct (update_meteors time hand a g) as (Hlen & Hd & Hin).
  destruct (animate_invariant
              (fun a' g' => unit_draws g'
                            /\ length (meteors a') = length (meteors a)
                            /\ Forall in_bounds (meteors a'))
              frames (receiver (update time hand a g)) (source (update time hand a g)))
    as (Hc & _ & Hl & Hb).
  - intros time' hand' a' g' (Hg' & Hl' & _).
    destruct (update_meteors time' hand' a' g') as (Hlen' & Hd' & Hin').
    split; [intros k; rewrite Hd'; apply Hg' |]. split; [congruence | apply Hin', Hg'].
  - split; [intros k; rewrite Hd; apply Hg |]. split; [exact Hlen | apply Hin, Hg].
  - auto.
Qed.


Lemma animate_keeps_descriptors_aux (frames : list (R * option Point.t))
  (a : HolidayApp) (g : RNG) :
  exists hx hy, state (receiver (animate frames a g)) = set_hand hx hy (state a).
Proof.
  destruct (animate_invariant
              (fun a' _ => exists hx hy, state a' = set_hand hx hy (state a))
              frames a g) as (_ & H); [| | exact H].
  - intros time hand a' g' (hx & hy & Hs).
    destruct (update_shape time hand a' g') as (P & ms & g1 & E & _).
    rewrite E. cbn [receiver fst snd state]. rewrite Hs.
    destruct hand as [h |]; cbn [track].
    + eexists; eexists. reflexivity.
    + exists hx, hy. reflexivity.
  - exists (handX (state a)), (handY (state a)). destruct (state a); reflexivity.
Qed.

(** X5. Any number of frames return and never write what generation and
    recolouring own: the parameter array, the jitter array, the colour
    buffer and its flag are as before, the position buffer keeps its
    length, and of the interaction state only the hand signal may differ
    (mode, theme, manual rotations and the pointer bookkeeping are kept). *)
Theorem animate_keeps_descriptors (frames : list (R * option Point.t))
  (a : HolidayApp) (g : RNG) :
  let after := animate frames a g in
  completion after = Normal tt
  /\ treeBranchParams (receiver after) = treeBranchParams a
  /\ treeJitters (receiver after) = treeJitters a
  /\ colors (receiver after) = colors a
  /\ color_needsUpdate (receiver after) = color_needsUpdate a
  /\ length (positions (receiver after)) = length (positions a)
  /\ (exists hx hy, state (receiver after) = set_hand hx hy (state a)).
Proof.
  intros after. subst after.
  destruct (animate_invariant
              (fun a' _ =>
                 treeBranchParams a' = treeBranchParams a
                 /\ treeJitters a' = treeJitters a
                 /\ colors a' = colors a
                 /\ color_needsUpdate a' = color_needsUpdate a
                 /\ length (positions a') = length (positions a)
                 /\ exists hx hy, state a' = set_hand hx hy (state a))
              frames a g) as (Hc & H).
  - intros time hand a' g' (Hb & Hj & Hcol & Hf & Hl & hx & hy & Hs).
    destruct (update_shape time hand a' g') as (P & ms & g1 & E & _ & HP & _).
    rewrite E. cbn [receiver fst snd treeBranchParams treeJitters colors color_needsUpdate
                    positions state].
    repeat (split; [congruence |]).
    rewrite Hs. destruct hand as [h |]; cbn [track].
    + eexists; eexists. reflexivity.
    + exists hx, hy. reflexivity.
  - repeat (split; [reflexivity |]).
    exists (handX (state a)), (handY (state a)). destruct (state a); reflexivity.
  - split; [exact Hc | exact H].
Qed.

Lemma read_stored (l : list R) (k : nat) : read (stored l) k = Math_fround (read l k).
Proof.
  unfold read, stored. rewrite list_lookup_fmap.
  destruct (l !! k); cbn; [reflexivity | now rewrite fround_0].
Qed.

Lemma particle_stored_step (P : list R) (i : nat) (p t : Vector3.t) :
  particle P i = integrate3 p t -> particle (stored P) i = integrate3_stored p t.
Proof.
  unfold particle, integrate3, integrate3_stored, integrate_stored.
  rewrite !read_stored. intros E. injection E as -> -> ->. reflexivity.
Qed.

(** X6. After a frame every particle of the position buffer, as the cells
    of the buffer hold it, is within 0.00002 of its former self moved one
    integrator step towards the target the field evaluator gives it for
    the current mode, whatever the hand tracker reports: with the particle
    and the target in the cube of the scene, its distance to that target
    is at most 0.94 times what it was, plus 0.00002. *)
Theorem update_moves_every_particle (time : R) (hand : option Point.t)
  (a : HolidayApp) (g : RNG) (i : nat) :
  (CONFIG.treeParticleCount * 3 <= length (positions a))%nat ->
  (i < CONFIG.treeParticleCount)%nat ->
  within 200 (particle (positions a) i) ->
  within 200 (target a i time) ->
  let p' := particle (stored (positions (receiver (update time hand a g)))) i in
  Vector3.distanceTo p' (integrate3 (particle (positions a) i) (target a i time)) <= 0.00002
  /\ Vector3.distanceTo p' (target a i time)
     <= 0.94 * Vector3.distanceTo (particle (positions a) i) (target a i time) + 0.00002.
Proof.
  intros Hlen Hi Hp Ht p'. subst p'.
  destruct (update_shape time hand a g) as (P & ms & g' & E & _ & _ & Hint).
  rewrite E. cbn [receiver fst snd positions].
  rewrite (particle_stored_step P i _ _ (Hint Hlen i Hi)).
  split; [apply integrate3_stored_near | apply integrate3_stored_contracts]; assumption.
Qed.

End Animation.

(** ** The eased quantities *)

Section Easing.

Context {T : THREE}.

(** X7. A hand reported at a point of the unit square gives a signal in
    [-1, 1] on both axes and moves the rotation target by at most 0.35
    (about the vertical axis) and 0.18 (about the horizontal one) away
    from the manual rotation; a frame without report keeps the whole
    interaction state. *)
Theorem update_tracks_hand (time : R) (h : Point.t) (a : HolidayApp) (g : RNG) :
  0 <= Point.x h <= 1 -> 0 <= Point.y h <= 1 ->
  let s' := state (receiver (update time (Some h) a g)) in
  handX s' = (Point.x h - 0.5) * 2
  /\ handY s' = (Point.y h - 0.5) * 2
  /\ -1 <= handX s' <= 1
  /\ -1 <= handY s' <= 1
  /\ Rabs (targetRotY s' - manualRotY (state a)) <= 0.35
  /\ Rabs (targetRotX s' - manualRotX (state a)) <= 0.18
  /\ state (receiver (update time None a g)) = state a.
Proof.
  intros Hx Hy s'. subst s'.
  destruct (update_shape time (Some h) a g) as (P & ms & g' & E & _).
  destruct (update_shape time None a g) as (P0 & ms0 & g0 & E0 & _).
  rewrite E, E0. cbn [receiver fst snd state track].
  unfold targetRotX, targetRotY. cbn [handX handY manualRotX manualRotY set_hand].
  repeat split; try lra; apply Rabs_le; lra.
Qed.

Lemma targetFloorY_range (m : Mode) : -140 <= targetFloorY m <= -52.
Proof. destruct m; cbn; lra. Qed.

Lemma targetHeartScale_range (m : Mode) (time : R) : 0 <= targetHeartScale m time <= 1.06.
Proof.
  unfold targetHeartScale, Math_sin. pose proof (SIN_bound (time * 2.5)) as [Hl Hu].
  destruct m; lra.
Qed.

Lemma update_eased_fields (time : R) (hand : option Point.t) (a : HolidayApp) (g : RNG) :
  let a' := receiver (update time hand a g) in
  galaxyFloor_position_y a'
  = lerp (galaxyFloor_position_y a) (targetFloorY (mode (state a))) 0.05
  /\ heart_scale a'
     = Vector3.setScalar
         (lerp (Vector3.x (heart_scale a)) (targetHeartScale (mode (state a)) time) 0.1)
  /\ heart_emissiveIntensity a' = 1.5 + Math_sin (time * 4) * 0.7
  /\ mainGroup_rotation_x a'
     = mainGroup_rotation_x a
       + (targetRotX (track hand (state a)) - mainGroup_rotation_x a) * 0.05
  /\ mainGroup_rotation_y a'
     = mainGroup_rotation_y a
       + (targetRotY (track hand (state a)) - mainGroup_rotation_y a) * 0.05
  /\ galaxyFloor_rotation_y a' = galaxyFloor_rotation_y a + 0.003
  /\ heart_rotation_y a' = heart_rotation_y a + 0.006
  /\ state a' = track hand (state a).
Proof.
  intros a'. subst a'.
  destruct (update_shape time hand a g) as (P & ms & g' & E & _).
  rewrite E. cbn. repeat split; reflexivity.
Qed.

(** X8. Any number of frames keep the floor's vertical offset between
    -140 and -52 and the heart's scale between 0 and 1.06, once they are
    there (as the init methods put them); the heart keeps one scale on its
    three axes and its glow stays between 0.8 and 2.2. *)
Theorem animate_keeps_ranges (time : R) (hand : option Point.t)
  (frames : list (R * option Point.t)) (a : HolidayApp) (g : RNG) :
  -140 <= galaxyFloor_position_y a <= -52 ->
  0 <= Vector3.x (heart_scale a) <= 1.06 ->
  let a' := receiver (animate ((time, hand) :: frames) a g) in
  -140 <= galaxyFloor_position_y a' <= -52
  /\ 0 <= Vector3.x (heart_scale a') <= 1.06
  /\ heart_scale a' = Vector3.setScalar (Vector3.x (heart_scale a'))
  /\ 0.8 <= heart_emissiveIntensity a' <= 2.2.
Proof.
  intros Hf Hh a'. subst a'. rewrite animate_cons.
  assert (Hstep : forall time hand a g,
             -140 <= galaxyFloor_position_y a <= -52 ->
             0 <= Vector3.x (heart_scale a) <= 1.06 ->
             let a' := receiver (update time hand a g) in
             -140 <= galaxyFloor_position_y a' <= -52
             /\ 0 <= Vector3.x (heart_scale a') <= 1.06
             /\ heart_scale a' = Vector3.setScalar (Vector3.x (heart_scale a'))
             /\ 0.8 <= heart_emissiveIntensity a' <= 2.2).
  { clear. intros time hand a g Hf Hh a'. subst a'.
    destruct (update_eased_fields time hand a g) as (Ef & Eh & Ee & _).
    rewrite Ef, Eh, Ee. cbn [Vector3.x Vector3.setScalar]. unfold lerp.
    pose proof (targetFloorY_range (mode (state a))).
    pose proof (targetHeartScale_range (mode (state a)) time).
    pose proof (SIN_bound (time * 4)) as [Hl Hu]. unfold Math_sin.
    repeat split; try reflexivity; lra. }
  apply (animate_invariant
           (fun a' _ =>
              -140 <= galaxyFloor_position_y a' <= -52
              /\ 0 <= Vector3.x (heart_scale a') <= 1.06
              /\ heart_scale a' = Vector3.setScalar (Vector3.x (heart_scale a'))
              /\ 0.8 <= heart_emissiveIntensity a' <= 2.2)).
  - intros time' hand' a' g' (Hf' & Hh' & _). apply Hstep; assumption.
  - apply Hstep; assumption.
Qed.

Lemma animate_mode (frames : list (R * option Point.t)) (a : HolidayApp) (g : RNG) :
  mode (state (receiver (animate frames a g))) = mode (state a).
Proof.
  destruct (animate_keeps_descriptors_aux frames a g) as (hx & hy & Hs).
  now rewrite Hs.
Qed.

End Easing.

Section Settling.

Context {T : THREE}.






End Settling.

(** ** The two fields *)

Section Fields.

Lemma Math_pow_unit_interval (x y : R) :
  0 < y -> y <> 2 -> 0 <= x < 1 -> 0 <= Math_pow x y < 1.
Proof.
  intros Hy Hy2 Hx. unfold Math_pow.
  destruct (Req_dec_T y 2) as [E | _]; [contradiction |].
  destruct (Rlt_dec 0 x) as [Hpos | _]; [| lra].
  unfold Rpower. split.
  - left. apply exp_pos.
  - rewrite <- exp_0. apply exp_increasing.
    assert (ln x < 0) by (rewrite <- ln_1; apply ln_increasing; lra).
    nra.
Qed.

Lemma cos2_sin2_scaled (x r : R) : (cos x * r) ^ 2 + (sin x * r) ^ 2 = r ^ 2.
Proof.
  pose proof (sin2_cos2 x) as H. unfold Rsqr in H.
  replace ((cos x * r) ^ 2 + (sin x * r) ^ 2)
    with ((sin x * sin x + cos x * cos x) * r ^ 2) by ring.
  rewrite H. ring.
Qed.

(** X12. In SCATTER mode every target lies on a vertical cylinder about
    the axis whose radius is between 30 and 150, no higher or lower than
    that radius: the scattered cloud stays in the box of half-side 150. *)
Theorem scatter_target_bounded (i : nat) (time : R) :
  let p := scatterTarget i time in
  exists r : R,
    30 <= r <= 150
    /\ Vector3.x p ^ 2 + Vector3.z p ^ 2 = r ^ 2
    /\ Rabs (Vector3.y p) <= r
    /\ Rabs (Vector3.x p) <= 150 /\ Rabs (Vector3.z p) <= 150.
Proof.
  intros p. subst p. unfold scatterTarget, Math_sin, Math_cos, Math_PI.
  cbn [Vector3.x Vector3.y Vector3.z].
  set (t := INR i / INR CONFIG.treeParticleCount).
  set (r := 90 + sin (t * 300 + time) * 60).
  assert (Hr : 30 <= r <= 150).
  { unfold r. pose proof (SIN_bound (t * 300 + time)) as [Hl Hu]. lra. }
  exists r. split; [exact Hr |]. split; [apply cos2_sin2_scaled |].
  pose proof (SIN_bound (t * 180 + time * 0.2)) as [Hl Hu].
  pose proof (SIN_bound (t * PI * 4 + time * 0.4)) as [Hl1 Hu1].
  pose proof (COS_bound (t * PI * 4 + time * 0.4)) as [Hl2 Hu2].
  repeat split; apply Rabs_le; nra.
Qed.

(** X13. In TREE mode, for stored parameters in the range generation
    gives them (tier in [0, 30), branch fraction in [0, 1)) and jitters of
    at most 1.5, every target lies within the tree: at less than 52 from
    the trunk axis once its jitter is taken off, and at a height between
    the floor limit -51.8 and 61.5. *)
Theorem tree_target_within_tree (i : nat) (time : R)
  (distAlongBranch tierIndex branchAngle : R) (isBranch : bool) (jx jy jz : R) :
  0 <= tierIndex < 30 -> 0 <= distAlongBranch < 1 -> -1.5 <= jy <= 1.5 ->
  let p := treeTarget i time distAlongBranch tierIndex branchAngle isBranch jx jy jz in
  (Vector3.x p - jx) ^ 2 + (Vector3.z p - jz) ^ 2 < 52 ^ 2
  /\ -51.8 <= Vector3.y p <= 61.5.
Proof.
  intros Ht Hd Hj p. subst p. unfold treeTarget.
  cbn [Vector3.x Vector3.y Vector3.z].
  unfold CONFIG.tiers, CONFIG.treeHeight, CONFIG.treeRadius, Math_sin, Math_cos, Math_max.
  set (tierT := tierIndex / 30).
  assert (HT : 0 <= tierT < 1) by (unfold tierT; lra).
  pose proof (Math_pow_unit_interval tierT 1.1 ltac:(lra) ltac:(lra) HT) as Hp.
  pose proof (Math_pow_unit_interval distAlongBranch 1.4 ltac:(lra) ltac:(lra) Hd) as Hq.
  set (A := branchAngle + _ + _).
  set (rad := distAlongBranch * (Math_pow tierT 1.1 * 52)).
  assert (Hrad : 0 <= rad < 52) by (unfold rad; nra).
  split.
  - replace (cos A * rad + jx - jx) with (cos A * rad) by ring.
    replace (sin A * rad + jz - jz) with (sin A * rad) by ring.
    rewrite cos2_sin2_scaled. nra.
  - split; [apply Rmax_r |].
    apply Rmax_lub; [| lra].
    pose proof (SIN_bound (time * 0.8 + tierIndex)) as [Hl Hu].
    nra.
Qed.

End Fields.

(** ** Pointer gestures *)

Section Gestures.

Implicit Types (e : PointerEvent) (s : AppState).

Lemma dispatch_all_app s (l1 l2 : list PointerInput) :
  dispatch_all s (l1 ++ l2) = dispatch_all (dispatch_all s l1) l2.
Proof. unfold dispatch_all. apply foldl_app. Qed.

Lemma last_position_cons (start : Point.t) e (l : list PointerEvent) :
  last_position start (e :: l) = last_position (Point.mk (clientX e) (clientY e)) l.
Proof.
  unfold last_position. destruct l as [|e' l']; [reflexivity |].
  change (last (e :: e' :: l')) with (last (e' :: l')).
  destruct (last (e' :: l')) eqn:E; [reflexivity |].
  apply last_None in E. discriminate E.
Qed.

Lemma onPointerMove_down e s :
  isPointerDown s = true ->
  onPointerMove e s
  = set_pointer (clientX e) (clientY e)
      (set_manualRot (manualRotX s + (clientY e - pointerY s) * 0.005)
                     (manualRotY s + (clientX e - pointerX s) * 0.005) s).
Proof. intros Hdown. unfold onPointerMove. now rewrite Hdown. Qed.

Lemma drag_effect (l : list PointerEvent) s :
  isPointerDown s = true ->
  let s' := dispatch_all s (moves l) in
  isPointerDown s' = true
  /\ mode s' = mode s
  /\ clickStartPos s' = clickStartPos s
  /\ theme s' = theme s /\ handX s' = handX s /\ handY s' = handY s
  /\ Point.mk (pointerX s') (pointerY s') = last_position (Point.mk (pointerX s) (pointerY s)) l
  /\ manualRotY s' - manualRotY s = (pointerX s' - pointerX s) * 0.005
  /\ manualRotX s' - manualRotX s = (pointerY s' - pointerY s) * 0.005.
Proof.
  revert s. induction l as [|e l IH]; intros s Hdown.
  - cbn. repeat split; try reflexivity; try assumption; lra.
  - change (dispatch_all s (moves (e :: l)))
      with (dispatch_all (onPointerMove e s) (moves l)).
    rewrite last_position_cons.
    destruct (IH (onPointerMove e s)) as (H1 & H2 & H3 & H4 & H5 & H6 & H7 & H8 & H9).
    { rewrite onPointerMove_down by exact Hdown. exact Hdown. }
    rewrite (onPointerMove_down e s Hdown) in H1, H2, H3, H4, H5, H6, H7, H8, H9 |- *.
    cbn in H2, H3, H4, H5, H6, H7, H8, H9.
    repeat split; try assumption; lra.
Qed.

(** X14. A drag adds to the manual rotation 0.005 times the pointer's
    displacement, whatever the path: after a recorded pointer-down and any
    run of pointer-moves, the rotation about the vertical axis has grown
    by 0.005 times the horizontal distance from the pointer's position at
    the start to the last move, likewise the other axis with the vertical
    distance, and neither the mode nor the recorded start has changed. *)
Theorem drag_adds_displacement (l : list PointerEvent) s :
  isPointerDown s = true ->
  let s' := dispatch_all s (moves l) in
  let stop := last_position (Point.mk (pointerX s) (pointerY s)) l in
  manualRotY s' = manualRotY s + (Point.x stop - pointerX s) * 0.005
  /\ manualRotX s' = manualRotX s + (Point.y stop - pointerY s) * 0.005
  /\ mode s' = mode s
  /\ clickStartPos s' = clickStartPos s
  /\ isPointerDown s' = true.
Proof.
  intros Hdown s' stop. subst s' stop.
  destruct (drag_effect l s Hdown) as (H1 & H2 & H3 & _ & _ & _ & H7 & H8 & H9).
  rewrite <- H7. cbn [Point.x Point.y]. repeat split; try assumption; lra.
Qed.

(** X15. Only the two end points of a gesture decide between click and
    drag: after a pointer-down the handler records, any run of
    pointer-moves and a pointer-up, the mode has toggled when the up
    position is less than 5 from the down position and is unchanged
    otherwise; in both cases the pointer is released. *)
Theorem gesture_decided_by_end_points (e_down e_up : PointerEvent)
  (l : list PointerEvent) s :
  tagName e_down <> "SELECT" -> tagName e_down <> "BUTTON" -> tagName e_down <> "OPTION" ->
  let s' := dispatch_all s (pointerdown e_down :: moves l ++ [pointerup e_up]) in
  let displacement :=
    sqrt ((clientX e_up - clientX e_down) ^ 2 + (clientY e_up - clientY e_down) ^ 2) in
  (displacement < 5 -> mode s' = toggled (mode s))
  /\ (5 <= displacement -> mode s' = mode s)
  /\ isPointerDown s' = false.
Proof.
  intros H1 H2 H3 s' displacement. subst s'.
  change (dispatch_all s (pointerdown e_down :: moves l ++ [pointerup e_up]))
    with (dispatch_all (onPointerDown e_down s) (moves l ++ [pointerup e_up])).
  rewrite dispatch_all_app.
  destruct (onPointerDown_registered e_down s H1 H2 H3) as (Hdown & Hstart & Hmode).
  destruct (drag_effect l (onPointerDown e_down s) Hdown) as (Hd & Hm & Hc & _).
  set (s1 := dispatch_all (onPointerDown e_down s) (moves l)) in *.
  cbn [dispatch_all foldl dispatch].
  assert (Hdist : clickDistance e_up s1 = displacement).
  { rewrite clickDistance_sqrt, Hc, Hstart. reflexivity. }
  repeat split.
  - intros Hlt. rewrite onPointerUp_click by (rewrite ?Hdist; assumption).
    cbn [mode set_mode]. now rewrite Hm, Hmode.
  - intros Hge. rewrite onPointerUp_drag by (rewrite ?Hdist; assumption).
    cbn [mode set_isPointerDown]. now rewrite Hm, Hmode.
  - destruct (Rlt_dec (clickDistance e_up s1) 5) as [Hlt | Hge].
    + now rewrite onPointerUp_click by assumption.
    + now rewrite onPointerUp_drag by (assumption || lra).
Qed.

Lemma click_effect (x y : R) s :
  dispatch_all s (click x y)
  = set_mode (toggled (mode s))
      (set_isPointerDown false
         (set_pointer x y (set_clickStartPos (Point.mk x y) (set_isPointerDown true s)))).
Proof.
  unfold click. cbn [dispatch_all foldl dispatch].
  set (e := {| clientX := x; clientY := y; tagName := "CANVAS" |}).
  assert (Hs : onPointerDown e s
               = set_pointer x y (set_clickStartPos (Point.mk x y) (set_isPointerDown true s)))
    by reflexivity.
  rewrite Hs. rewrite onPointerUp_click.
  - reflexivity.
  - reflexivity.
  - rewrite clickDistance_sqrt. cbn.
    replace ((x - x) * ((x - x) * 1) + (y - y) * ((y - y) * 1)) with 0 by ring.
    rewrite sqrt_0. lra.
Qed.

(** X16. A click on the canvas toggles the mode and two clicks, wherever
    they land, bring it back; clicks leave the manual rotation and the
    theme alone. *)
Theorem two_clicks_restore_mode (x1 y1 x2 y2 : R) s :
  mode (dispatch_all s (click x1 y1)) = toggled (mode s)
  /\ mode (dispatch_all s (click x1 y1 ++ click x2 y2)) = mode s
  /\ manualRotX (dispatch_all s (click x1 y1 ++ click x2 y2)) = manualRotX s
  /\ manualRotY (dispatch_all s (click x1 y1 ++ click x2 y2)) = manualRotY s
  /\ theme (dispatch_all s (click x1 y1 ++ click x2 y2)) = theme s.
Proof.
  rewrite dispatch_all_app, !click_effect. cbn.
  repeat split. destruct (mode s); reflexivity.
Qed.

End Gestures.

(** ** Buffers of three components *)

Section Triples.

Lemma triple_write3_same (i : nat) (v0 v1 v2 : R) (p : list R) :
  (i * 3 + 2 < length p)%nat ->
  triple (write3 (i * 3) v0 v1 v2 p) i = Some (Vector3.mk v0 v1 v2).
Proof.
  intros Hi. unfold triple, write3.
  rewrite (list_lookup_insert_eq _ (i * 3 + 2)) by (rewrite !length_insert; lia).
  rewrite (list_lookup_insert_ne _ (i * 3 + 2) (i * 3 + 1)) by lia.
  rewrite (list_lookup_insert_eq _ (i * 3 + 1)) by (rewrite length_insert; lia).
  rewrite !(list_lookup_insert_ne _ _ (i * 3)) by lia.
  rewrite list_lookup_insert_eq by lia. reflexivity.
Qed.

Lemma triple_write3_other (i j : nat) (v0 v1 v2 : R) (p : list R) :
  i <> j -> triple (write3 (j * 3) v0 v1 v2 p) i = triple p i.
Proof.
  intros Hne. unfold triple, write3. now rewrite !list_lookup_insert_ne by lia.
Qed.

End Triples.

(** ** Jitters, start positions and colours *)

Section Palette.

Context {T : THREE}.

Lemma themes_have_four_ornaments (name : string) (t : Theme) :
  THEMES !! name = Some t -> length (ornaments t) = 4%nat.
Proof.
  revert name t. change (map_Forall (fun _ t => length (ornaments t) = 4%nat) THEMES).
  apply map_Forall_to_list. vm_compute. repeat constructor.
Qed.

Lemma element_in_palette (array : list Z) (u : R) :
  (0 < length array)%nat -> 0 <= u < 1 ->
  exists hex, element array (Math_floor (u * INR (length array))) = Some hex
              /\ hex ∈ array.
Proof.
  intros Hlen Hu. unfold element, Math_floor.
  set (k := Zfloor (u * INR (length array))).
  assert (HL : 0 < INR (length array)) by (apply lt_0_INR; exact Hlen).
  pose proof (Zfloor_bound (u * INR (length array))) as [Hlo Hhi]. fold k in Hlo, Hhi.
  assert (Hk0 : (0 <= k)%Z) by (apply Zfloor_lub; simpl; nra).
  assert (Hk1 : (k < Z.of_nat (length array))%Z).
  { apply lt_IZR. rewrite <- INR_IZR_INZ. nra. }
  assert (E : ltb (IZR k) 0 = false) by (apply ltb_false; apply (IZR_le 0); exact Hk0).
  rewrite E, ZfloorZ.
  destruct (lookup_lt_is_Some_2 array (Z.to_nat k)) as [hex Hhex]; [lia |].
  exists hex. split; [exact Hhex |]. apply list_elem_of_lookup. eauto.
Qed.

(** With a palette of the table and draws in [0, 1) the colour rule
    returns one of the palette's colours. *)
Lemma particleColor_in_theme {St} (name : string) (t : Theme) (isBranch : bool) (r : R)
  (s : St) (g : RNG) :
  THEMES !! name = Some t -> unit_draws g ->
  exists c g', particleColor (Own t) isBranch r s g = (Normal c, s, g')
               /\ draws g' = draws g /\ theme_colour t isBranch c.
Proof.
  intros Ht Hg. unfold particleColor, theme_colour.
  destruct isBranch; [| destruct (ltb r 0.85)].
  - eexists; eexists. repeat split; reflexivity.
  - eexists; eexists. split; [reflexivity |]. split; [reflexivity |].
    left. eexists. split; [| reflexivity]. pose proof (Hg (cursor g)). lra.
  - destruct (element_in_palette (ornaments t) (draws g (cursor g))) as (hex & E & Hin).
    { rewrite (themes_have_four_ornaments name t Ht). lia. }
    { apply Hg. }
    eexists; eexists. split; [reflexivity |]. split; [reflexivity |].
    right. exists hex. split; [exact Hin |]. cbn. now rewrite E.
Qed.

Lemma colour_at_write3_same (i : nat) (c : Color.t) (p : list R) :
  (i * 3 + 2 < length p)%nat ->
  colour_at (write3 (i * 3) (Color.r c) (Color.g c) (Color.b c) p) i = Some c.
Proof.
  intros Hi. unfold colour_at. rewrite triple_write3_same by exact Hi.
  destruct c; reflexivity.
Qed.

Lemma colour_at_write3_other (i j : nat) (v0 v1 v2 : R) (p : list R) :
  i <> j -> colour_at (write3 (j * 3) v0 v1 v2 p) i = colour_at p i.
Proof. intros Hne. unfold colour_at. now rewrite triple_write3_other. Qed.

Lemma updateTreeColor_in_theme (name : string) (t : Theme) (i : nat)
  (a : HolidayApp) (g : RNG) :
  THEMES !! name = Some t -> unit_draws g ->
  exists c g',
    updateTreeColor (Own t) i a g
    = (Normal tt,
       set_colors (write3 (i * 3) (Color.r c) (Color.g c) (Color.b c) (colors a)) a, g')
    /\ draws g' = draws g
    /\ theme_colour t (strict_eqb (read (treeBranchParams a) (i * 4 + 3)) 1) c.
Proof.
  intros Ht Hg. unfold updateTreeColor, bind, this, Math_random.
  destruct (particleColor_in_theme name t
              (strict_eqb (read (treeBranchParams a) (i * 4 + 3)) 1)
              (draws g (cursor g)) a (next g) Ht (unit_draws_next g Hg))
    as (c & g' & E & Hd & Hc).
  rewrite E. exists c, g'. split; [reflexivity |]. split; [exact Hd | exact Hc].
Qed.

Lemma recolour_loop (name : string) (t : Theme) (n : nat) (a : HolidayApp) (g : RNG) :
  THEMES !! name = Some t -> unit_draws g ->
  (n * 3 <= length (colors a))%nat ->
  exists cs g',
    for_range 0 n (updateTreeColor (Own t)) a g = (Normal tt, set_colors cs a, g')
    /\ length cs = length (colors a)
    /\ forall i : nat, (i < n)%nat -> recoloured t (set_colors cs a) i.
Proof.
  intros Ht Hg Hlen.
  destruct (for_range_invariant
              (fun j a' g' =>
                 draws g' = draws g
                 /\ exists cs, a' = set_colors cs a
                               /\ length cs = length (colors a)
                               /\ forall i : nat, (i < j)%nat -> recoloured t a' i)
              (updateTreeColor (Own t)) n 0 a g)
    as (a' & g' & E & _ & cs & -> & Hl & Hall).
  - split; [reflexivity |]. exists (colors a).
    split; [destruct a; reflexivity |]. split; [reflexivity |]. intros i Hi. lia.
  - intros j s g0 Hj (Hd & cs & -> & Hl & Hprev).
    destruct (updateTreeColor_in_theme name t j (set_colors cs a) g0 Ht) as (c & g1 & E & Hd1 & Hc).
    { intros k. rewrite Hd. apply Hg. }
    exists (set_colors (write3 (j * 3) (Color.r c) (Color.g c) (Color.b c) cs) a), g1.
    split; [exact E |]. split; [congruence |].
    eexists. split; [reflexivity |]. split; [now rewrite write3_length |].
    intros i Hi. unfold recoloured. cbn [colors set_colors treeBranchParams].
    destruct (Nat.eq_dec i j) as [-> | Hne].
    + exists c. split; [apply colour_at_write3_same; lia | exact Hc].
    + destruct (Hprev i ltac:(lia)) as (c' & Hat & Hc').
      exists c'. split; [now rewrite colour_at_write3_other | exact Hc'].
  - exists cs, g'. split; [exact E |]. split; [exact Hl | exact Hall].
Qed.

(** X17. Choosing a theme of the table recolours the whole tree with it
    and with nothing else: with draws in [0, 1) the handler returns, the
    theme is the active one, the colour attribute is flagged for upload,
    the parameters and jitters are kept, and every particle carries a
    colour of that palette that fits its branch flag (the brightened glow
    for a branch particle; for a needle the needle colour with a lightness
    shift below 0.025 or one of the four ornaments, dimmed). *)
Theorem theme_change_recolours (value : string) (t : Theme) (a : HolidayApp) (g : RNG) :
  THEMES !! value = Some t -> unit_draws g ->
  (CONFIG.treeParticleCount * 3 <= length (colors a))%nat ->
  exists a' g',
    onThemeChange value a g = (Normal tt, a', g')
    /\ theme (state a') = value
    /\ color_needsUpdate a' = true
    /\ treeBranchParams a' = treeBranchParams a
    /\ treeJitters a' = treeJitters a
    /\ length (colors a') = length (colors a)
    /\ forall i : nat, (i < CONFIG.treeParticleCount)%nat -> recoloured t a' i.
Proof.
  intros Ht Hg Hlen. unfold onThemeChange, updateTreeColors, bind, assign, this.
  cbn [state set_state theme set_theme]. unfold THEMES_get. rewrite Ht.
  destruct (recolour_loop value t CONFIG.treeParticleCount
              (set_state (set_theme value (state a)) a) g Ht Hg Hlen)
    as (cs & g' & E & Hl & Hall).
  rewrite E. eexists; eexists. split; [reflexivity |].
  cbn [state set_state set_colors set_color_needsUpdate theme set_theme color_needsUpdate
       treeBranchParams treeJitters colors].
  repeat (split; [first [reflexivity | exact Hl] |]).
  intros i Hi. exact (Hall i Hi).
Qed.

End Palette.

Section Seeds.

Context {T : THREE}.

(** One turn of the generation loop with a palette of the table: what it
    stores in the three buffers beside the colours. *)
Lemma initTreeParticle_buffers (t : Theme) (i : nat) (a : HolidayApp) (g : RNG) :
  let c := cursor g in
  let jitterScale := if ltb (draws g (3 + c)%nat) 0.3 then 0.3 else 3.0 in
  exists a' g',
    initTreeParticle (Own t) i a g = (Normal tt, a', g')
    /\ draws g' = draws g
    /\ positions a'
       = write3 (i * 3) ((draws g c - 0.5) * 400) ((draws g (1 + c)%nat - 0.5) * 400)
                ((draws g (2 + c)%nat - 0.5) * 400) (positions a)
    /\ treeJitters a'
       = write3 (i * 3) ((draws g (7 + c)%nat - 0.5) * jitterScale)
                ((draws g (8 + c)%nat - 0.5) * jitterScale)
                ((draws g (9 + c)%nat - 0.5) * jitterScale) (treeJitters a)
    /\ treeBranchParams a'
       = write4 (i * 4) (draws g (6 + c)%nat) (tierOf (draws g (4 + c)%nat))
                (branchAngleOf (tierOf (draws g (4 + c)%nat)) (draws g (5 + c)%nat))
                (if ltb (draws g (3 + c)%nat) 0.3 then 1 else 0) (treeBranchParams a).
Proof.
  intros c jitterScale. subst c jitterScale.
  unfold initTreeParticle, bind, Math_random, assign.
  match goal with
  | |- context [particleColor (Own t) ?b ?r ?s ?g0] =>
      destruct (particleColor_Own t b r s g0) as (col & g' & E & Hd); rewrite E
  end.
  eexists; eexists. split; [reflexivity |]. split; [exact Hd |].
  repeat split; reflexivity.
Qed.

Lemma generation_loop_seeds (t : Theme) (n : nat) (a : HolidayApp) (g : RNG) :
  unit_draws g ->
  length (treeBranchParams a) = (n * 4)%nat ->
  length (treeJitters a) = (n * 3)%nat ->
  length (positions a) = (n * 3)%nat ->
  exists a' g',
    for_range 0 n (initTreeParticle (Own t)) a g = (Normal tt, a', g')
    /\ length (positions a') = (n * 3)%nat
    /\ forall i : nat, (i < n)%nat -> generated_particle a' i.
Proof.
  intros Hg Hb Hj Hp.
  destruct (for_range_invariant
              (fun j a' g' =>
                 draws g' = draws g
                 /\ length (treeBranchParams a') = (n * 4)%nat
                 /\ length (treeJitters a') = (n * 3)%nat
                 /\ length (positions a') = (n * 3)%nat
                 /\ forall i : nat, (i < j)%nat -> generated_particle a' i)
              (initTreeParticle (Own t)) n 0 a g)
    as (a' & g' & E & _ & _ & _ & Hlp & Hall).
  - repeat (split; [first [reflexivity | assumption] |]). intros i Hi. lia.
  - intros j s g0 Hj0 (Hd & Lb & Lj & Lp & Hprev).
    destruct (initTreeParticle_buffers t j s g0) as (s' & g1 & E & Hd1 & Ep & Ej & Eb).
    exists s', g1. split; [exact E |]. split; [congruence |].
    rewrite Ep, Ej, Eb.
    split; [now rewrite write4_length |].
    split; [now rewrite write3_length |]. split; [now rewrite write3_length |].
    intros i Hi. unfold generated_particle. rewrite Ep, Ej, Eb.
    destruct (Nat.eq_dec i j) as [-> | Hne].
    + destruct (write4_lookup (j * 4) (draws g0 (6 + cursor g0)%nat)
                  (tierOf (draws g0 (4 + cursor g0)%nat))
                  (branchAngleOf (tierOf (draws g0 (4 + cursor g0)%nat))
                                 (draws g0 (5 + cursor g0)%nat))
                  (if ltb (draws g0 (3 + cursor g0)%nat) 0.3 then 1 else 0)
                  (treeBranchParams s)) as (_ & _ & _ & L3); [lia |].
      rewrite L3, !triple_write3_same by lia.
      eexists; eexists; eexists. repeat (split; [reflexivity |]).
      assert (Hu : forall k, 0 <= draws g0 k < 1) by (intros k; rewrite Hd; apply Hg).
      pose proof (Hu (cursor g0)). pose proof (Hu (1 + cursor g0)%nat).
      pose proof (Hu (2 + cursor g0)%nat). pose proof (Hu (7 + cursor g0)%nat).
      pose proof (Hu (8 + cursor g0)%nat). pose proof (Hu (9 + cursor g0)%nat).
      split.
      * destruct (ltb (draws g0 (3 + cursor g0)%nat) 0.3); [left | right];
          (split; [reflexivity |]); unfold within; cbn [Vector3.x Vector3.y Vector3.z]; lra.
      * unfold within; cbn [Vector3.x Vector3.y Vector3.z]; lra.
    + destruct (Hprev i ltac:(lia)) as (flag & jit & st & H0 & H1 & H2 & H3).
      exists flag, jit, st.
      rewrite write4_lookup_other by lia. rewrite !triple_write3_other by exact Hne.
      tauto.
  - exists a', g'. split; [exact E |]. split; [exact Hlp | exact Hall].
Qed.


End Seeds.

(** ** The floor ring, the dust and the pool at start *)

Section Scenery.

Context {T : THREE} {H : THREE_HSL}.

Lemma sin_half_turn (t : R) : 0 <= t < 1 -> 0 <= sin (t * PI) <= 1.
Proof.
  intros Ht. pose proof PI_RGT_0. split.
  - apply sin_ge_0; nra.
  - apply SIN_bound.
Qed.

Lemma annulus (A d : R) : (cos A * d * 1.6) ^ 2 + (sin A * d * 1.6) ^ 2 = (d * 1.6) ^ 2.
Proof.
  replace (cos A * d * 1.6) with (cos A * (d * 1.6)) by ring.
  replace (sin A * d * 1.6) with (sin A * (d * 1.6)) by ring.
  apply cos2_sin2_scaled.
Qed.

Lemma connector_placed {St} (i : nat) (t : R) (s : St) (g : RNG) :
  0 <= t < 1 -> unit_draws g -> (i mod 100 <? 20)%nat = true ->
  exists p g',
    Galaxy.connector i t s g = (Normal p, s, g')
    /\ draws g' = draws g
    /\ fst (band i) <= Galaxy.dist p < snd (band i)
    /\ -2 <= Galaxy.py p < 14.
Proof.
  intros Ht Hg Hc. unfold Galaxy.connector, bind, Math_random, ret.
  eexists; eexists. split; [reflexivity |]. split; [reflexivity |].
  cbn [Galaxy.dist Galaxy.py]. unfold band. rewrite Hc.
  pose proof (Hg (S (cursor g))) as Hu. cbn [next cursor draws].
  destruct (Nat.eqb (i mod 2) 0); cbn [fst snd]; lra.
Qed.

Lemma ring_placed {St} (i : nat) (t : R) (s : St) (g : RNG) :
  0 <= t < 1 -> unit_draws g -> (i mod 100 <? 20)%nat = false ->
  exists p g',
    Galaxy.ring i t s g = (Normal p, s, g')
    /\ draws g' = draws g
    /\ fst (band i) <= Galaxy.dist p < snd (band i)
    /\ -2 <= Galaxy.py p < 14.
Proof.
  intros Ht Hg Hc. unfold Galaxy.ring, band. rewrite Hc.
  pose proof (sin_half_turn t Ht) as Hs.
  pose proof (Hg (S (cursor g))) as Hu.
  assert (H3 : (i mod 3 < 3)%nat) by (apply Nat.mod_upper_bound; lia).
  destruct (i mod 3)%nat as [|[|[|k]]]; [| | | lia];
    cbn [Galaxy.ringConfig lookup list_lookup Galaxy.type Galaxy.inner Galaxy.outer
         Galaxy.height Galaxy.colorBase];
    unfold bind, Math_random, ret, Math_sin, Math_PI;
    cbn [next cursor draws];
    destruct (gtb (draws g (S (S (cursor g)))) 0.8);
    (eexists; eexists; split; [reflexivity |]; split; [reflexivity |]);
    cbn [Galaxy.dist Galaxy.py fst snd]; nra.
Qed.

Lemma initGalaxyParticle_placed (i : nat) (b : Galaxy.buffers) (g : RNG) :
  unit_draws g ->
  exists p g',
    Galaxy.initGalaxyParticle i b g
    = (Normal tt,
       Galaxy.mk
         (write3 (i * 3) (Math_fround (cos (Galaxy.angle p) * Galaxy.dist p * 1.6))
                 (Math_fround (Galaxy.py p))
                 (Math_fround (sin (Galaxy.angle p) * Galaxy.dist p * 1.6)) (Galaxy.pos b))
         (write3 (i * 3) (Math_fround (Color.r (Galaxy.color p)))
                 (Math_fround (Color.g (Galaxy.color p)))
                 (Math_fround (Color.b (Galaxy.color p))) (Galaxy.colors b)),
       g')
    /\ draws g' = draws g
    /\ fst (band i) <= Galaxy.dist p < snd (band i)
    /\ -2 <= Galaxy.py p < 14.
Proof.
  intros Hg. unfold Galaxy.initGalaxyParticle, bind, Math_random.
  destruct (i mod 100 <? 20)%nat eqn:Hc.
  - destruct (connector_placed i (draws g (cursor g)) b (next g) (Hg _)
                (unit_draws_next g Hg) Hc) as (p & g' & E & Hd & Hb & Hy).
    rewrite E. exists p, g'. split; [reflexivity |]. auto.
  - destruct (ring_placed i (draws g (cursor g)) b (next g) (Hg _)
                (unit_draws_next g Hg) Hc) as (p & g' & E & Hd & Hb & Hy).
    rewrite E. exists p, g'. split; [reflexivity |]. auto.
Qed.

Lemma band_range (i : nat) : 10 <= fst (band i) /\ snd (band i) <= 275.
Proof.
  unfold band. destruct (i mod 100 <? 20)%nat.
  - destruct (Nat.eqb (i mod 2) 0); cbn [fst snd]; lra.
  - destruct (i mod 3)%nat as [|[|k]]; cbn [fst snd]; lra.
Qed.

(** A coordinate of the floor is stored within [2 ^ -16] of the number
    assigned. *)
Lemma fround_floor (x : R) : -440 <= x <= 440 -> Rabs (Math_fround x - x) <= / 65536.
Proof.
  intros Hx. eapply Rle_trans; [apply (fround_error x 8); [| lia] |].
  - apply Rabs_def1; simpl; lra.
  - simpl. lra.
Qed.

Lemma fround_height (y : R) : -2 <= y < 14 -> -2 <= Math_fround y <= 14.
Proof.
  intros Hy.
  assert (Ha : Rabs y < powerRZ 2 (3 + 1)) by (apply Rabs_def1; simpl; lra).
  split.
  - apply (fround_ge y (-2) 3 (-2097152)); [exact Ha | lia | simpl; lra | lra].
  - apply (fround_le y 14 3 14680064); [exact Ha | lia | simpl; lra | lra].
Qed.

(** The cells of a floor particle assigned the point at distance
    [1.6 * d] and angle [A] of the axis. *)
Lemma floor_cells_placed (lo hi A d y : R) :
  10 <= lo -> hi <= 275 -> lo <= d < hi -> -2 <= y < 14 ->
  let p := Vector3.mk (Math_fround (cos A * d * 1.6)) (Math_fround y)
                      (Math_fround (sin A * d * 1.6)) in
  lo * 1.6 - 0.0001 <= axisDistance p <= hi * 1.6 + 0.0001
  /\ -2 <= Vector3.y p <= 14.
Proof.
  intros Hlo Hhi Hd Hy p. subst p. cbn [Vector3.y].
  split; [| apply fround_height; exact Hy].
  unfold axisDistance, Vector3.length, Math_sqrt. cbn [Vector3.x Vector3.y Vector3.z].
  set (x := cos A * d * 1.6). set (z := sin A * d * 1.6).
  pose proof (COS_bound A) as [Hc1 Hc2]. pose proof (SIN_bound A) as [Hs1 Hs2].
  assert (Hx : -440 <= x <= 440) by (unfold x; nra).
  assert (Hz : -440 <= z <= 440) by (unfold z; nra).
  pose proof (fround_floor x Hx) as Ex. pose proof (fround_floor z Hz) as Ez.
  assert (Hr : sqrt (x ^ 2 + 0 ^ 2 + z ^ 2) = d * 1.6).
  { replace (x ^ 2 + 0 ^ 2 + z ^ 2) with ((d * 1.6) ^ 2)
      by (rewrite <- (annulus A d); unfold x, z; ring).
    apply sqrt_pow2. lra. }
  assert (He : sqrt ((Math_fround x - x) ^ 2 + 0 ^ 2 + (Math_fround z - z) ^ 2)
               <= 2 * / 65536).
  { apply norm_small; [exact Ex | rewrite Rabs_R0; lra | exact Ez]. }
  assert (He' : sqrt ((x - Math_fround x) ^ 2 + 0 ^ 2 + (z - Math_fround z) ^ 2)
                <= 2 * / 65536).
  { replace ((x - Math_fround x) ^ 2 + 0 ^ 2 + (z - Math_fround z) ^ 2)
      with ((Math_fround x - x) ^ 2 + 0 ^ 2 + (Math_fround z - z) ^ 2) by ring.
    exact He. }
  pose proof (norm_triangle x 0 z (Math_fround x - x) 0 (Math_fround z - z)) as Hup.
  pose proof (norm_triangle (Math_fround x) 0 (Math_fround z)
                (x - Math_fround x) 0 (z - Math_fround z)) as Hdown.
  replace ((x + (Math_fround x - x)) ^ 2 + (0 + 0) ^ 2 + (z + (Math_fround z - z)) ^ 2)
    with (Math_fround x * Math_fround x + 0 * 0 + Math_fround z * Math_fround z)
    in Hup by ring.
  replace ((Math_fround x + (x - Math_fround x)) ^ 2 + (0 + 0) ^ 2
           + (Math_fround z + (z - Math_fround z)) ^ 2)
    with (x ^ 2 + 0 ^ 2 + z ^ 2) in Hdown by ring.
  replace (Math_fround x ^ 2 + 0 ^ 2 + Math_fround z ^ 2)
    with (Math_fround x * Math_fround x + 0 * 0 + Math_fround z * Math_fround z)
    in Hdown by ring.
  lra.
Qed.

(** The height 14 is reached: in the first ring, half-way out, the draw
    0.99999999 gives the height 13.99999996, stored as 14. *)
Lemma height_reaches_14 : Math_fround ((0.99999999 - 0.5) * 4 + 1 * 12.0) = 14.
Proof.
  rewrite (fround_eq _ 3 14680064).
  - simpl. lra.
  - rewrite Rabs_pos_eq by lra. simpl. lra.
  - lia.
  - simpl. lra.
Qed.

Lemma galaxy_loop (n : nat) (b : Galaxy.buffers) (g : RNG) :
  unit_draws g -> length (Galaxy.pos b) = (n * 3)%nat ->
  exists b' g',
    for_range 0 n Galaxy.initGalaxyParticle b g = (Normal tt, b', g')
    /\ length (Galaxy.pos b') = (n * 3)%nat
    /\ forall i : nat, (i < n)%nat -> floor_particle_placed (Galaxy.pos b') i.
Proof.
  intros Hg Hlen.
  destruct (for_range_invariant
              (fun j b' g' =>
                 draws g' = draws g
                 /\ length (Galaxy.pos b') = (n * 3)%nat
                 /\ forall i : nat, (i < j)%nat -> floor_particle_placed (Galaxy.pos b') i)
              Galaxy.initGalaxyParticle n 0 b g) as (b' & g' & E & _ & Hl & Hall).
  - split; [reflexivity |]. split; [exact Hlen |]. intros i Hi. lia.
  - intros j s g0 Hj (Hd & Hl & Hprev).
    destruct (initGalaxyParticle_placed j s g0) as (p & g1 & E & Hd1 & Hb & Hy).
    { intros k. rewrite Hd. apply Hg. }
    eexists; eexists. split; [exact E |]. split; [congruence |].
    cbn [Galaxy.pos]. split; [now rewrite write3_length |].
    intros i Hi. unfold floor_particle_placed.
    destruct (Nat.eq_dec i j) as [-> | Hne].
    + rewrite triple_write3_same by lia.
      eexists. split; [reflexivity |].
      destruct (band_range j) as [Hlo Hhi].
      exact (floor_cells_placed _ _ (Galaxy.angle p) (Galaxy.dist p) (Galaxy.py p)
               Hlo Hhi Hb Hy).
    + destruct (Hprev i ltac:(lia)) as (q & Hq & Hrest).
      exists q. rewrite triple_write3_other by exact Hne. auto.
  - exists b', g'. auto.
Qed.

(** X19. With draws in [0, 1), [initGalaxyFloor] returns and its position
    buffer holds every floor particle on the disc it belongs to: at 1.6
    times a distance of its band from the axis, to one ten-thousandth (the
    three rings 10-60, 74-135 and 175-275 and, for the particles whose
    index modulo 100 is below 20, the two gaps 58-76 and 135-180 between
    them), and at a height from -2 to 14, both reached at most. *)
Theorem galaxy_floor_placed (b : Galaxy.buffers) (g : RNG) :
  unit_draws g ->
  exists b' g',
    Galaxy.initGalaxyFloor b g = (Normal tt, b', g')
    /\ length (Galaxy.pos b') = (CONFIG.galaxyParticleCount * 3)%nat
    /\ forall i : nat, (i < CONFIG.galaxyParticleCount)%nat ->
         floor_particle_placed (Galaxy.pos b') i.
Proof.
  intros Hg. unfold Galaxy.initGalaxyFloor, bind, assign.
  apply galaxy_loop; [exact Hg |]. cbn [Galaxy.pos]. apply length_replicate.
Qed.

(** A coordinate of the dust stays from -1000 to 1000 in its cell. *)
Lemma fround_dust (x : R) : -1000 <= x <= 1000 -> -1000 <= Math_fround x <= 1000.
Proof.
  intros Hx.
  apply (fround_within x 1000 9 16384000); [simpl; lra | lia | simpl; lra | exact Hx].
Qed.

(** The face 1000 is reached: the draw 0.99999999 gives 999.99998,
    stored as 1000. *)
Lemma dust_reaches_1000 : Math_fround ((0.99999999 - 0.5) * 2000) = 1000.
Proof.
  rewrite (fround_eq _ 9 16384000).
  - simpl. lra.
  - rewrite Rabs_pos_eq by lra. simpl. lra.
  - lia.
  - simpl. lra.
Qed.

Lemma dust_loop (n : nat) (pos : list R) (g : RNG) :
  unit_draws g -> length pos = n ->
  exists pos' g',
    for_range 0 n
      (fun i => u <- Math_random ;;
                assign (fun pos => <[i := Math_fround ((u - 0.5) * 2000)]> pos))
      pos g
    = (Normal tt, pos', g')
    /\ length pos' = n
    /\ Forall (fun v => -1000 <= v <= 1000) pos'.
Proof.
  intros Hg Hlen.
  destruct (for_range_invariant
              (fun j (pos' : list R) g' =>
                 draws g' = draws g /\ length pos' = n
                 /\ forall k v, (k < j)%nat -> pos' !! k = Some v -> -1000 <= v <= 1000)
              (fun i => u <- Math_random ;;
                        assign (fun pos => <[i := Math_fround ((u - 0.5) * 2000)]> pos))
              n 0 pos g) as (pos' & g' & E & _ & Hl & Hall).
  - split; [reflexivity |]. split; [exact Hlen |]. intros k v Hk. lia.
  - intros j s g0 Hj (Hd & Hl & Hprev).
    unfold bind, Math_random, assign. eexists; eexists. split; [reflexivity |].
    split; [exact Hd |]. split; [now rewrite length_insert |].
    intros k v Hk Hv. destruct (Nat.eq_dec k j) as [-> | Hne].
    + rewrite list_lookup_insert_eq in Hv by lia. injection Hv as <-.
      pose proof (Hg (cursor g0)) as Hu. rewrite <- Hd in Hu.
      apply fround_dust. lra.
    + rewrite list_lookup_insert_ne in Hv by congruence. apply (Hprev k v); [lia | exact Hv].
  - exists pos', g'. split; [exact E |]. split; [exact Hl |].
    apply Forall_lookup. intros k v Hv. apply (Hall k v); [| exact Hv].
    apply lookup_lt_Some in Hv. lia.
Qed.

(** X20. With draws in [0, 1), [initDust] returns a buffer of three
    coordinates for each of the 4000 grains, every one of them from -1000
    to 1000, both reached at most: the largest draws are stored as
    1000. *)
Theorem dust_in_cube (old : list R) (g : RNG) :
  unit_draws g ->
  exists pos g',
    initDust old g = (Normal tt, pos, g')
    /\ length pos = (CONFIG.dustCount * 3)%nat
    /\ Forall (fun v => -1000 <= v <= 1000) pos.
Proof.
  intros Hg. unfold initDust, bind, assign.
  apply dust_loop; [exact Hg | apply length_replicate].
Qed.

Lemma Meteor_constructor_reset (m : Meteor.t) (g : RNG) :
  Meteor_constructor m g = Meteor.reset m (next (next g)).
Proof. reflexivity. Qed.

Lemma meteors_loop (n : nat) (a : HolidayApp) (g : RNG) :
  unit_draws g ->
  exists l g',
    for_range 0 n
      (fun _ a g =>
         let '(c, m, g') := Meteor_constructor Meteor_blank g in
         match c with
         | Normal _ => (Normal tt, set_meteors (meteors a ++ [m]) a, g')
         | Throw e => (Throw e, a, g')
         end) a g
    = (Normal tt, set_meteors (meteors a ++ l) a, g')
    /\ length l = n
    /\ Forall (fun m => in_spawn_box (Meteor.position m)) l.
Proof.
  intros Hg.
  destruct (for_range_invariant
              (fun j a' g' =>
                 draws g' = draws g
                 /\ exists l, a' = set_meteors (meteors a ++ l) a /\ length l = j
                              /\ Forall (fun m => in_spawn_box (Meteor.position m)) l)
              (fun _ a g =>
                 let '(c, m, g') := Meteor_constructor Meteor_blank g in
                 match c with
                 | Normal _ => (Normal tt, set_meteors (meteors a ++ [m]) a, g')
                 | Throw e => (Throw e, a, g')
                 end) n 0 a g) as (a' & g' & E & _ & l & -> & Hl & Hall).
  - split; [reflexivity |]. exists []. rewrite app_nil_r.
    split; [destruct a; reflexivity |]. split; [reflexivity | constructor].
  - intros j s g0 _ (Hd & l & -> & Hl & Hall).
    rewrite Meteor_constructor_reset.
    assert (Hg2 : unit_draws (next (next g0))) by (intros k; cbn; rewrite Hd; apply Hg).
    pose proof (reset_returns Meteor_blank (next (next g0))) as [Hc _].
    pose proof (reset_in_box Meteor_blank (next (next g0)) Hg2) as Hbox.
    pose proof (reset_velocity_scale Meteor_blank (next (next g0))) as (_ & _ & _ & Hdr).
    destruct (Meteor.reset Meteor_blank (next (next g0))) as [[[[] | e] m] g1];
      cbn in Hc, Hbox, Hdr; [| discriminate].
    eexists; eexists. split; [reflexivity |]. split; [congruence |].
    exists (l ++ [m]). cbn [meteors set_meteors]. rewrite <- app_assoc.
    split; [reflexivity |]. split; [rewrite length_app; cbn; lia |].
    apply Forall_app. split; [exact Hall | constructor; [exact Hbox | constructor]].
  - exists l, g'. auto.
Qed.

(** X21. With draws in [0, 1), [initMeteors] returns having pushed six
    bodies onto the pool, each of them in the spawn box (its faces
    included), and touched nothing else of the application. *)
Theorem initMeteors_fills_pool (a : HolidayApp) (g : RNG) :
  unit_draws g ->
  exists l g',
    initMeteors a g = (Normal tt, set_meteors (meteors a ++ l) a, g')
    /\ length l = 6%nat
    /\ Forall (fun m => in_spawn_box (Meteor.position m)) l.
Proof. intros Hg. unfold initMeteors. apply meteors_loop, Hg. Qed.

End Scenery.

(** ** The text toggle *)

Section Toggle.

(** X22. The text toggle is a round trip: on a page in step it flips the
    visibility of container and message together and relabels the button
    with the next action, so two presses (of the button or of the [h] key,
    in either case) give the page back; any other key does nothing. *)
Theorem text_toggle_round_trip (p : Page) (hidden : bool) (key : string) :
  in_step p hidden ->
  in_step (toggleTextUI p) (negb hidden)
  /\ toggleTextUI (toggleTextUI p) = p
  /\ onKeyDown "h" (onKeyDown "H" p) = p
  /\ (key <> "h" -> key <> "H" -> onKeyDown key p = p).
Proof.
  intros (Hc & Hm & Hb).
  destruct p as [c m t b]. cbn in Hc, Hm, Hb. subst c.
  split; [| split; [| split]].
  - unfold in_step, toggleTextUI. cbn.
    destruct hidden; cbn;
      (split; [reflexivity |]);
      (split; [destruct Hm as [-> | ->]; cbn; auto
              | destruct Hb as [-> | ->]; cbn; auto]).
  - unfold toggleTextUI.
    destruct hidden; cbn;
      destruct Hm as [-> | ->], Hb as [-> | ->]; reflexivity.
  - unfold onKeyDown, toggleTextUI. cbn.
    destruct hidden; cbn;
      destruct Hm as [-> | ->], Hb as [-> | ->], t as [[|] |]; reflexivity.
  - intros H1 H2. unfold onKeyDown, is_h.
    apply String.eqb_neq in H1, H2. now rewrite H1, H2.
Qed.

(** X23. Without the container in the page the toggle cannot show the
    text again: whatever the page, every press hides the message and
    labels the button "Show Text", and a second press changes nothing. *)
Theorem text_toggle_without_container (p : Page) :
  ui_container p = None ->
  pers_msg (toggleTextUI p) = (fun _ => true) <$> pers_msg p
  /\ hide_ui_btn (toggleTextUI p) = (fun _ => "Show Text") <$> hide_ui_btn p
  /\ toggleTextUI (toggleTextUI p) = toggleTextUI p.
Proof.
  intros Hc. destruct p as [c m t b]. cbn in Hc. subst c.
  unfold toggleTextUI. cbn. repeat split.
  destruct m, b; reflexivity.
Qed.

End Toggle.

(** ** The cloud stays where it was seeded *)

Section Cloud.

Context {T : THREE}.

Lemma scatterTarget_within (i : nat) (time : R) : within 150 (scatterTarget i time).
Proof.
  unfold within, scatterTarget, Math_sin, Math_cos, Math_PI.
  cbn [Vector3.x Vector3.y Vector3.z].
  set (t := INR i / INR CONFIG.treeParticleCount).
  pose proof (SIN_bound (t * 300 + time)) as [Hl Hu].
  pose proof (SIN_bound (t * 180 + time * 0.2)) as [Hl0 Hu0].
  pose proof (SIN_bound (t * PI * 4 + time * 0.4)) as [Hl1 Hu1].
  pose proof (COS_bound (t * PI * 4 + time * 0.4)) as [Hl2 Hu2].
  repeat split; nra.
Qed.

Lemma treeTarget_within (i : nat) (time : R)
  (distAlongBranch tierIndex branchAngle : R) (isBranch : bool) (jx jy jz : R) :
  0 <= tierIndex < 30 -> 0 <= distAlongBranch < 1 ->
  within 1.5 (Vector3.mk jx jy jz) ->
  within 150 (treeTarget i time distAlongBranch tierIndex branchAngle isBranch jx jy jz).
Proof.
  intros Ht Hd (Hjx & Hjy & Hjz). cbn [Vector3.x Vector3.y Vector3.z] in Hjx, Hjy, Hjz.
  unfold within, treeTarget. cbn [Vector3.x Vector3.y Vector3.z].
  unfold CONFIG.tiers, CONFIG.treeHeight, CONFIG.treeRadius, Math_sin, Math_cos, Math_max.
  set (tierT := tierIndex / 30).
  assert (HT : 0 <= tierT < 1) by (unfold tierT; lra).
  pose proof (Math_pow_unit_interval tierT 1.1 ltac:(lra) ltac:(lra) HT) as Hp.
  pose proof (Math_pow_unit_interval distAlongBranch 1.4 ltac:(lra) ltac:(lra) Hd) as Hq.
  set (A := branchAngle + _ + _).
  set (rad := distAlongBranch * (Math_pow tierT 1.1 * 52)).
  assert (Hrad : 0 <= rad < 52) by (unfold rad; nra).
  pose proof (SIN_bound A) as [Hs1 Hs2]. pose proof (COS_bound A) as [Hc1 Hc2].
  pose proof (SIN_bound (time * 0.8 + tierIndex)) as [Hl Hu].
  repeat split; try nra.
  - eapply Rle_trans; [| apply Rmax_r]. lra.
  - apply Rmax_lub; nra.
Qed.

Lemma target_within (a : HolidayApp) (i : nat) (time : R) :
  descriptors_in_range a -> (i < CONFIG.treeParticleCount)%nat ->
  within 150 (target a i time).
Proof.
  intros Hdesc Hi. destruct (Hdesc i Hi) as (Hd & Ht & Hj).
  unfold target. destruct (mode (state a)).
  - apply treeTarget_within; [exact Ht | exact Hd | exact Hj].
  - apply scatterTarget_within.
Qed.

Lemma integrate3_within (bound : R) (p t : Vector3.t) :
  150 <= bound -> within bound p -> within 150 t -> within bound (integrate3 p t).
Proof.
  intros Hb (Hx & Hy & Hz) (Tx & Ty & Tz).
  unfold within, integrate3, integrate. cbn [Vector3.x Vector3.y Vector3.z].
  repeat split; lra.
Qed.

Lemma cloud_invariant (bound : R) (frames : list (R * option Point.t))
  (a : HolidayApp) (g : RNG) :
  150 <= bound ->
  (CONFIG.treeParticleCount * 3 <= length (positions a))%nat ->
  descriptors_in_range a ->
  particles_within bound a ->
  particles_within bound (receiver (animate frames a g)).
Proof.
  intros Hb Hlen Hdesc Hin.
  apply (animate_invariant
           (fun a' _ =>
              (CONFIG.treeParticleCount * 3 <= length (positions a'))%nat
              /\ descriptors_in_range a' /\ particles_within bound a')
           frames a g); [| auto].
  clear a g Hlen Hdesc Hin. intros time hand a g (Hlen & Hdesc & Hin).
  destruct (update_shape time hand a g) as (P & ms & g' & E & _ & HP & Hint).
  rewrite E. cbn [receiver fst snd].
  split; [cbn [positions]; lia |]. split.
  - intros i Hi. cbn [treeBranchParams treeJitters]. exact (Hdesc i Hi).
  - intros i Hi. cbn [positions]. rewrite (Hint Hlen i Hi).
    apply integrate3_within; [| exact (Hin i Hi) | exact (target_within a i time Hdesc Hi)].
    assumption.
Qed.

(** X24. The cloud never leaves the cube it was seeded in: when the
    stored parameters and jitters are in the ranges generation gives them
    and every particle is within [bound] (150 or more; 200 at start) of
    the origin on each axis, then after any number of frames, in either
    mode and whatever the hand tracker reports, every particle still is. *)
Theorem particles_stay_in_cube (bound : R) (frames : list (R * option Point.t))
  (a : HolidayApp) (g : RNG) :
  150 <= bound ->
  (CONFIG.treeParticleCount * 3 <= length (positions a))%nat ->
  descriptors_in_range a ->
  particles_within bound a ->
  particles_within bound (receiver (animate frames a g)).
Proof. exact (cloud_invariant bound frames a g). Qed.

Lemma triple_particle (p : list R) (i : nat) (v : Vector3.t) :
  triple p i = Some v -> particle p i = v.
Proof.
  unfold triple, particle, read. intros Hv.
  destruct (p !! (i * 3)%nat), (p !! (i * 3 + 1)%nat), (p !! (i * 3 + 2)%nat);
    try discriminate.
  injection Hv as <-. reflexivity.
Qed.

Lemma within_weaken (b b' : R) (v : Vector3.t) : b <= b' -> within b v -> within b' v.
Proof. unfold within. intros Hb (Hx & Hy & Hz). repeat split; lra. Qed.

(** Generation establishes what the frames keep. *)
Lemma generation_establishes (t : Theme) (a : HolidayApp) (g : RNG) :
  unit_draws g ->
  THEMES !! theme (state a) = Some t ->
  exists a' g',
    initTreeParticles a g = (Normal tt, a', g')
    /\ length (positions a') = (CONFIG.treeParticleCount * 3)%nat
    /\ descriptors_in_range a'
    /\ particles_within 200 a'.
Proof.
  intros Hg Ht. rewrite initTreeParticles_prologue. unfold THEMES_get. rewrite Ht.
  set (a0 := set_treeBranchParams _ _).
  destruct (generation_loop_seeds t CONFIG.treeParticleCount a0 g Hg)
    as (a' & g' & E & Hlp & Hseed); try apply length_replicate.
  destruct (generation_loop_in_range t CONFIG.treeParticleCount a0 g Hg)
    as (a2 & g2 & E2 & Hdesc); [apply length_replicate |].
  rewrite E in E2. injection E2 as <- <-.
  exists a', g'. split; [exact E |]. split; [exact Hlp |]. split.
  - intros i Hi.
    destruct (Hdesc i Hi) as (bf & ang & k & L0 & L1 & _ & Hbf & Hk & _).
    destruct (Hseed i Hi) as (flag & jit & st & _ & Hj & _ & Hflag & _).
    unfold read. rewrite L0, L1. cbn [default from_option].
    rewrite (triple_particle _ _ _ Hj).
    split; [exact Hbf |]. split.
    + split; [apply (IZR_le 0); lia | apply (IZR_lt k 30); lia].
    + destruct Hflag as [[_ Hw] | [_ Hw]]; [| exact Hw].
      apply (within_weaken 0.15); [lra | exact Hw].
  - intros i Hi. destruct (Hseed i Hi) as (flag & jit & st & _ & _ & Hs & _ & Hw).
    now rewrite (triple_particle _ _ _ Hs).
Qed.

(** X25. From generation on, the cloud stays in its cube: with draws in
    [0, 1) at generation and a palette of the table, generation returns
    and after any number of frames, in either mode, whatever the draws of
    the frames and the reports of the hand tracker, every particle is
    within 200 of the origin on each axis. *)
Theorem generated_cloud_stays_in_cube (t : Theme) (frames : list (R * option Point.t))
  (a : HolidayApp) (g g2 : RNG) :
  unit_draws g ->
  THEMES !! theme (state a) = Some t ->
  exists a' g',
    initTreeParticles a g = (Normal tt, a', g')
    /\ particles_within 200 (receiver (animate frames a' g2)).
Proof.
  intros Hg Ht.
  destruct (generation_establishes t a g Hg Ht) as (a' & g' & E & Hl & Hd & Hin).
  exists a', g'. split; [exact E |].
  apply cloud_invariant; [lra | lia | exact Hd | exact Hin].
Qed.

End Cloud.

(** ** The further properties at concrete inputs *)

Lemma half_source_unit : unit_draws (constant_source (1 / 2)).
Proof. apply constant_source_unit. lra. Qed.

Lemma gold_is_a_theme : exists t, THEMES !! "gold" = Some t.
Proof. eexists. vm_compute. reflexivity. Qed.

Lemma allocated_positions_length :
  (CONFIG.treeParticleCount * 3 <= length (positions allocated))%nat.
Proof. cbn [allocated positions]. rewrite length_replicate. apply Nat.le_refl. Qed.

Lemma allocated_colors_length :
  (CONFIG.treeParticleCount * 3 <= length (colors allocated))%nat.
Proof. cbn [allocated colors]. rewrite length_replicate. apply Nat.le_refl. Qed.

Lemma particle_replicate_0 (n i : nat) : particle (replicate n 0) i = Vector3.mk 0 0 0.
Proof. unfold particle. now rewrite !read_replicate_0. Qed.

Lemma allocated_descriptors_in_range : descriptors_in_range allocated.
Proof.
  intros i Hi. cbn [allocated treeBranchParams treeJitters].
  rewrite !read_replicate_0, particle_replicate_0. unfold within. cbn. lra.
Qed.

Lemma allocated_particles_within : particles_within 200 allocated.
Proof.
  intros i Hi. cbn [allocated positions]. rewrite particle_replicate_0.
  unfold within. cbn. lra.
Qed.

Lemma reset_spawns_in_box_witness :
  unit_draws (constant_source (1 / 2))
  /\ in_spawn_box
       (Meteor.position
          (receiver (Meteor.reset (H := Three.js) Meteor_blank (constant_source (1 / 2))))).
Proof.
  split; [exact half_source_unit |].
  exact (proj1 (reset_spawns_in_box (T := Three.js) Meteor_blank (constant_source (1 / 2))
                  half_source_unit)).
Defined.

Lemma reset_velocity_witness :
  unit_draws (constant_source (1 / 2))
  /\ Vector3.y
       (Meteor.velocity
          (receiver (Meteor.reset (H := Three.js) Meteor_blank (constant_source (1 / 2)))))
     <= -1.88.
Proof.
  split; [exact half_source_unit |].
  exact (proj2 (proj2 (reset_velocity (T := Three.js) Meteor_blank
                         (constant_source (1 / 2)) half_source_unit))).
Defined.

Lemma meteor_straight_between_resets_witness :
  let m := Meteor.mk (Vector3.mk 0 0 (-500)) (mkQuaternion 0 0 0 1)
                     (Vector3.mk 1 1 1) (Vector3.mk 1 (-2) 0) in
  completion (for_range 0 2 (fun _ => Meteor.update (H := Three.js)) m
                (constant_source (1 / 2)))
  = Normal tt.
Proof.
  intros m.
  rewrite (meteor_straight_between_resets (T := Three.js) 2 m (constant_source (1 / 2))).
  - reflexivity.
  - intros k [H1 H2]. apply le_INR in H1, H2. cbn in *. lra.
Defined.

Lemma animate_keeps_meteor_pool_witness :
  unit_draws (constant_source (1 / 2))
  /\ completion (animate (H := Three.js) [(0, None)] allocated (constant_source (1 / 2)))
     = Normal tt.
Proof.
  split; [exact half_source_unit |].
  exact (proj1 (animate_keeps_meteor_pool (T := Three.js) 0 None [] allocated
                  (constant_source (1 / 2)) half_source_unit)).
Defined.

Lemma update_moves_every_particle_witness :
  within 200 (particle (positions allocated) 0)
  /\ within 200 (target allocated 0 0)
  /\ Vector3.distanceTo
       (particle (stored (positions (receiver (update (H := Three.js) 0 None allocated
                                                      (constant_source (1 / 2)))))) 0)
       (target allocated 0 0)
     <= 0.94 * Vector3.distanceTo (particle (positions allocated) 0) (target allocated 0 0)
        + 0.00002.
Proof.
  assert (Hp : within 200 (particle (positions allocated) 0))
    by exact (allocated_particles_within 0%nat treeParticleCount_pos).
  assert (Ht : within 200 (target allocated 0 0)).
  { apply (within_weaken 150); [lra |].
    exact (target_within allocated 0 0 allocated_descriptors_in_range treeParticleCount_pos). }
  split; [exact Hp |]. split; [exact Ht |].
  exact (proj2 (update_moves_every_particle (T := Three.js) 0 None allocated
                  (constant_source (1 / 2)) 0 allocated_positions_length
                  treeParticleCount_pos Hp Ht)).
Defined.

Lemma update_tracks_hand_witness :
  let h := Point.mk (1 / 2) (1 / 2) in
  (0 <= Point.x h <= 1)
  /\ handX (state (receiver (update (H := Three.js) 0 (Some h) allocated
                                    (constant_source (1 / 2)))))
     = (Point.x h - 0.5) * 2.
Proof.
  intros h.
  assert (Hx : 0 <= Point.x h <= 1) by (cbn; lra).
  assert (Hy : 0 <= Point.y h <= 1) by (cbn; lra).
  split; [exact Hx |].
  exact (proj1 (update_tracks_hand (T := Three.js) 0 h allocated (constant_source (1 / 2))
                  Hx Hy)).
Defined.

Lemma animate_keeps_ranges_witness :
  -140 <= galaxyFloor_position_y allocated <= -52
  /\ -140 <= galaxyFloor_position_y
               (receiver (animate (H := Three.js) [(0, None)] allocated
                                  (constant_source (1 / 2)))) <= -52.
Proof.
  assert (Hf : -140 <= galaxyFloor_position_y allocated <= -52) by (cbn; lra).
  assert (Hh : 0 <= Vector3.x (heart_scale allocated) <= 1.06) by (cbn; lra).
  split; [exact Hf |].
  exact (proj1 (animate_keeps_ranges (T := Three.js) 0 None [] allocated
                  (constant_source (1 / 2)) Hf Hh)).
Defined.




Lemma tree_target_within_tree_witness :
  0 <= 3 < 30
  /\ -51.8 <= Vector3.y (treeTarget 7 0 (1 / 2) 3 1 false 0 0 0) <= 61.5.
Proof.
  assert (Ht : 0 <= 3 < 30) by lra.
  assert (Hd : 0 <= 1 / 2 < 1) by lra.
  assert (Hj : -1.5 <= 0 <= 1.5) by lra.
  split; [exact Ht |].
  exact (proj2 (tree_target_within_tree 7 0 (1 / 2) 3 1 false 0 0 0 Ht Hd Hj)).
Defined.

Lemma drag_adds_displacement_witness :
  let s := set_isPointerDown true initialState in
  let l := [ {| clientX := 10; clientY := 0; tagName := "CANVAS" |};
             {| clientX := 40; clientY := 20; tagName := "CANVAS" |} ] in
  isPointerDown s = true
  /\ manualRotY (dispatch_all s (moves l))
     = manualRotY s
       + (Point.x (last_position (Point.mk (pointerX s) (pointerY s)) l) - pointerX s) * 0.005.
Proof.
  intros s l. split; [reflexivity |].
  exact (proj1 (drag_adds_displacement l s eq_refl)).
Defined.

Lemma canvas_is_no_control :
  "CANVAS" <> "SELECT" /\ "CANVAS" <> "BUTTON" /\ "CANVAS" <> "OPTION".
Proof. repeat split; discriminate. Qed.

Lemma gesture_decided_by_end_points_witness :
  let e_down := {| clientX := 0; clientY := 0; tagName := "CANVAS" |} in
  let e_up := {| clientX := 1; clientY := 1; tagName := "CANVAS" |} in
  let far := {| clientX := 300; clientY := 200; tagName := "CANVAS" |} in
  tagName e_down <> "SELECT"
  /\ isPointerDown
       (dispatch_all initialState (pointerdown e_down :: moves [far] ++ [pointerup e_up]))
     = false.
Proof.
  intros e_down e_up far.
  destruct canvas_is_no_control as (H1 & H2 & H3).
  split; [exact H1 |].
  exact (proj2 (proj2 (gesture_decided_by_end_points e_down e_up [far] initialState
                         H1 H2 H3))).
Defined.

Lemma theme_change_recolours_witness :
  unit_draws (constant_source (1 / 2))
  /\ exists a' g',
       onThemeChange (H := Three.js) "gold" allocated (constant_source (1 / 2))
       = (Normal tt, a', g')
       /\ theme (state a') = "gold".
Proof.
  split; [exact half_source_unit |].
  destruct gold_is_a_theme as (t & Ht).
  destruct (theme_change_recolours (T := Three.js) "gold" t allocated
              (constant_source (1 / 2)) Ht half_source_unit allocated_colors_length)
    as (a' & g' & E & Hth & _).
  exists a', g'. split; [exact E | exact Hth].
Defined.


Lemma galaxy_floor_placed_witness :
  unit_draws (constant_source (1 / 2))
  /\ exists b' g',
       Galaxy.initGalaxyFloor (H := Three.js) (H0 := Three_hsl) (Galaxy.mk [] [])
                              (constant_source (1 / 2))
       = (Normal tt, b', g').
Proof.
  split; [exact half_source_unit |].
  destruct (galaxy_floor_placed (T := Three.js) (H := Three_hsl) (Galaxy.mk [] [])
              (constant_source (1 / 2)) half_source_unit) as (b' & g' & E & _).
  exists b', g'. exact E.
Defined.

Lemma dust_in_cube_witness :
  unit_draws (constant_source (1 / 2))
  /\ exists pos g',
       initDust [] (constant_source (1 / 2)) = (Normal tt, pos, g')
       /\ Forall (fun v => -1000 <= v <= 1000) pos.
Proof.
  split; [exact half_source_unit |].
  destruct (dust_in_cube [] (constant_source (1 / 2)) half_source_unit)
    as (pos & g' & E & _ & Hall).
  exists pos, g'. split; [exact E | exact Hall].
Defined.

Lemma initMeteors_fills_pool_witness :
  unit_draws (constant_source (1 / 2))
  /\ exists l g',
       initMeteors (H := Three.js) allocated (constant_source (1 / 2))
       = (Normal tt, set_meteors (meteors allocated ++ l) allocated, g')
       /\ length l = 6%nat.
Proof.
  split; [exact half_source_unit |].
  destruct (initMeteors_fills_pool (T := Three.js) allocated (constant_source (1 / 2))
              half_source_unit) as (l & g' & E & Hl & _).
  exists l, g'. split; [exact E | exact Hl].
Defined.

Lemma text_toggle_round_trip_witness :
  let p := {| ui_container := Some false; pers_msg := Some false;
              top_controls := Some false; hide_ui_btn := Some "Hide Text" |} in
  in_step p false /\ toggleTextUI (toggleTextUI p) = p.
Proof.
  intros p.
  assert (Hp : in_step p false) by (unfold in_step; cbn; auto).
  split; [exact Hp |].
  exact (proj1 (proj2 (text_toggle_round_trip p false "h" Hp))).
Defined.

Lemma text_toggle_without_container_witness :
  let p := {| ui_container := None; pers_msg := Some false;
              top_controls := None; hide_ui_btn := Some "Hide Text" |} in
  ui_container p = None /\ pers_msg (toggleTextUI p) = Some true.
Proof.
  intros p. split; [reflexivity |].
  exact (proj1 (text_toggle_without_container p eq_refl)).
Defined.

Lemma particles_stay_in_cube_witness :
  particles_within 200 allocated
  /\ particles_within 200
       (receiver (animate (H := Three.js) [(0, None)] allocated (constant_source (1 / 2)))).
Proof.
  split; [exact allocated_particles_within |].
  apply (particles_stay_in_cube (T := Three.js) 200 [(0, None)] allocated
           (constant_source (1 / 2))).
  - lra.
  - exact allocated_positions_length.
  - exact allocated_descriptors_in_range.
  - exact allocated_particles_within.
Defined.

Lemma generated_cloud_stays_in_cube_witness :
  unit_draws (constant_source (1 / 2))
  /\ exists a' g',
       initTreeParticles (H := Three.js) allocated (constant_source (1 / 2))
       = (Normal tt, a', g')
       /\ particles_within 200
            (receiver (animate (H := Three.js) [(0, None)] a' (constant_source (1 / 4)))).
Proof.
  split; [exact half_source_unit |].
  destruct classic_is_a_theme as (t & Ht).
  exact (generated_cloud_stays_in_cube (T := Three.js) t [(0, None)] allocated
           (constant_source (1 / 2)) (constant_source (1 / 4)) half_source_unit Ht).
Defined.
